(** * lang_processor: the four-stage translation pipeline

    A shallow embedding of [MinecraftLangProcessor] (lang_processor.py):
    Python dictionaries as insertion-ordered association lists, the working
    directory as a record of stores, and the stage methods as computations
    in a small state-and-exception monad that also carries the logger. *)

From stdpp Require Import base list strings gmap sorting.

Open Scope string_scope.
Open Scope list_scope.
Open Scope nat_scope.
Local Set Warnings "-register-all,-clear-no-such-hyp".

(** ** JSON values and Python dictionaries *)

(** The values [json.load] can produce.  Numbers are integers here; JSON
    fractions do not occur in language files. *)
Inductive json :=
  | JNull
  | JBool (b : bool)
  | JNum (n : Z)
  | JStr (s : string)
  | JArr (elems : list json)
  | JObj (fields : list (string * json)).

(** Python truthiness, as tested by [if v]. *)
Definition truthy (v : json) : bool :=
  match v with
  | JNull => false
  | JBool b => b
  | JNum n => negb (n =? 0)%Z
  | JStr s => negb (String.eqb s EmptyString)
  | JArr elems => match elems with [] => false | _ => true end
  | JObj fields => match fields with [] => false | _ => true end
  end.

(** A [dict] with string keys: the items in insertion order.  A dictionary
    never holds a key twice, see [dict_ok]. *)
Abbreviation Dict := (list (string * json)).

Definition keys (d : Dict) : list string := d.*1.

Definition dict_ok (d : Dict) : Prop := NoDup (keys d).

(** [d.get(k)] / [d[k]] *)
Fixpoint get (k : string) (d : Dict) : option json :=
  match d with
  | [] => None
  | (k', v) :: d' => if decide (k = k') then Some v else get k d'
  end.

(** [d[k] = v]: an existing key keeps its position, a new one goes last. *)
Fixpoint setitem (k : string) (v : json) (d : Dict) : Dict :=
  match d with
  | [] => [(k, v)]
  | (k', v') :: d' =>
      if decide (k = k') then (k', v) :: d' else (k', v') :: setitem k v d'
  end.

(** [d.update(other)] *)
Definition update (d other : Dict) : Dict :=
  foldl (fun acc kv => setitem kv.1 kv.2 acc) d other.

(** [dict(items)] *)
Definition dict_of_items (items : list (string * json)) : Dict :=
  update [] items.

(** [{key: d[key] for key in ks if key in d}] *)
Definition restrict (d : Dict) (ks : list string) : Dict :=
  foldl (fun acc key =>
           match get key d with
           | Some v => setitem key v acc
           | None => acc
           end) [] ks.

(** [sorted(xs)] on strings: ascending by code point, which on UTF-8 encoded
    text is the byte-wise order [String.le]. *)
Definition sorted (xs : list string) : list string :=
  merge_sort String.le xs.

(** Order of [(key, value)] tuples whose keys are pairwise distinct. *)
Definition item_le (x y : string * json) : Prop := String.le x.1 y.1.

Global Instance item_le_dec : RelDecision item_le.
Proof. intros x y. unfold item_le. apply _. Defined.

Global Instance item_le_total : Total item_le.
Proof. intros x y. unfold item_le. apply (total String.le). Qed.

Global Instance item_le_trans : Transitive item_le.
Proof. intros x y z. unfold item_le. apply (transitivity (R:=String.le)). Qed.

(** [sorted(d.items())] *)
Definition sorted_items (d : Dict) : list (string * json) :=
  merge_sort item_le d.

(** ** The two set differences *)

(** extract_lang_diff, lines 177-178:
    [diff_keys = set(all_en_us.keys()) - set(all_ja_jp.keys())]
    [all_diff = {key: all_en_us[key] for key in sorted(list(diff_keys)) if key in all_en_us}] *)
Definition lang_diff (all_en_us all_ja_jp : Dict) : Dict :=
  let diff_keys : gset string :=
    list_to_set (keys all_en_us) ∖ list_to_set (keys all_ja_jp) in
  restrict all_en_us (sorted (elements diff_keys)).

(** find_untranslated, lines 213-215:
    [already_translated_keys = {k for k, v in translated.items() if v}]
    [keys_to_translate = set(all_diff.keys()) - already_translated_keys]
    [untranslated_dict = {key: all_diff[key] for key in sorted(list(keys_to_translate))}]
    Every key of the comprehension is a key of [all_diff], so the lookup
    [all_diff[key]] cannot raise. *)
Definition untranslated_of (all_diff translated : Dict) : Dict :=
  let already_translated_keys : gset string :=
    list_to_set (filter (fun kv => truthy kv.2 = true) translated).*1 in
  let keys_to_translate : gset string :=
    list_to_set (keys all_diff) ∖ already_translated_keys in
  restrict all_diff (sorted (elements keys_to_translate)).

(** ** Chunking *)

(** [range(0, stop, step)] for a positive step, by fuel [stop]. *)
Fixpoint range_up (fuel i stop step : nat) : list nat :=
  match fuel with
  | 0 => []
  | S fuel' =>
      if decide (i < stop) then i :: range_up fuel' (i + step) stop step else []
  end.

(** [range(0, stop, step)]: [None] is the [ValueError] of a zero step. *)
Definition py_range (stop : nat) (step : Z) : option (list nat) :=
  if decide (step = 0)%Z then None
  else if decide (step < 0)%Z then Some []
  else Some (range_up stop 0 stop (Z.to_nat step)).

(** [items[i:j]] for 0 <= i <= j *)
Definition slice {A} (l : list A) (i j : nat) : list A := take (j - i) (drop i l).

(** The list comprehension of _create_chunks, line 289. *)
Definition chunks_of (chunk_size : Z) (data : Dict) : option (list Dict) :=
  let items := data in
  match py_range (length items) chunk_size with
  | None => None
  | Some starts =>
      Some ((fun i => dict_of_items (slice items i (i + Z.to_nat chunk_size))) <$> starts)
  end.

(** ** The working directory, the logger and the monad of the stage methods *)

Inductive exn := ValueError | OSError | RuntimeError | JSONDecodeError.

Inductive res (A : Type) :=
  | Val (a : A)
  | Exc (e : exn).
Arguments Val {A} a.
Arguments Exc {A} e.

(** The files the stages touch.  Dated artifacts are named by their date
    string, checkpoints by their chunk index. *)
Inductive path :=
  | lang_diff_file (date : string)      (* lang_diff/all_diff_<date>.json *)
  | untranslated_file (date : string)   (* untranslated/all_untranslated_<date>.json *)
  | translated_file (date : string)     (* translated/all_translated_<date>.json *)
  | progress_file (i : Z)               (* progress/progress_<i>.json *)
  | lang_file                           (* <pack>/assets/minecraft/lang/ja_jp.json *)
  | pack_mcmeta_file.                   (* <pack>/pack.mcmeta *)

(** What a file holds: a JSON object, or bytes [json.load] rejects.  A
    file that parses holds an object, as the annotation [Optional[Dict]] of
    _load_json has it; the stages are not modelled on a file that holds
    another JSON value. *)
Inductive file :=
  | Garbage
  | Doc (d : Dict).

Record entry := Entry { mtime : nat; content : file }.

Record FS := MkFS {
  lang_diff_path : gmap string entry;
  untranslated_path : gmap string entry;
  translated_path : gmap string entry;
  progress_path : gmap Z entry;
  lang_file_at : option entry;
  pack_mcmeta_at : option entry
}.

Definition stat (p : path) (fs : FS) : option entry :=
  match p with
  | lang_diff_file date => lang_diff_path fs !! date
  | untranslated_file date => untranslated_path fs !! date
  | translated_file date => translated_path fs !! date
  | progress_file i => progress_path fs !! i
  | lang_file => lang_file_at fs
  | pack_mcmeta_file => pack_mcmeta_at fs
  end.

Definition store (p : path) (e : entry) (fs : FS) : FS :=
  match p with
  | lang_diff_file date =>
      MkFS (<[date := e]> (lang_diff_path fs)) (untranslated_path fs) (translated_path fs)
           (progress_path fs) (lang_file_at fs) (pack_mcmeta_at fs)
  | untranslated_file date =>
      MkFS (lang_diff_path fs) (<[date := e]> (untranslated_path fs)) (translated_path fs)
           (progress_path fs) (lang_file_at fs) (pack_mcmeta_at fs)
  | translated_file date =>
      MkFS (lang_diff_path fs) (untranslated_path fs) (<[date := e]> (translated_path fs))
           (progress_path fs) (lang_file_at fs) (pack_mcmeta_at fs)
  | progress_file i =>
      MkFS (lang_diff_path fs) (untranslated_path fs) (translated_path fs)
           (<[i := e]> (progress_path fs)) (lang_file_at fs) (pack_mcmeta_at fs)
  | lang_file =>
      MkFS (lang_diff_path fs) (untranslated_path fs) (translated_path fs)
           (progress_path fs) (Some e) (pack_mcmeta_at fs)
  | pack_mcmeta_file =>
      MkFS (lang_diff_path fs) (untranslated_path fs) (translated_path fs)
           (progress_path fs) (lang_file_at fs) (Some e)
  end.

Definition unlink_progress (i : Z) (fs : FS) : FS :=
  MkFS (lang_diff_path fs) (untranslated_path fs) (translated_path fs)
       (delete i (progress_path fs)) (lang_file_at fs) (pack_mcmeta_at fs).

Inductive level := INFO | WARNING | ERROR.

Global Instance level_eq_dec : EqDecision level.
Proof. solve_decision. Defined.

(** One constructor per logging call of the modelled methods. *)
Inductive msg :=
  | Saved (p : path)                    (* _save_json: file saved *)
  | SaveFailed (p : path)               (* _save_json: saving failed *)
  | FileNotFound (p : path)             (* _load_json *)
  | JsonParseFailed (p : path)          (* _load_json *)
  | Stage1Start
  | CollectedEnUs (n : nat)
  | CollectedJaJp (n : nat)
  | DiffFound (n : nat)
  | Stage1Done
  | Stage2Start
  | NoDiffFile
  | NoExistingPack
  | ExistingPackDetected
  | LoadedTranslated (n : nat)
  | TrulyUntranslated (total n : nat)
  | Stage2Done
  | Stage3Start
  | NoUntranslatedFile
  | NothingToTranslate
  | InputFile (p : path)
  | OutputFile (p : path)
  | TotalItems (n : nat)
  | ChunksCreated (n : nat) (size : Z)
  | LoadingProgress (p : path)
  | ResumingFrom (i : Z)
  | ProgressMissing (p : path)
  | ProcessingChunk (i : Z) (n : nat)
  | Waiting (seconds : nat)
  | ChunkError (i : Z) (e : exn)
  | ChunkSkipped
  | AllTranslationDone
  | RunningGemini (n : nat)
  | GeminiCliError
  | NoJsonInResponse
  | TranslationDone (n : nat)
  | ResponseParseFailed
  | GeminiCallError (e : exn)
  | CleaningUp
  | ProgressDeleted (p : path)
  | CleanupFailed (e : exn)
  | Stage4Start
  | NoTranslatedFile
  | LoadedNew (n : nat)
  | MergingExisting
  | KeysBefore (n : nat)
  | KeysAfter (n : nat)
  | CreatingDir
  | PackBuilt
  | PackLocation
  | Stage4Done.

(** How one attempt to write a file ends: it succeeds, it fails before the
    file is touched ([mkdir] or [open] raised), or it fails after [open]
    truncated the file.  The other operations that change the file system,
    creating a directory and removing a file, succeed on [Written] and raise
    on the other two. *)
Inductive write_outcome := Written | Refused | Torn.

(** The state the methods run in.  [disk] is the schedule of outcomes of the
    coming operations that change the file system, in the order of the
    attempts (none left: the operation succeeds); [journal] records every
    completed write of a file, oldest first. *)
Record World := MkWorld {
  fs : FS;
  clock : nat;
  logs : list (level * msg);
  disk : list write_outcome;
  journal : list (path * Dict)
}.

Definition M (A : Type) : Type := World -> res A * World.

Global Instance M_ret : MRet M := fun A a w => (Val a, w).
Global Instance M_bind : MBind M := fun A B f m w =>
  match m w with
  | (Val a, w') => f a w'
  | (Exc e, w') => (Exc e, w')
  end.

Definition raise {A} (e : exn) : M A := fun w => (Exc e, w).

(** [try: body except Exception as e: handler e] *)
Definition try_except {A} (body : M A) (handler : exn -> M A) : M A := fun w =>
  match body w with
  | (Val a, w') => (Val a, w')
  | (Exc e, w') => handler e w'
  end.

Definition log (l : level) (m : msg) : M unit := fun w =>
  (Val (), MkWorld (fs w) (clock w) (logs w ++ [(l, m)]) (disk w) (journal w)).

Definition exists_ (p : path) : M bool := fun w =>
  (Val (bool_decide (is_Some (stat p (fs w)))), w).

(** [time.sleep(seconds)] *)
Definition sleep (seconds : nat) : M unit := fun w =>
  (Val (), MkWorld (fs w) (clock w + seconds) (logs w) (disk w) (journal w)).

(** [open(filepath, 'w')] followed by [json.dump]; every attempt takes one
    tick of the clock. *)
Definition write_json (data : Dict) (filepath : path) : M unit := fun w =>
  let now := clock w in
  match disk w with
  | [] | Written :: _ =>
      (Val (), MkWorld (store filepath (Entry now (Doc data)) (fs w)) (S now)
                       (logs w) (tail (disk w)) (journal w ++ [(filepath, data)]))
  | Refused :: rest =>
      (Exc OSError, MkWorld (fs w) (S now) (logs w) rest (journal w))
  | Torn :: rest =>
      (Exc OSError, MkWorld (store filepath (Entry now Garbage) (fs w)) (S now)
                            (logs w) rest (journal w))
  end.

(** [path.mkdir(parents=True, exist_ok=True)] on its own, outside
    _save_json: it raises unless the next outcome of the schedule is a
    success.  Directories are not part of [FS]. *)
Definition mkdir : M unit := fun w =>
  match disk w with
  | [] => (Val (), w)
  | Written :: rest => (Val (), MkWorld (fs w) (clock w) (logs w) rest (journal w))
  | Refused :: rest | Torn :: rest =>
      (Exc OSError, MkWorld (fs w) (clock w) (logs w) rest (journal w))
  end.

(** [file.unlink()] of the checkpoint of chunk [i]: the file is removed
    unless the next outcome of the schedule is a failure, on which it stays
    and the call raises. *)
Definition unlink (i : Z) : M unit := fun w =>
  match disk w with
  | [] | Written :: _ =>
      (Val (), MkWorld (unlink_progress i (fs w)) (clock w) (logs w)
                       (tail (disk w)) (journal w))
  | Refused :: rest | Torn :: rest =>
      (Exc OSError, MkWorld (fs w) (clock w) (logs w) rest (journal w))
  end.

(** [for x in xs: body x] *)
Fixpoint for_each {A} (xs : list A) (body : A -> M unit) : M unit :=
  match xs with
  | [] => mret ()
  | x :: xs' => body x;; for_each xs' body
  end.

(** [max(xs, key=key)]: the first of the maximal elements, [None] for the
    [ValueError] on an empty sequence. *)
Definition py_max {A} (key : A -> nat) (xs : list A) : option A :=
  foldl (fun best x =>
           match best with
           | None => Some x
           | Some b => if decide (key b < key x) then Some x else Some b
           end) None xs.

(** ** The collaborator *)

(** The text the translation command printed, as _call_gemini_cli reads it:
    no JSON in it (neither a fenced block nor a leading brace), or a JSON
    text with the result of [json.loads] on it ([None]: JSONDecodeError). *)
Inductive reply :=
  | NoJson
  | JsonText (parsed : option Dict).

(** One run of the command: it could not be started or talked to, or it
    exited with a return code and an output. *)
Inductive cli_run :=
  | SpawnFailed
  | Exited (returncode : Z) (stdout : reply).

Record Config := MkConfig {
  translation_chunk_size : Z;
  translation_wait_time : nat;
  pack_format : Z;
  pack_description : string
}.

(** The settings of [__init__]. *)
Definition default_config : Config :=
  MkConfig 1500 3600 48 "Adds Japanese translations for Cobblemon and other mods.".

(** Ghost result of a stage method (the methods themselves return [None]):
    which way it ended and, when it ran to its end, the table it handed to
    its final [_save_json]. *)
Inductive outcome :=
  | MissingUpstream
  | Unreadable
  | NothingToDo
  | Finished (result : Dict).

Section Processor.
(** The instance settings, the behaviour of the translation command on a
    given input, and [strftime('%y%m%d')] of the clock. *)
Variable cfg : Config.
Variable gemini : Dict -> cli_run.
Variable strftime : nat -> string.

Definition date_str : M string := fun w => (Val (strftime (clock w)), w).

(** _get_latest_file *)
Definition _get_latest_file (directory : FS -> gmap string entry)
    (name : string -> path) : M (option path) := fun w =>
  let files := map_to_list (directory (fs w)) in
  match files with
  | [] => (Val None, w)
  | _ => (Val ((fun f => name f.1) <$> py_max (fun f => mtime f.2) files), w)
  end.

(** _save_json *)
Definition _save_json (data : Dict) (filepath : path) : M unit :=
  try_except
    (write_json data filepath;;
     log INFO (Saved filepath))
    (fun e => log ERROR (SaveFailed filepath)).

(** _load_json *)
Definition _load_json (file_path : path) : M (option Dict) := fun w =>
  match stat file_path (fs w) with
  | None => (log ERROR (FileNotFound file_path);; mret None) w
  | Some (Entry _ Garbage) => (log ERROR (JsonParseFailed file_path);; mret None) w
  | Some (Entry _ (Doc d)) => (Val (Some d), w)
  end.

(** extract_lang_diff, from the two tables the archive scan collected. *)
Definition extract_lang_diff (all_en_us all_ja_jp : Dict) : M outcome :=
  log INFO Stage1Start;;
  let all_diff := lang_diff all_en_us all_ja_jp in
  log INFO (CollectedEnUs (length all_en_us));;
  log INFO (CollectedJaJp (length all_ja_jp));;
  log INFO (DiffFound (length all_diff));;
  date ← date_str;
  _save_json all_diff (lang_diff_file date);;
  log INFO Stage1Done;;
  mret (Finished all_diff).

(** find_untranslated *)
Definition find_untranslated : M outcome :=
  log INFO Stage2Start;;
  latest_diff_file ← _get_latest_file lang_diff_path lang_diff_file;
  match latest_diff_file with
  | None => log ERROR NoDiffFile;; mret MissingUpstream
  | Some latest_diff_file =>
      all_diff ← _load_json latest_diff_file;
      match all_diff with
      | None => mret Unreadable
      | Some all_diff =>
          present ← exists_ lang_file;
          untranslated_dict ←
            (if negb present then
               log INFO NoExistingPack;;
               mret all_diff
             else
               log INFO ExistingPackDetected;;
               loaded ← _load_json lang_file;
               let translated := default [] loaded in
               let untranslated_dict := untranslated_of all_diff translated in
               log INFO (LoadedTranslated (length translated));;
               log INFO (TrulyUntranslated (length all_diff) (length untranslated_dict));;
               mret untranslated_dict);
          date ← date_str;
          _save_json untranslated_dict (untranslated_file date);;
          log INFO Stage2Done;;
          mret (Finished untranslated_dict)
      end
  end.

(** _create_chunks *)
Definition _create_chunks (data : Dict) : M (list Dict) :=
  match chunks_of (translation_chunk_size cfg) data with
  | None => raise ValueError
  | Some chunks =>
      log INFO (ChunksCreated (length chunks) (translation_chunk_size cfg));;
      mret chunks
  end.

(** _call_gemini_cli *)
Definition _call_gemini_cli (input_data : Dict) : M Dict :=
  log INFO (RunningGemini (length input_data));;
  try_except
    (match gemini input_data with
     | SpawnFailed => raise OSError
     | Exited returncode stdout =>
         if negb (returncode =? 0)%Z then
           log ERROR GeminiCliError;;
           raise RuntimeError
         else
           match stdout with
           | NoJson =>
               log WARNING NoJsonInResponse;;
               mret input_data
           | JsonText None => raise JSONDecodeError
           | JsonText (Some translated_data) =>
               log INFO (TranslationDone (length translated_data));;
               mret translated_data
           end
     end)
    (fun e =>
       match e with
       | JSONDecodeError =>
           log ERROR ResponseParseFailed;;
           mret input_data
       | _ =>
           log ERROR (GeminiCallError e);;
           raise e
       end).

(** _cleanup_progress_files.  Listing the checkpoints, like the listing of
    _get_latest_file, is taken to succeed; a removal that raises ends the
    loop in the handler. *)
Definition _cleanup_progress_files : M unit :=
  try_except
    (fun w =>
       let progress_files := (map_to_list (progress_path (fs w))).*1 in
       match progress_files with
       | [] => (Val (), w)
       | _ =>
           (log INFO CleaningUp;;
            for_each progress_files (fun i =>
              unlink i;;
              log INFO (ProgressDeleted (progress_file i)))) w
       end)
    (fun e => log WARNING (CleanupFailed e)).

(** The body of the loop of auto_translate, lines 265-280, for chunk
    number [i] of [n].  Nothing after the [update] of the [try] body can
    raise, so the handler finds [translated_data] as it was before the
    call. *)
Definition process_chunk (n : nat) (i : Z) (chunk translated_data : Dict) : M Dict :=
  log INFO (ProcessingChunk i n);;
  try_except
    (translated_chunk ← _call_gemini_cli chunk;
     let translated_data := update translated_data translated_chunk in
     let progress_file := progress_file i in
     _save_json translated_data progress_file;;
     (if decide (i < Z.of_nat n)%Z then
        log INFO (Waiting (translation_wait_time cfg));;
        sleep (translation_wait_time cfg)
      else mret ());;
     mret translated_data)
    (fun e =>
       log ERROR (ChunkError i e);;
       log INFO ChunkSkipped;;
       mret (update translated_data chunk)).

(** The loop of auto_translate, lines 261-280, over [enumerate(chunks, i)];
    [n] is [len(chunks)]. *)
Fixpoint translate_loop (n : nat) (start_chunk : Z) (i : Z) (chunks : list Dict)
    (translated_data : Dict) : M Dict :=
  match chunks with
  | [] => mret translated_data
  | chunk :: rest =>
      if decide (i < start_chunk)%Z then
        translate_loop n start_chunk (i + 1) rest translated_data
      else
        translated_data ← process_chunk n i chunk translated_data;
        translate_loop n start_chunk (i + 1) rest translated_data
  end.

(** The resume block of auto_translate, lines 248-259: the table to start
    from and [start_chunk]. *)
Definition resume_from (resume_chunk : option Z) : M (Dict * Z) :=
  match resume_chunk with
  | Some resume_chunk =>
      if decide (resume_chunk ≠ 0 ∧ 1 < resume_chunk)%Z then
        let progress_file_to_load := progress_file (resume_chunk - 1) in
        present ← exists_ progress_file_to_load;
        if (present : bool) then
          log INFO (LoadingProgress progress_file_to_load);;
          loaded ← _load_json progress_file_to_load;
          log INFO (ResumingFrom resume_chunk);;
          mret (default [] loaded, resume_chunk)
        else
          log WARNING (ProgressMissing progress_file_to_load);;
          mret ([], 1%Z)
      else mret ([], 1%Z)
  | None => mret ([], 1%Z)
  end.

(** auto_translate *)
Definition auto_translate (resume_chunk : option Z) : M outcome :=
  log INFO Stage3Start;;
  latest_untranslated_file ← _get_latest_file untranslated_path untranslated_file;
  match latest_untranslated_file with
  | None => log ERROR NoUntranslatedFile;; mret MissingUpstream
  | Some latest_untranslated_file =>
      data_to_translate ← _load_json latest_untranslated_file;
      match data_to_translate with
      | None | Some [] => log INFO NothingToTranslate;; mret NothingToDo
      | Some data_to_translate =>
          date ← date_str;
          let output_filename := translated_file date in
          log INFO (InputFile latest_untranslated_file);;
          log INFO (OutputFile output_filename);;
          log INFO (TotalItems (length data_to_translate));;
          chunks ← _create_chunks data_to_translate;
          '(translated_data, start_chunk) ← resume_from resume_chunk;
          translated_data ←
            translate_loop (length chunks) start_chunk 1 chunks translated_data;
          _save_json translated_data output_filename;;
          log INFO AllTranslationDone;;
          _cleanup_progress_files;;
          mret (Finished translated_data)
      end
  end.

Definition pack_meta : Dict :=
  [("pack", JObj [("pack_format", JNum (pack_format cfg));
                  ("description", JStr (pack_description cfg))])].

(** build_resource_pack.  The creation of the directory of the language
    file (line 411) is not inside a [try]: when it raises, the stage
    raises. *)
Definition build_resource_pack : M outcome :=
  log INFO Stage4Start;;
  latest_translated_file ← _get_latest_file translated_path translated_file;
  match latest_translated_file with
  | None => log ERROR NoTranslatedFile;; mret MissingUpstream
  | Some latest_translated_file =>
      newly_translated_data ← _load_json latest_translated_file;
      match newly_translated_data with
      | None => mret Unreadable
      | Some newly_translated_data =>
          log INFO (LoadedNew (length newly_translated_data));;
          present ← exists_ lang_file;
          base_translations ←
            (if (present : bool) then
               log INFO MergingExisting;;
               loaded ← _load_json lang_file;
               mret (default [] loaded)
             else mret []);
          log INFO (KeysBefore (length base_translations));;
          let base_translations := update base_translations newly_translated_data in
          log INFO (KeysAfter (length base_translations));;
          let final_translations := dict_of_items (sorted_items base_translations) in
          log INFO CreatingDir;;
          mkdir;;
          _save_json pack_meta pack_mcmeta_file;;
          _save_json final_translations lang_file;;
          log INFO PackBuilt;;
          log INFO PackLocation;;
          log INFO Stage4Done;;
          mret (Finished final_translations)
      end
  end.

End Processor.


(** ** The archive scan of extract_lang_diff *)

(** The character ['], code 39. *)
Definition apostrophe : Ascii.ascii :=
  Ascii.Ascii true true true false false true false false.

(** [value.replace("'", "''")] *)
Fixpoint escape (s : string) : string :=
  match s with
  | EmptyString => EmptyString
  | String c s' =>
      if Ascii.eqb c apostrophe then String apostrophe (String apostrophe (escape s'))
      else String c (escape s')
  end.

(** [s.endswith(suffix)] *)
Definition endswith (s suffix : string) : bool :=
  (String.length suffix <=? String.length s) &&
  String.eqb (String.substring (String.length s - String.length suffix)
                        (String.length suffix) s) suffix.

(** [sub in s] *)
Definition contains (sub s : string) : bool :=
  match String.index 0 sub s with
  | Some _ => true
  | None => false
  end.

(** What reading a member of an archive gives: [json.load] rejects it
    (JSONDecodeError, UnicodeDecodeError), reading raises BadZipFile,
    reading raises something else, or it parses to a value. *)
Inductive payload :=
  | Undecodable
  | Corrupt
  | Broken
  | Parsed (data : json).

(** An archive file: no zip file at all (BadZipFile), one that cannot be
    opened for another reason, or its members in [namelist()] order. *)
Inductive archive :=
  | BadZip
  | Unopenable
  | Zip (members : list (string * payload)).

(** The logging calls of the scan. *)
Inductive scan_msg :=
  | ModsFolder
  | ModsMissing
  | DatapacksFolder
  | DatapacksMissing
  | ProcessingArchive (name : string)
  | MemberUnreadable (zip_name filename : string)
  | NotAZip (zip_name : string)
  | ArchiveError (zip_name : string).

(** The two dictionaries the scan fills in place, and the lines it logs. *)
Record tables := Tables {
  all_en_us : Dict;
  all_ja_jp : Dict;
  notes : list (level * scan_msg)
}.

Definition note (l : level) (m : scan_msg) (t : tables) : tables :=
  Tables (all_en_us t) (all_ja_jp t) (notes t ++ [(l, m)]).

(** Lines 141-143:
    [for key, value in data.items():]
    [    if isinstance(value, str): target_dict[key] = value.replace("'", "''")] *)
Definition fold_strings (data target_dict : Dict) : Dict :=
  foldl (fun target kv =>
           match kv.2 with
           | JStr value => setitem kv.1 (JStr (escape value)) target
           | _ => target
           end) target_dict data.

(** How the loop over the members ends: at its end, or by an exception
    that the [except] clause of the inner [try] does not catch, a
    BadZipFile or another one. *)
Inductive loop_end := Completed | RaisedBadZipFile | Aborted.

(** The loop of _extract_lang_from_zip over [zf.namelist()], lines 129-145.
    A member that parses to something else than an object has no [items]. *)
Fixpoint read_members (zip_name : string) (members : list (string * payload))
    (t : tables) : loop_end * tables :=
  match members with
  | [] => (Completed, t)
  | (filename, content) :: rest =>
      if negb (endswith filename "en_us.json" || endswith filename "ja_jp.json") then
        read_members zip_name rest t
      else if negb (contains "assets" filename) || negb (contains "lang" filename) then
        read_members zip_name rest t
      else
        match content with
        | Undecodable =>
            read_members zip_name rest (note WARNING (MemberUnreadable zip_name filename) t)
        | Corrupt => (RaisedBadZipFile, t)
        | Broken => (Aborted, t)
        | Parsed (JObj fields) =>
            let data := dict_of_items fields in
            if endswith filename "en_us.json" then
              read_members zip_name rest
                (Tables (fold_strings data (all_en_us t)) (all_ja_jp t) (notes t))
            else
              read_members zip_name rest
                (Tables (all_en_us t) (fold_strings data (all_ja_jp t)) (notes t))
        | Parsed _ => (Aborted, t)
        end
  end.

(** _extract_lang_from_zip *)
Definition _extract_lang_from_zip (zip_name : string) (zip : archive) (t : tables) : tables :=
  match zip with
  | BadZip => note WARNING (NotAZip zip_name) t
  | Unopenable => note ERROR (ArchiveError zip_name) t
  | Zip members =>
      match read_members zip_name members t with
      | (Completed, t') => t'
      | (RaisedBadZipFile, t') => note WARNING (NotAZip zip_name) t'
      | (Aborted, t') => note ERROR (ArchiveError zip_name) t'
      end
  end.

(** [Path.name] of a path relative to a folder: what follows its last
    slash. *)
Fixpoint basename (p : string) : string :=
  match p with
  | EmptyString => EmptyString
  | String c p' =>
      if contains "/" p' then basename p'
      else if Ascii.eqb c (Ascii.Ascii true true true true false true false false) then p'
      else p
  end.

(** The loops over the archives of a folder, lines 162-164 and 171-173, in
    the order [glob] lists them.  An archive is given by its path relative
    to the folder: the line logged shows that path, the handlers of
    _extract_lang_from_zip the file name.  In the mods folder, where [glob]
    does not descend into subfolders, the path is the file name. *)
Definition scan_archives (files : list (string * archive)) (t : tables) : tables :=
  foldl (fun t f =>
           _extract_lang_from_zip (basename f.1) f.2 (note INFO (ProcessingArchive f.1) t))
        t files.

(** extract_lang_diff, lines 156-175: the mods folder and the datapacks
    folder, each [None] when it does not exist. *)
Definition scan_folders (mods datapacks : option (list (string * archive))) : tables :=
  let t := Tables [] [] [] in
  let t :=
    match mods with
    | Some files => scan_archives files (note INFO ModsFolder t)
    | None => note WARNING ModsMissing t
    end in
  match datapacks with
  | Some files => scan_archives files (note INFO DatapacksFolder t)
  | None => note WARNING DatapacksMissing t
  end.

(** extract_lang_diff on the folders: the scan, whose log lines are those of
    [notes], followed by the difference and its save. *)
Definition extract_lang_diff_of (strftime : nat → string)
    (mods datapacks : option (list (string * archive))) : M outcome :=
  let t := scan_folders mods datapacks in
  extract_lang_diff strftime (all_en_us t) (all_ja_jp t).

(** ** The command line *)

(** The [action] argument of main. *)
Inductive action := Extract | Find | Translate | Build | All.

(** main, lines 460-472: the stages the [try] block runs for an action on
    the constructed processor; [resume] is [args.resume].  An exception a
    stage lets through ends the block. *)
Definition main_dispatch (cfg : Config) (gemini : Dict → cli_run) (strftime : nat → string)
    (mods datapacks : option (list (string * archive)))
    (a : action) (resume : option Z) : M unit :=
  match a with
  | All =>
      extract_lang_diff_of strftime mods datapacks;;
      find_untranslated strftime;;
      auto_translate cfg gemini strftime resume;;
      build_resource_pack cfg;;
      mret ()
  | Extract => extract_lang_diff_of strftime mods datapacks;; mret ()
  | Find => find_untranslated strftime;; mret ()
  | Translate => auto_translate cfg gemini strftime resume;; mret ()
  | Build => build_resource_pack cfg;; mret ()
  end.
(** * Vocabulary of the properties *)

(** The contract the specification gives for [diff(a, b)]: exactly the
    entries of [a] whose key is no key of [b] or has a falsy value in [b]. *)
Definition diff_contract (diff : Dict → Dict → Dict) (a b : Dict) : Prop :=
  ∀ k v, get k (diff a b) = Some v ↔
         get k a = Some v ∧
         (get k b = None ∨ ∃ v', get k b = Some v' ∧ truthy v' = false).


(** The world with more lines in the log, and with another schedule of
    write outcomes. *)
Definition with_logs (L : list (level * msg)) (w : World) : World :=
  MkWorld (fs w) (clock w) (logs w ++ L) (disk w) (journal w).

Definition with_disk (schedule : list write_outcome) (w : World) : World :=
  MkWorld (fs w) (clock w) (logs w) schedule (journal w).

(** The next operation that changes the file system fails. *)
Definition obstructed (w : World) : bool :=
  match head (disk w) with
  | Some Refused | Some Torn => true
  | _ => false
  end.

(** The value and the final world of a run. *)
Definition result {A} (m : M A) (w : World) : res A := (m w).1.
Definition after {A} (m : M A) (w : World) : World := (m w).2.

(** What was written to disk during a run. *)
Definition written_during {A} (m : M A) (w : World) : list (path * Dict) :=
  drop (length (journal w)) (journal (after m w)).

(** The chunk numbers of the checkpoints a log reports as saved. *)
Definition checkpoints_saved (l : list (level * msg)) : list Z :=
  omap (fun e => match e.2 with Saved (progress_file i) => Some i | _ => None end) l.

(** The chunk numbers a log reports as taken up. *)
Definition chunks_processed (l : list (level * msg)) : list Z :=
  omap (fun e => match e.2 with ProcessingChunk i _ => Some i | _ => None end) l.

Definition errors (l : list (level * msg)) : list (level * msg) :=
  filter (fun e => e.1 = ERROR) l.


(** The failures on which _call_gemini_cli raises instead of returning its
    input: the command could not be run, or exited non-zero. *)
Definition raises (r : cli_run) : bool :=
  match r with
  | SpawnFailed => true
  | Exited returncode _ => negb (returncode =? 0)%Z
  end.

(** The table a successful run of the command delivered. *)
Definition answer (r : cli_run) : option Dict :=
  match r with
  | Exited returncode (JsonText (Some t)) => if (returncode =? 0)%Z then Some t else None
  | _ => None
  end.

(** The table merged into the cumulative result for a chunk: the answer,
    or the chunk itself when the collaborator failed. *)
Definition merged (gemini : Dict → cli_run) (chunk : Dict) : Dict :=
  default chunk (answer (gemini chunk)).

Definition merge_chunk (gemini : Dict → cli_run) (cumulative chunk : Dict) : Dict :=
  update cumulative (merged gemini chunk).

(** The newest file of a dated directory and the table in it. *)
Definition latest (directory : gmap string entry) : option (string * entry) :=
  py_max (fun f => mtime f.2) (map_to_list directory).

Definition latest_table (directory : gmap string entry) : option Dict :=
  match latest directory with
  | Some (_, Entry _ (Doc d)) => Some d
  | _ => None
  end.

(** The published table: the one in the language file of the pack, the
    empty one when there is no such file. *)
Definition published (w : World) : option Dict :=
  match lang_file_at (fs w) with
  | None => Some []
  | Some (Entry _ (Doc d)) => Some d
  | Some (Entry _ Garbage) => None
  end.

(** Strict inclusion of key sets. *)
Definition strict_superset (big small : list string) : Prop :=
  small ⊆ big ∧ ¬ big ⊆ small.

(** Where a run of auto_translate starts: the cumulative table it begins
    with and the number of the first chunk it takes up. *)
Definition resume_point (resume_chunk : option Z) (fs : FS) : Dict * Z :=
  match resume_chunk with
  | Some r =>
      if decide (r ≠ 0 ∧ 1 < r)%Z then
        match progress_path fs !! (r - 1)%Z with
        | Some (Entry _ (Doc d)) => (d, r)
        | Some (Entry _ Garbage) => ([], r)
        | None => ([], 1%Z)
        end
      else ([], 1%Z)
  | None => ([], 1%Z)
  end.

(** The results of the stages as functions of the files they read. *)
Definition auto_translate_result (cfg : Config) (gemini : Dict → cli_run)
    (resume_chunk : option Z) (fs : FS) : res outcome :=
  match latest (untranslated_path fs) with
  | None => Val MissingUpstream
  | Some (_, Entry _ Garbage) | Some (_, Entry _ (Doc [])) => Val NothingToDo
  | Some (_, Entry _ (Doc data)) =>
      match chunks_of (translation_chunk_size cfg) data with
      | None => Exc ValueError
      | Some chunks =>
          let '(start, start_chunk) := resume_point resume_chunk fs in
          Val (Finished (foldl (merge_chunk gemini) start
                               (drop (Z.to_nat (start_chunk - 1)) chunks)))
      end
  end.

Definition find_untranslated_result (fs : FS) : res outcome :=
  match latest (lang_diff_path fs) with
  | None => Val MissingUpstream
  | Some (_, Entry _ Garbage) => Val Unreadable
  | Some (_, Entry _ (Doc all_diff)) =>
      match lang_file_at fs with
      | None => Val (Finished all_diff)
      | Some (Entry _ Garbage) => Val (Finished (untranslated_of all_diff []))
      | Some (Entry _ (Doc translated)) => Val (Finished (untranslated_of all_diff translated))
      end
  end.

Definition build_resource_pack_result (fs : FS) : res outcome :=
  match latest (translated_path fs) with
  | None => Val MissingUpstream
  | Some (_, Entry _ Garbage) => Val Unreadable
  | Some (_, Entry _ (Doc newly_translated_data)) =>
      let base :=
        match lang_file_at fs with
        | Some (Entry _ (Doc d)) => d
        | _ => []
        end in
      Val (Finished (dict_of_items (sorted_items (update base newly_translated_data))))
  end.

(** The end of a run of build_resource_pack: the result above, unless the
    run gets to the creation of the directory and that fails. *)
Definition build_resource_pack_run (w : World) : res outcome :=
  match build_resource_pack_result (fs w) with
  | Val (Finished t) => if obstructed w then Exc OSError else Val (Finished t)
  | r => r
  end.

(** [w'] comes after [w]: the log has grown, writes [J] were completed, and
    a disk without faults stays so. *)
Definition extends (w w' : World) (J : list (path * Dict)) : Prop :=
  logs w `prefix_of` logs w' ∧ (disk w = [] → disk w' = []) ∧
  journal w' = journal w ++ J.

(** ** A small instance *)

Module Sample.

Definition backlog3 : Dict :=
  [("k1", JStr "v1"); ("k2", JStr "v2"); ("k3", JStr "v3")].

(** Chunks of two entries, an hour between chunks. *)
Definition cfg2 : Config := MkConfig 2 3600 48 "sample pack".

Definition strftime0 (now : nat) : string := "251104".

(** A stand-in for a translation: every string value gets an exclamation
    mark. *)
Definition shout (d : Dict) : Dict :=
  (fun kv => (kv.1, match kv.2 with JStr s => JStr (s +:+ "!") | v => v end)) <$> d.

(** A collaborator that translates every chunk. *)
Definition steady (chunk : Dict) : cli_run :=
  Exited 0 (JsonText (Some (shout chunk))).

(** A collaborator that exits with code 1 on the chunk holding key [k] and
    translates the others. *)
Definition fails_on (k : string) (chunk : Dict) : cli_run :=
  if decide (k ∈ keys chunk) then Exited 1 NoJson else steady chunk.

(** A working directory whose newest backlog is [backlog3]. *)
Definition fs_backlog : FS :=
  MkFS ∅ {["251103" := Entry 7 (Doc backlog3)]} ∅ ∅ None None.

Definition world_backlog : World := MkWorld fs_backlog 10 [] [] [].

(** The same directory with the checkpoint of chunk 1 left behind by an
    interrupted run. *)
Definition checkpoint1 : Dict := [("k1", JStr "v1!"); ("k2", JStr "v2!")].

Definition world_interrupted : World :=
  MkWorld (MkFS ∅ {["251103" := Entry 7 (Doc backlog3)]} ∅
                {[1%Z := Entry 11 (Doc checkpoint1)]} None None)
          4000 [] [] [].

(** A working directory whose newest backlog is empty. *)
Definition world_idle : World :=
  MkWorld (MkFS ∅ {["251103" := Entry 7 (Doc [])]} ∅ ∅ None None) 10 [] [] [].

(** The state before the second stage: a first-stage difference, and a
    published table with one settled and one empty translation. *)
Definition all_diff0 : Dict :=
  [("a.x", JStr "Hello"); ("a.y", JStr "World"); ("a.z", JStr "Bye")].

Definition published0 : Dict := [("a.x", JStr "こんにちは"); ("a.y", JStr EmptyString)].

Definition world_diff : World :=
  MkWorld (MkFS {["251103" := Entry 5 (Doc all_diff0)]} ∅ ∅ ∅
                (Some (Entry 3 (Doc published0))) None)
          10 [] [] [].

(** The state before a publish: a translated batch and the published
    table of the example. *)
Definition translated0 : Dict := [("a.y", JStr "世界")].
Definition existing0 : Dict := [("a.x", JStr "こんにちは")].

Definition world_publish : World :=
  MkWorld (MkFS ∅ ∅ {["251103" := Entry 9 (Doc translated0)]} ∅
                (Some (Entry 3 (Doc existing0))) None)
          10 [] [] [].

(** The state before a publish that settles a key whose published
    translation was empty. *)
Definition pending0 : Dict := [("a.x", JStr EmptyString)].
Definition settled0 : Dict := [("a.x", JStr "やあ")].

Definition world_settle : World :=
  MkWorld (MkFS ∅ ∅ {["251103" := Entry 9 (Doc settled0)]} ∅
                (Some (Entry 3 (Doc pending0))) None)
          10 [] [] [].

End Sample.

(** A computation that leaves the backlog directory as it found it. *)
Definition keeps_backlog {A} (m : M A) : Prop :=
  ∀ w, untranslated_path (fs (after m w)) = untranslated_path (fs w).

(** ** Vocabulary of the further properties *)

(** A computation that leaves a part [proj] of the working directory as it
    found it. *)
Definition keeps {X A} (proj : FS → X) (m : M A) : Prop :=
  ∀ w, proj (fs (after m w)) = proj (fs w).

(** The working directory with every checkpoint removed. *)
Definition without_progress (fs : FS) : FS :=
  MkFS (lang_diff_path fs) (untranslated_path fs) (translated_path fs) ∅
       (lang_file_at fs) (pack_mcmeta_at fs).

(** ** Further small instances *)

Module More.

(** The backlog of [Sample] with the checkpoint of chunk 1 unreadable. *)
Definition world_corrupt : World :=
  MkWorld (MkFS ∅ {["251103" := Entry 7 (Doc Sample.backlog3)]} ∅
                {[1%Z := Entry 11 Garbage]} None None)
          4000 [] [] [].

(** The same backlog with the checkpoint of the last chunk left behind. *)
Definition checkpoint2 : Dict :=
  [("k1", JStr "v1!"); ("k2", JStr "v2!"); ("k3", JStr "v3!")].

Definition world_all_done : World :=
  MkWorld (MkFS ∅ {["251103" := Entry 7 (Doc Sample.backlog3)]} ∅
                {[2%Z := Entry 12 (Doc checkpoint2)]} None None)
          4500 [] [] [].

(** A working directory whose newest backlog does not parse. *)
Definition world_garbled : World :=
  MkWorld (MkFS ∅ {["251103" := Entry 7 Garbage]} ∅ ∅ None None) 10 [] [] [].

(** A collaborator that is down. *)
Definition down (chunk : Dict) : cli_run := SpawnFailed.

End More.

(** The number of apostrophes of a string. *)
Fixpoint apostrophes (s : string) : nat :=
  match s with
  | EmptyString => 0
  | String c s' => (if Ascii.eqb c apostrophe then 1 else 0) + apostrophes s'
  end.

(** The two dictionaries of the scan, without its log lines. *)
Definition collected (t : tables) : Dict * Dict := (all_en_us t, all_ja_jp t).

(** The member names the scan looks at. *)
Definition wanted (filename : string) : bool :=
  (endswith filename "en_us.json" || endswith filename "ja_jp.json") &&
  contains "assets" filename && contains "lang" filename.

(** The members that can have an effect: those with a wanted name that
    [json.load] does not reject. *)
Definition effective (member : string * payload) : bool :=
  wanted member.1 &&
  match member.2 with
  | Undecodable => false
  | _ => true
  end.


(** The archives that can be opened. *)
Definition readable (f : string * archive) : bool :=
  match f.2 with
  | Zip _ => true
  | _ => false
  end.

(** A folder without the archives that cannot be opened and, in the others,
    without the members that have no effect. *)
Definition cleaned (files : list (string * archive)) : list (string * archive) :=
  (fun f => (f.1, match f.2 with
                  | Zip members => Zip (List.filter effective members)
                  | zip => zip
                  end)) <$> List.filter readable files.

(** A table of escaped strings. *)
Definition escaped_table (d : Dict) : Prop :=
  dict_ok d ∧ ∀ k v, get k d = Some v → ∃ s, v = JStr (escape s).

(** Every file of a directory was last modified before time [c]. *)
Definition older_than (c : nat) (directory : gmap string entry) : Prop :=
  map_Forall (fun _ e => mtime e < c) directory.

(** No artifact of the working directory carries a modification time that
    the clock has not passed. *)
Definition timely (w : World) : Prop :=
  older_than (clock w) (lang_diff_path (fs w)) ∧
  older_than (clock w) (untranslated_path (fs w)) ∧
  older_than (clock w) (translated_path (fs w)).

(** A computation that never sets the clock back. *)
Definition advances {A} (m : M A) : Prop :=
  ∀ w, clock w ≤ clock (after m w).

(** The published table a stage starts from: the empty one when there is
    no language file or it does not parse. *)
Definition existing (w : World) : Dict :=
  match lang_file_at (fs w) with
  | Some (Entry _ (Doc d)) => d
  | _ => []
  end.





(** A working directory whose published language file does not parse,
    with a first-stage difference and a translated batch. *)
Definition world_broken_pack : World :=
  MkWorld (MkFS {["251103" := Entry 5 (Doc Sample.all_diff0)]} ∅
                {["251103" := Entry 6 (Doc Sample.translated0)]} ∅
                (Some (Entry 3 Garbage)) None)
          10 [] [] [].

(** A working directory with the translated artifact of an earlier run and
    a published table in which its value was edited afterwards. *)
Definition world_edited : World :=
  MkWorld (MkFS ∅ ∅ {["251101" := Entry 4 (Doc [("a.x", JStr "old machine text")])]} ∅
                (Some (Entry 8 (Doc [("a.x", JStr "manual edit")]))) None)
          10 [] [] [].
(** * Properties *)

(** ** Dictionaries *)

Section dict_facts.
Implicit Types (d a b : Dict) (k : string) (v : json).

Lemma get_None k d : get k d = None ↔ k ∉ keys d.
Proof.
  unfold keys. induction d as [|[k' v'] d IH]; simpl.
  - split; [intros _; apply not_elem_of_nil | done].
  - rewrite not_elem_of_cons. destruct (decide (k = k')) as [->|Hne].
    + split; [done | by intros [? _]].
    + rewrite IH. split; [done | by intros [_ ?]].
Qed.

Lemma get_is_Some k d : is_Some (get k d) ↔ k ∈ keys d.
Proof.
  rewrite <-not_eq_None_Some, get_None.
  destruct (decide (k ∈ keys d)); naive_solver.
Qed.

Lemma get_Some_elem k v d : get k d = Some v → (k, v) ∈ d.
Proof.
  induction d as [|[k' v'] d IH]; simpl; [done|].
  destruct (decide (k = k')) as [->|]; intros; simplify_eq.
  - apply list_elem_of_here.
  - apply list_elem_of_further; auto.
Qed.

Lemma elem_get_Some k v d : dict_ok d → (k, v) ∈ d → get k d = Some v.
Proof.
  unfold dict_ok, keys. induction d as [|[k' v'] d IH]; simpl.
  - intros _ H. by apply elem_of_nil in H.
  - rewrite NoDup_cons. intros [Hk Hd] [Heq|Hin]%elem_of_cons.
    + simplify_eq. by rewrite decide_True.
    + rewrite decide_False; [auto|]. intros ->. apply Hk.
      change k' with ((k', v).1). by apply list_elem_of_fmap_2.
Qed.

Lemma get_setitem k k' v d :
  get k (setitem k' v d) = if decide (k = k') then Some v else get k d.
Proof.
  induction d as [|[k0 v0] d IH]; simpl.
  - done.
  - destruct (decide (k' = k0)) as [->|]; simpl;
      repeat case_decide; simplify_eq; try done.
Qed.

Lemma keys_setitem k v d :
  keys (setitem k v d) = if decide (k ∈ keys d) then keys d else keys d ++ [k].
Proof.
  unfold keys. induction d as [|[k0 v0] d IH].
  - by rewrite decide_False by apply not_elem_of_nil.
  - cbn [setitem]. rewrite fmap_cons. cbn [fst].
    destruct (decide (k = k0)) as [->|Hne].
    + rewrite decide_True by apply list_elem_of_here. done.
    + rewrite fmap_cons, IH. cbn [fst]. destruct (decide (k ∈ d.*1)).
      * rewrite decide_True; [done | by apply list_elem_of_further].
      * rewrite decide_False; [done|]. rewrite not_elem_of_cons. done.
Qed.

Lemma setitem_fresh k v d : k ∉ keys d → setitem k v d = d ++ [(k, v)].
Proof.
  unfold keys. induction d as [|[k0 v0] d IH]; simpl; [done|].
  rewrite not_elem_of_cons. intros [Hne Hk].
  rewrite decide_False by done. by rewrite IH.
Qed.

Lemma elem_keys_setitem k k' v d :
  k ∈ keys (setitem k' v d) ↔ k = k' ∨ k ∈ keys d.
Proof.
  rewrite keys_setitem. case_decide.
  - naive_solver.
  - rewrite elem_of_app, list_elem_of_singleton. naive_solver.
Qed.

Lemma dict_ok_setitem k v d : dict_ok d → dict_ok (setitem k v d).
Proof.
  unfold dict_ok. rewrite keys_setitem. case_decide; [done|].
  intros Hd. apply NoDup_app. split_and!; [done| |apply NoDup_singleton].
  intros x Hx ->%list_elem_of_singleton. done.
Qed.

Lemma update_cons a kv b : update a (kv :: b) = update (setitem kv.1 kv.2 a) b.
Proof. done. Qed.

Lemma update_app a b1 b2 : update a (b1 ++ b2) = update (update a b1) b2.
Proof. unfold update. apply foldl_app. Qed.

Lemma elem_keys_update k a b : k ∈ keys (update a b) ↔ k ∈ keys a ∨ k ∈ keys b.
Proof.
  revert a. induction b as [|[k' v'] b IH]; intros a.
  - cbn. rewrite elem_of_nil. naive_solver.
  - rewrite update_cons, IH, elem_keys_setitem. cbn.
    rewrite elem_of_cons. naive_solver.
Qed.

Lemma dict_ok_update a b : dict_ok a → dict_ok (update a b).
Proof.
  revert a. induction b as [|[k' v'] b IH]; intros a Ha; [done|].
  rewrite update_cons. apply IH. by apply dict_ok_setitem.
Qed.

(** The entries of [b] reach the result; on a key that [b] holds twice
    the later entry wins, so [b] is taken to be a dictionary. *)
Lemma get_update k a b :
  dict_ok b →
  get k (update a b) = match get k b with Some v => Some v | None => get k a end.
Proof.
  unfold dict_ok, keys. revert a. induction b as [|[k' v'] b IH]; intros a Hb; [done|].
  simpl in Hb. apply NoDup_cons in Hb as [Hk Hb].
  rewrite update_cons, IH by done. simpl. rewrite get_setitem.
  destruct (decide (k = k')) as [->|]; [|done].
  apply get_None in Hk. by rewrite Hk.
Qed.

Lemma update_fresh a b :
  dict_ok (a ++ b) → update a b = a ++ b.
Proof.
  unfold dict_ok, keys. revert a. induction b as [|[k v] b IH]; intros a Hab.
  - by rewrite app_nil_r.
  - rewrite update_cons. simpl. rewrite setitem_fresh.
    + rewrite IH; [by rewrite <-app_assoc | by rewrite <-app_assoc].
    + rewrite fmap_app in Hab. apply NoDup_app in Hab as (_ & Hdisj & _).
      intros Hk. apply (Hdisj k Hk). simpl. apply list_elem_of_here.
Qed.

Lemma dict_of_items_id d : dict_ok d → dict_of_items d = d.
Proof. intros Hd. unfold dict_of_items. by rewrite update_fresh. Qed.

Lemma get_restrict_acc d acc ks k :
  get k (foldl (fun acc key =>
                  match get key d with
                  | Some v => setitem key v acc
                  | None => acc
                  end) acc ks)
  = if decide (k ∈ ks)
    then match get k d with Some v => Some v | None => get k acc end
    else get k acc.
Proof.
  revert acc. induction ks as [|k0 ks IH]; intros acc.
  - by rewrite decide_False by apply not_elem_of_nil.
  - cbn [foldl]. rewrite IH. destruct (decide (k ∈ ks)) as [Hin|Hnin].
    + rewrite decide_True by (by apply list_elem_of_further).
      destruct (get k d) eqn:Hk; [done|].
      destruct (get k0 d) eqn:Hk0; [|done].
      rewrite get_setitem. case_decide; [simplify_eq | done].
    + destruct (decide (k = k0)) as [->|Hne].
      * rewrite decide_True by apply list_elem_of_here.
        destruct (get k0 d); [|done]. rewrite get_setitem. by rewrite decide_True.
      * rewrite decide_False by (rewrite not_elem_of_cons; done).
        destruct (get k0 d); [|done]. rewrite get_setitem. by rewrite decide_False.
Qed.

Lemma get_restrict d ks k :
  get k (restrict d ks) = if decide (k ∈ ks) then get k d else None.
Proof.
  unfold restrict. rewrite get_restrict_acc. case_decide; [|done].
  by destruct (get k d).
Qed.

Lemma restrict_nil d : restrict d [] = [].
Proof. done. Qed.

Lemma elem_sorted k (ks : list string) : k ∈ sorted ks ↔ k ∈ ks.
Proof. unfold sorted. by rewrite merge_sort_Permutation. Qed.

End dict_facts.

(** ** The two differences *)

Lemma lang_diff_get a b k :
  get k (lang_diff a b) = if decide (k ∈ keys b) then None else get k a.
Proof.
  unfold lang_diff. rewrite get_restrict.
  destruct (decide (k ∈ sorted _)) as [Hin|Hnin].
  - apply elem_sorted, elem_of_elements, elem_of_difference in Hin as [_ Hb].
    rewrite elem_of_list_to_set in Hb. by rewrite decide_False.
  - rewrite elem_sorted, elem_of_elements, elem_of_difference,
      !elem_of_list_to_set in Hnin.
    case_decide; [done|]. symmetry. apply get_None. intros Ha. apply Hnin. done.
Qed.

Lemma already_translated k (translated : Dict) :
  dict_ok translated →
  k ∈ (filter (fun kv => truthy kv.2 = true) translated).*1 ↔
  ∃ v, get k translated = Some v ∧ truthy v = true.
Proof.
  intros Hok. rewrite list_elem_of_fmap. split.
  - intros [[k' v] [-> [Hv Hin]%list_elem_of_filter]]. exists v. split; [|done].
    by apply elem_get_Some.
  - intros [v [Hget Hv]]. exists (k, v). split; [done|].
    apply list_elem_of_filter. split; [done|]. by apply get_Some_elem.
Qed.

Lemma untranslated_of_get a b k :
  dict_ok b →
  get k (untranslated_of a b)
  = match get k b with
    | Some v' => if truthy v' then None else get k a
    | None => get k a
    end.
Proof.
  intros Hok. unfold untranslated_of. rewrite get_restrict.
  destruct (decide (k ∈ sorted _)) as [Hin|Hnin].
  - apply elem_sorted, elem_of_elements, elem_of_difference in Hin as [_ Hb].
    rewrite elem_of_list_to_set, already_translated in Hb by done.
    destruct (get k b) as [v'|]; [|done].
    destruct (truthy v') eqn:Hv; [|done]. exfalso. apply Hb. eauto.
  - rewrite elem_sorted, elem_of_elements, elem_of_difference,
      !elem_of_list_to_set, already_translated in Hnin by done.
    destruct (get k a) as [v|] eqn:Ha; [|by repeat case_match].
    assert (k ∈ keys a) as Hka by (apply get_is_Some; eauto).
    destruct (get k b) as [v'|]; [|exfalso; apply Hnin; split; [done|]; by intros (? & ? & ?)].
    destruct (truthy v') eqn:Hv; [done|].
    exfalso. apply Hnin. split; [done|]. intros (? & ? & ?). congruence.
Qed.

Lemma untranslated_of_contract a b : dict_ok b → diff_contract untranslated_of a b.
Proof.
  intros Hok k v. rewrite untranslated_of_get by done.
  destruct (get k b) as [v'|]; [destruct (truthy v') eqn:Hv|].
  - split; [done|]. intros [_ [?|(? & ? & ?)]]; congruence.
  - split; [|by intros [? _]]. intros Ha. split; [done|]. right. eauto.
  - split; [|by intros [? _]]. intros Ha. split; [done|]. by left.
Qed.

Lemma lang_diff_contract a b k v :
  get k (lang_diff a b) = Some v ↔ get k a = Some v ∧ get k b = None.
Proof.
  rewrite lang_diff_get, get_None. case_decide; naive_solver.
Qed.

Lemma lang_diff_update a b : lang_diff a (update a b) = [].
Proof.
  unfold lang_diff.
  assert (list_to_set (keys a) ∖ list_to_set (keys (update a b)) = (∅ : gset string)) as ->.
  { apply set_eq. intros k.
    rewrite elem_of_difference, !elem_of_list_to_set, elem_keys_update. set_solver. }
  by rewrite elements_empty.
Qed.

Lemma untranslated_of_nil a b :
  (∀ k, k ∈ keys a → ∃ v, (k, v) ∈ b ∧ truthy v = true) →
  untranslated_of a b = [].
Proof.
  intros Hcov. unfold untranslated_of.
  match goal with |- restrict _ (sorted (elements ?X)) = _ =>
    assert (X = ∅) as -> end.
  { apply set_eq. intros k.
    rewrite elem_of_difference, !elem_of_list_to_set, list_elem_of_fmap.
    split; [|set_solver]. intros [Ha Hb]. exfalso. apply Hb.
    destruct (Hcov k Ha) as (v & Hin & Hv). exists (k, v). split; [done|].
    by apply list_elem_of_filter. }
  by rewrite elements_empty.
Qed.

(** ** Chunking *)

Section chunk_facts.
Variables (stop step : nat).
Hypothesis step_pos : 0 < step.

Lemma range_up_length fuel i :
  stop - i ≤ fuel →
  stop - i ≤ length (range_up fuel i stop step) * step ∧
  length (range_up fuel i stop step) * step < stop - i + step.
Proof.
  revert i. induction fuel as [|fuel IH]; intros i Hfuel; cbn [range_up].
  - cbn. lia.
  - case_decide as Hi; [|cbn; lia].
    destruct (IH (i + step)) as [IH1 IH2]; [lia|]. cbn [length].
    destruct (length (range_up fuel (i + step) stop step)) as [|c]; [lia|].
    rewrite !Nat.mul_succ_l in *. lia.
Qed.

Lemma range_up_lookup fuel i j :
  j < length (range_up fuel i stop step) →
  range_up fuel i stop step !! j = Some (i + j * step).
Proof.
  revert i j. induction fuel as [|fuel IH]; intros i j; cbn [range_up].
  - cbn. lia.
  - case_decide as Hi; [|cbn; lia].
    destruct j as [|j]; cbn [length lookup list_lookup].
    + intros _. f_equal. lia.
    + intros Hj. rewrite IH by lia. f_equal. lia.
Qed.

Lemma range_up_concat {A} (l : list A) fuel i :
  stop = length l → stop - i ≤ fuel →
  concat ((fun s => slice l s (s + step)) <$> range_up fuel i stop step) = drop i l.
Proof.
  intros ->. revert i. induction fuel as [|fuel IH]; intros i Hfuel; cbn [range_up].
  - cbn. rewrite drop_ge by lia. done.
  - case_decide as Hi; [|cbn; by rewrite drop_ge by lia].
    rewrite fmap_cons. cbn [concat]. rewrite IH by lia.
    unfold slice. replace (i + step - i) with step by lia.
    rewrite <-(take_drop step (drop i l)) at 2. by rewrite drop_drop.
Qed.
End chunk_facts.

Lemma dict_ok_slice (d : Dict) i j : dict_ok d → dict_ok (slice d i j).
Proof.
  unfold dict_ok, keys, slice. rewrite fmap_take, fmap_drop. intros Hd.
  apply (sublist_NoDup _ d.*1); [done|].
  trans (drop i d.*1); [apply sublist_take | apply sublist_drop].
Qed.

(** The number of chunks is the ceiling of [len / n]: the least [c] with
    [len <= c * n]. *)
Lemma ceil_div_unique (len n c : nat) :
  0 < n → len ≤ c * n → c * n < len + n →
  Z.of_nat c = ((Z.of_nat len + Z.of_nat n - 1) / Z.of_nat n)%Z.
Proof.
  intros Hn H1 H2.
  apply (Z.div_unique_pos _ _ _ (Z.of_nat len + Z.of_nat n - 1 - Z.of_nat c * Z.of_nat n)%Z); nia.
Qed.

Lemma chunks_of_spec (n : nat) (data : Dict) :
  0 < n → dict_ok data →
  ∃ chunks,
    chunks_of (Z.of_nat n) data = Some chunks ∧
    Z.of_nat (length chunks) = ((Z.of_nat (length data) + Z.of_nat n - 1) / Z.of_nat n)%Z ∧
    (∀ j, j < length chunks → chunks !! j = Some (slice data (j * n) (j * n + n))) ∧
    concat chunks = data.
Proof.
  intros Hn Hok. unfold chunks_of, py_range.
  rewrite decide_False by lia. rewrite decide_False by lia.
  rewrite Nat2Z.id. eexists. split; [done|].
  pose proof (range_up_length (length data) n Hn (length data) 0 ltac:(lia)) as [H1 H2].
  rewrite Nat.sub_0_r in H1, H2.
  split_and!.
  - rewrite length_fmap. by apply ceil_div_unique.
  - intros j. rewrite length_fmap. intros Hj.
    rewrite list_lookup_fmap, range_up_lookup by done. cbn.
    rewrite dict_of_items_id; [done | by apply dict_ok_slice].
  - erewrite list_fmap_ext; [apply (range_up_concat (length data) n Hn data); [done|lia]|].
    intros ? s ?. cbn. apply dict_of_items_id. by apply dict_ok_slice.
Qed.

(** ** Sorting by key *)

Lemma sorted_items_perm (d : Dict) : sorted_items d ≡ₚ d.
Proof. apply merge_sort_Permutation. Qed.

Lemma dict_ok_perm (d d' : Dict) : d ≡ₚ d' → dict_ok d → dict_ok d'.
Proof. unfold dict_ok, keys. by intros ->. Qed.

Lemma get_perm (d d' : Dict) k : dict_ok d → d ≡ₚ d' → get k d = get k d'.
Proof.
  intros Hok Hperm. assert (dict_ok d') as Hok' by by eapply dict_ok_perm.
  destruct (get k d) as [v|] eqn:Hd.
  - symmetry. apply elem_get_Some; [done|]. rewrite <-Hperm. by apply get_Some_elem.
  - symmetry. apply get_None. apply get_None in Hd. unfold keys. by rewrite <-Hperm.
Qed.

Lemma sorted_items_keys (d : Dict) : StronglySorted String.le (keys (sorted_items d)).
Proof.
  unfold keys, sorted_items.
  apply (StronglySorted_fmap _ item_le); [by intros x y|].
  apply StronglySorted_merge_sort; apply _.
Qed.

(** What the publisher writes: [dict(sorted(base.items()))] of a dictionary
    is the same map, with its keys ascending. *)
Lemma publish_sorted (d : Dict) :
  dict_ok d →
  let final := dict_of_items (sorted_items d) in
  final = sorted_items d ∧ dict_ok final ∧
  StronglySorted String.le (keys final) ∧
  (∀ k, get k final = get k d) ∧ (∀ k, k ∈ keys final ↔ k ∈ keys d).
Proof.
  intros Hok final.
  assert (dict_ok (sorted_items d)) as Hs.
  { eapply dict_ok_perm; [symmetry; apply sorted_items_perm | done]. }
  assert (final = sorted_items d) as Heq by by apply dict_of_items_id.
  rewrite Heq. split_and!; [done|done|apply sorted_items_keys| |].
  - intros k. symmetry. apply get_perm; [done|]. symmetry. apply sorted_items_perm.
  - intros k. unfold keys. by rewrite sorted_items_perm.
Qed.

(** ** The monad *)

Lemma bind_val {A B} (m : M A) (f : A → M B) w a w' :
  m w = (Val a, w') → (m ≫= f) w = f a w'.
Proof. unfold mbind, M_bind. by intros ->. Qed.

Lemma bind_exc {A B} (m : M A) (f : A → M B) w e w' :
  m w = (Exc e, w') → (m ≫= f) w = (Exc e, w').
Proof. unfold mbind, M_bind. by intros ->. Qed.

Lemma bind_bind {A B C} (m : M A) (g : A → M B) (f : B → M C) w :
  ((m ≫= g) ≫= f) w = (m ≫= fun x => g x ≫= f) w.
Proof. unfold mbind, M_bind. by destruct (m w) as [[a|e] w']. Qed.

Lemma log_eq l m w : log l m w = (Val (), with_logs [(l, m)] w).
Proof. done. Qed.

Lemma with_logs_app L1 L2 w : with_logs L2 (with_logs L1 w) = with_logs (L1 ++ L2) w.
Proof. unfold with_logs. cbn. by rewrite app_assoc. Qed.

Lemma with_logs_nil w : with_logs [] w = w.
Proof. destruct w. unfold with_logs. cbn. by rewrite app_nil_r. Qed.

Lemma mret_eq {A} (a : A) w : (mret a : M A) w = (Val a, w).
Proof. done. Qed.

(** Steps through [log] and [mret] at the head of a computation. *)
Ltac mlog :=
  repeat first
    [ rewrite bind_bind
    | rewrite (bind_val (log _ _) _ _ _ _ (log_eq _ _ _))
    | rewrite (bind_val (mret _) _ _ _ _ (mret_eq _ _))
    | rewrite with_logs_app ].

Section processor_facts.
Variable cfg : Config.
Variable gemini : Dict → cli_run.
Variable strftime : nat → string.

(** *** _save_json *)

Lemma _save_json_spec data p w :
  ∃ w', _save_json data p w = (Val (), w') ∧
    clock w' = S (clock w) ∧ disk w' = tail (disk w) ∧
    match head (disk w) with
    | None | Some Written =>
        fs w' = store p (Entry (clock w) (Doc data)) (fs w) ∧
        logs w' = logs w ++ [(INFO, Saved p)] ∧
        journal w' = journal w ++ [(p, data)]
    | Some Refused =>
        fs w' = fs w ∧
        logs w' = logs w ++ [(ERROR, SaveFailed p)] ∧
        journal w' = journal w
    | Some Torn =>
        fs w' = store p (Entry (clock w) Garbage) (fs w) ∧
        logs w' = logs w ++ [(ERROR, SaveFailed p)] ∧
        journal w' = journal w
    end.
Proof.
  unfold _save_json, try_except, write_json, mbind, M_bind.
  destruct (disk w) as [|[] rest] eqn:Hd; cbn; rewrite ?Hd; eauto 10.
Qed.

(** *** _call_gemini_cli *)

Lemma _call_gemini_cli_spec chunk w :
  ∃ L, _call_gemini_cli gemini chunk w
       = (match gemini chunk with
          | SpawnFailed => Exc OSError
          | Exited returncode stdout =>
              if (returncode =? 0)%Z then Val (merged gemini chunk)
              else Exc RuntimeError
          end, with_logs L w).
Proof.
  unfold _call_gemini_cli, merged, answer, with_logs.
  unfold try_except, mbind, M_bind, mret, M_ret, raise, log.
  destruct (gemini chunk) as [|rc [|[t|]]]; cbn;
    try destruct (rc =? 0)%Z; cbn; rewrite <-?app_assoc; eauto.
Qed.

(** *** The loop *)

Lemma extends_refl w : extends w w [].
Proof. split_and!; [done|done|by rewrite app_nil_r]. Qed.

Lemma extends_trans w w1 w2 J1 J2 :
  extends w w1 J1 → extends w1 w2 J2 → extends w w2 (J1 ++ J2).
Proof.
  intros (Hl1 & Hd1 & Hj1) (Hl2 & Hd2 & Hj2).
  split_and!; [by etrans | auto | by rewrite Hj2, Hj1, app_assoc].
Qed.

Lemma extends_logs L w : extends w (with_logs L w) [].
Proof. split_and!; [by exists L | done | by rewrite app_nil_r]. Qed.

Lemma extends_nil w w1 w2 J :
  extends w w1 [] → extends w1 w2 J → extends w w2 J.
Proof. intros H1 H2. apply (extends_trans _ _ _ [] J H1 H2). Qed.

Lemma extends_nil_r w w1 w2 J :
  extends w w1 J → extends w1 w2 [] → extends w w2 J.
Proof.
  intros H1 H2. rewrite <-(app_nil_r J). apply (extends_trans _ _ _ J [] H1 H2).
Qed.

Lemma _save_json_extends data p w :
  ∃ w' J, _save_json data p w = (Val (), w') ∧ extends w w' J ∧
    (∀ e, e ∈ J → e = (p, data)) ∧
    (disk w = [] → fs w' = store p (Entry (clock w) (Doc data)) (fs w)).
Proof.
  destruct (_save_json_spec data p w) as (w' & Hrun & _ & Hd & Hw).
  exists w'. unfold extends.
  destruct (disk w) as [|[] rest] eqn:Hdisk; cbn in Hw, Hd;
    destruct Hw as (Hfs & Hl & Hj); rewrite Hl, Hj.
  1,2: exists [(p, data)]; split_and!;
         [done | by eexists | done | done
         | by intros ? ->%list_elem_of_singleton | done].
  all: exists []; split_and!;
         [done | by eexists | done | by rewrite app_nil_r
         | by intros ? ?%elem_of_nil | done].
Qed.

Lemma process_chunk_spec n i chunk td w :
  ∃ w' J, process_chunk cfg gemini n i chunk td w
          = (Val (merge_chunk gemini td chunk), w') ∧
    extends w w' J ∧
    ∀ e, e ∈ J → e = (progress_file i, merge_chunk gemini td chunk).
Proof.
  unfold process_chunk. mlog. unfold try_except.
  destruct (_call_gemini_cli_spec chunk (with_logs [(INFO, ProcessingChunk i n)] w))
    as [L Hcall].
  rewrite with_logs_app in Hcall.
  assert (merge_chunk gemini td chunk = update td chunk ∨
          ∃ rc out, gemini chunk = Exited rc out ∧ (rc =? 0)%Z = true) as Hcases.
  { unfold merge_chunk, merged, answer.
    destruct (gemini chunk) as [|rc [|[t|]]]; eauto.
    destruct (rc =? 0)%Z eqn:?; eauto. }
  destruct (gemini chunk) as [|rc out] eqn:Hg.
  - rewrite (bind_exc _ _ _ _ _ Hcall). mlog. cbn.
    destruct Hcases as [->|(? & ? & ? & ?)]; [|done].
    eexists _, []. split; [done|]. split; [apply extends_logs|].
    by intros ? ?%elem_of_nil.
  - destruct (rc =? 0)%Z eqn:Hrc.
    + rewrite (bind_val _ _ _ _ _ Hcall).
      destruct (_save_json_extends (update td (merged gemini chunk)) (progress_file i)
                  (with_logs ([(INFO, ProcessingChunk i n)] ++ L) w))
        as (w1 & J & Hsave & Hext & HJ & _).
      rewrite (bind_val _ _ _ _ _ Hsave).
      pose proof (extends_nil _ _ _ _ (extends_logs _ w) Hext) as Hext1.
      case_decide.
      * mlog. unfold sleep. cbn. eexists _, J. split; [done|]. split; [|done].
        eapply extends_nil_r; [apply Hext1|].
        destruct w1. split_and!; cbn; [by eexists | done | by rewrite app_nil_r].
      * cbn. eexists _, J. split; [done|]. split; done.
    + rewrite (bind_exc _ _ _ _ _ Hcall). mlog. cbn.
      destruct Hcases as [->|(? & ? & ? & ?)]; [|congruence].
      eexists _, []. split; [done|]. split; [apply extends_logs|].
      by intros ? ?%elem_of_nil.
Qed.

(** When the call raises, the handler merges the chunk and the body ends:
    the log grows, nothing is written and there is no wait. *)
Lemma process_chunk_raise n i chunk td w :
  raises (gemini chunk) = true →
  ∃ L, process_chunk cfg gemini n i chunk td w
       = (Val (update td chunk), with_logs L w).
Proof.
  intros Hraise. unfold process_chunk. mlog. unfold try_except.
  destruct (_call_gemini_cli_spec chunk (with_logs [(INFO, ProcessingChunk i n)] w))
    as [L Hcall].
  rewrite with_logs_app in Hcall. unfold raises in Hraise.
  destruct (gemini chunk) as [|rc out].
  - rewrite (bind_exc _ _ _ _ _ Hcall). mlog. rewrite mret_eq. eauto.
  - apply negb_true_iff in Hraise. rewrite Hraise in Hcall.
    rewrite (bind_exc _ _ _ _ _ Hcall). mlog. rewrite mret_eq. eauto.
Qed.

Lemma translate_loop_spec chunks : ∀ n s i td w,
  ∃ w' J, translate_loop cfg gemini n s i chunks td w
        = (Val (foldl (merge_chunk gemini) td (drop (Z.to_nat (s - i)) chunks)), w') ∧
    extends w w' J ∧
    ((s ≤ i)%Z → ∀ p d, (p, d) ∈ J →
       ∃ m, p = progress_file (i + Z.of_nat m) ∧ m < length chunks ∧
            d = foldl (merge_chunk gemini) td (take (S m) chunks)).
Proof.
  induction chunks as [|chunk rest IH]; intros n s i td w; cbn [translate_loop].
  - exists w, []. rewrite drop_nil. split; [done|]. split; [apply extends_refl|].
    by intros _ ? ? ?%elem_of_nil.
  - case_decide as Hi.
    + destruct (IH n s (i + 1)%Z td w) as (w' & J & Hrun & Hext & _).
      exists w', J. split; [|split; [done|lia]].
      rewrite Hrun. do 3 f_equal.
      replace (Z.to_nat (s - i)) with (S (Z.to_nat (s - (i + 1)))) by lia. done.
    + destruct (process_chunk_spec n i chunk td w) as (w1 & J1 & Hstep & Hext1 & HJ1).
      destruct (IH n s (i + 1)%Z (merge_chunk gemini td chunk) w1)
        as (w' & J2 & Hrun & Hext2 & HJ2).
      exists w', (J1 ++ J2). rewrite (bind_val _ _ _ _ _ Hstep), Hrun.
      replace (Z.to_nat (s - i)) with 0 by lia.
      replace (Z.to_nat (s - (i + 1))) with 0 by lia.
      split; [done|]. split; [by eapply extends_trans|].
      intros Hsi p d [Hin|Hin]%elem_of_app.
      * apply HJ1 in Hin. simplify_eq. exists 0. split; [f_equal; lia|].
        split; [cbn; lia | done].
      * destruct (HJ2 ltac:(lia) p d Hin) as (m & -> & Hm & ->).
        exists (S m). split; [f_equal; lia|]. split; [cbn; lia | done].
Qed.

(** *** _cleanup_progress_files *)

Lemma unlink_loop (ks : list Z) : ∀ w0,
  ∃ r w' L,
    for_each ks (fun i => unlink i;; log INFO (ProgressDeleted (progress_file i))) w0
    = (r, w') ∧
    logs w' = logs w0 ++ L ∧ clock w' = clock w0 ∧ journal w' = journal w0 ∧
    without_progress (fs w') = without_progress (fs w0) ∧
    progress_path (fs w') ⊆ progress_path (fs w0) ∧
    Forall (fun e => ∃ p, e = (INFO, ProgressDeleted p)) L ∧
    (disk w0 = [] → disk w' = [] ∧ r = Val ()) ∧
    (r = Val () → ∀ i, i ∈ ks → progress_path (fs w') !! i = None).
Proof.
  induction ks as [|i ks IH]; intros w0; cbn [for_each].
  - exists (Val ()), w0, []. rewrite app_nil_r. split_and!; try done.
    intros _ i ?%elem_of_nil. done.
  - set (w1 := MkWorld (unlink_progress i (fs w0)) (clock w0)
                       (logs w0 ++ [(INFO, ProgressDeleted (progress_file i))])
                       (tail (disk w0)) (journal w0)).
    assert (∀ r w' L,
      for_each ks (fun i => unlink i;; log INFO (ProgressDeleted (progress_file i))) w1
      = (r, w') →
      logs w' = logs w1 ++ L ∧ clock w' = clock w1 ∧ journal w' = journal w1 ∧
      without_progress (fs w') = without_progress (fs w1) ∧
      progress_path (fs w') ⊆ progress_path (fs w1) ∧
      Forall (fun e => ∃ p, e = (INFO, ProgressDeleted p)) L ∧
      (disk w1 = [] → disk w' = [] ∧ r = Val ()) ∧
      (r = Val () → ∀ i, i ∈ ks → progress_path (fs w') !! i = None) →
      logs w' = logs w0 ++ (INFO, ProgressDeleted (progress_file i)) :: L ∧
      clock w' = clock w0 ∧ journal w' = journal w0 ∧
      without_progress (fs w') = without_progress (fs w0) ∧
      progress_path (fs w') ⊆ progress_path (fs w0) ∧
      Forall (fun e => ∃ p, e = (INFO, ProgressDeleted p))
             ((INFO, ProgressDeleted (progress_file i)) :: L) ∧
      (r = Val () → ∀ j, j ∈ i :: ks → progress_path (fs w') !! j = None)) as Hstep.
    { intros r w' L _ (Hl & Hc & Hj & Hwp & Hsub & HL & _ & Hdel).
      split_and!; try done.
      - rewrite Hl. cbn. by rewrite <-app_assoc.
      - etrans; [exact Hsub|]. cbn. apply delete_subseteq.
      - constructor; [by eexists | done].
      - intros Hr j [->|Hj']%elem_of_cons; [|by apply Hdel].
        eapply lookup_weaken_None; [|exact Hsub]. cbn. apply lookup_delete_eq. }
    destruct (IH w1) as (r & w' & L & Hrun & Hrest).
    pose proof (Hstep r w' L Hrun Hrest) as (Hl & Hc & Hj & Hwp & Hsub & HL & Hdel).
    destruct (disk w0) as [|[] rest] eqn:Hd.
    + exists r, w', ((INFO, ProgressDeleted (progress_file i)) :: L).
      split; [|split_and!; try done].
      * unfold mbind at 1, M_bind at 1. unfold mbind at 1, M_bind at 1.
        unfold unlink, log. rewrite Hd. cbn. exact Hrun.
      * intros _. destruct Hrest as (_ & _ & _ & _ & _ & _ & Hd1 & _).
        by apply Hd1.
    + exists r, w', ((INFO, ProgressDeleted (progress_file i)) :: L).
      split; [|split_and!; try done].
      unfold mbind at 1, M_bind at 1. unfold mbind at 1, M_bind at 1.
      unfold unlink, log. rewrite Hd. cbn. exact Hrun.
    + exists (Exc OSError), (MkWorld (fs w0) (clock w0) (logs w0) rest (journal w0)), [].
      split; [|split_and!; try done].
      * unfold mbind at 1, M_bind at 1. unfold mbind at 1, M_bind at 1.
        unfold unlink. by rewrite Hd.
      * cbn. by rewrite app_nil_r.
    + exists (Exc OSError), (MkWorld (fs w0) (clock w0) (logs w0) rest (journal w0)), [].
      split; [|split_and!; try done].
      * unfold mbind at 1, M_bind at 1. unfold mbind at 1, M_bind at 1.
        unfold unlink. by rewrite Hd.
      * cbn. by rewrite app_nil_r.
Qed.

(** The run of _cleanup_progress_files: it returns normally; it removes
    checkpoints only; unless it logs the warning of its handler, it removes
    them all; and on a disk without faults it does not log the warning. *)
Lemma _cleanup_progress_files_general w :
  ∃ w' L, _cleanup_progress_files w = (Val (), w') ∧
    logs w' = logs w ++ L ∧ clock w' = clock w ∧ journal w' = journal w ∧
    without_progress (fs w') = without_progress (fs w) ∧
    progress_path (fs w') ⊆ progress_path (fs w) ∧
    Forall (fun e => e = (INFO, CleaningUp) ∨ (∃ p, e = (INFO, ProgressDeleted p)) ∨
                     ∃ x, e = (WARNING, CleanupFailed x)) L ∧
    (disk w = [] → disk w' = []) ∧
    ((∀ x, (WARNING, CleanupFailed x) ∉ L) → progress_path (fs w') = ∅) ∧
    (disk w = [] → ∀ x, (WARNING, CleanupFailed x) ∉ L).
Proof.
  unfold _cleanup_progress_files, try_except.
  destruct ((map_to_list (progress_path (fs w))).*1) as [|j ks] eqn:Hkeys.
  - exists w, []. rewrite app_nil_r. split_and!; try done.
    + intros _. apply map_to_list_empty_iff. by apply fmap_nil_inv in Hkeys.
    + intros _ x ?%elem_of_nil. done.
  - rewrite (bind_val (log _ _) _ _ _ _ (log_eq _ _ _)).
    destruct (unlink_loop (j :: ks) (with_logs [(INFO, CleaningUp)] w))
      as (r & w' & L & -> & Hl & Hc & Hj & Hwp & Hsub & HL & Hd & Hdel).
    cbn [with_logs logs clock journal fs disk] in *.
    assert (Forall (fun e => e = (INFO, CleaningUp) ∨
                             (∃ p, e = (INFO, ProgressDeleted p)) ∨
                             ∃ x, e = (WARNING, CleanupFailed x)) L) as HL'.
    { eapply Forall_impl; [exact HL|]. naive_solver. }
    assert (∀ x, (WARNING, CleanupFailed x) ∉ (INFO, CleaningUp) :: L) as Hquiet.
    { intros x [?|Hin]%elem_of_cons; [done|].
      rewrite Forall_forall in HL. by destruct (HL _ Hin). }
    destruct r as [[]|e].
    + exists w', ((INFO, CleaningUp) :: L). split; [done|].
      split; [rewrite Hl; by rewrite <-app_assoc|].
      split; [done|]. split; [done|]. split; [done|]. split; [done|].
      split; [constructor; [by left | done]|].
      split; [intros Hw; by destruct (Hd Hw)|].
      split; [|by intros _].
      intros _. apply map_eq. intros i. rewrite lookup_empty.
      destruct (progress_path (fs w) !! i) as [e|] eqn:Hi.
      * apply Hdel; [done|]. rewrite <-Hkeys. apply list_elem_of_fmap.
        exists (i, e). split; [done|]. by apply elem_of_map_to_list.
      * by eapply lookup_weaken_None.
    + exists (with_logs [(WARNING, CleanupFailed e)] w'),
        ((INFO, CleaningUp) :: L ++ [(WARNING, CleanupFailed e)]).
      split; [done|]. cbn [with_logs logs clock journal fs disk].
      split; [rewrite Hl; by rewrite <-!app_assoc|].
      split; [done|]. split; [done|]. split; [done|]. split; [done|].
      split.
      { constructor; [by left|]. apply Forall_app. split; [done|].
        constructor; [|done]. right. right. by eexists. }
      split; [intros Hw; by destruct (Hd Hw)|].
      split.
      * intros Hno. exfalso. apply (Hno e).
        apply list_elem_of_further, elem_of_app. right. apply list_elem_of_here.
      * intros Hw. by destruct (Hd Hw).
Qed.

Lemma _cleanup_progress_files_spec w :
  ∃ w', _cleanup_progress_files w = (Val (), w') ∧ extends w w' [] ∧
    translated_path (fs w') = translated_path (fs w).
Proof.
  destruct (_cleanup_progress_files_general w)
    as (w' & L & Hrun & Hl & _ & Hj & Hwp & _ & _ & Hd & _).
  exists w'. split; [done|]. split.
  - split_and!; [by exists L | done | by rewrite app_nil_r].
  - by injection Hwp.
Qed.

(** *** Reading files *)

Lemma py_max_elem {A} (key : A → nat) (xs : list A) x :
  py_max key xs = Some x → x ∈ xs.
Proof.
  unfold py_max.
  assert (∀ best, foldl (fun best x =>
             match best with
             | None => Some x
             | Some b => if decide (key b < key x) then Some x else Some b
             end) best xs = Some x → best = Some x ∨ x ∈ xs) as Hgen.
  { induction xs as [|y xs IH]; intros best; cbn [foldl].
    - by left.
    - intros [Hb|Hin]%IH; [|right; by apply list_elem_of_further].
      destruct best as [b|]; [case_decide|]; simplify_eq;
        [right; apply list_elem_of_here | by left | right; apply list_elem_of_here]. }
  intros [?|?]%Hgen; done.
Qed.

Lemma _get_latest_file_spec (directory : FS → gmap string entry) name w :
  _get_latest_file directory name w
  = (Val ((fun f => name f.1) <$> latest (directory (fs w))), w).
Proof.
  unfold _get_latest_file, latest.
  by destruct (map_to_list (directory (fs w))).
Qed.

Lemma latest_lookup (directory : gmap string entry) f :
  latest directory = Some f → directory !! f.1 = Some f.2.
Proof.
  intros Hf%py_max_elem. destruct f as [nm e]. by apply elem_of_map_to_list.
Qed.

Lemma _load_json_spec p w :
  ∃ L, _load_json p w
       = (Val (match stat p (fs w) with
               | Some (Entry _ (Doc d)) => Some d
               | _ => None
               end), with_logs L w) ∧
       (L = [] ∨ ∃ m, L = [(ERROR, m)]).
Proof.
  unfold _load_json. destruct (stat p (fs w)) as [[? [|d]]|].
  - mlog. eauto.
  - exists []. rewrite with_logs_nil. eauto.
  - mlog. eauto.
Qed.

Lemma date_str_eq w : date_str strftime w = (Val (strftime (clock w)), w).
Proof. done. Qed.

Lemma exists_eq p w : exists_ p w = (Val (bool_decide (is_Some (stat p (fs w)))), w).
Proof. done. Qed.

Lemma resume_from_spec resume w :
  ∃ L, resume_from resume w = (Val (resume_point resume (fs w)), with_logs L w).
Proof.
  unfold resume_from, resume_point. destruct resume as [r|].
  - case_decide.
    + rewrite (bind_val _ _ _ _ _ (exists_eq _ _)). cbn [stat].
      destruct (progress_path (fs w) !! (r - 1)%Z) as [[m c]|] eqn:Hp.
      * rewrite bool_decide_true by eauto. mlog.
        destruct (_load_json_spec (progress_file (r - 1))
                    (with_logs [(INFO, LoadingProgress (progress_file (r - 1)))] w))
          as (L & Hload & _).
        rewrite (bind_val _ _ _ _ _ Hload). cbn [stat with_logs fs]. rewrite Hp.
        mlog. rewrite mret_eq. exists ([(INFO, LoadingProgress (progress_file (r - 1)))] ++ L ++ [(INFO, ResumingFrom r)]).
        rewrite <-?app_assoc. by destruct c.
      * rewrite bool_decide_false by (by intros [? ?]). mlog. rewrite mret_eq. eauto.
    + exists []. by rewrite with_logs_nil.
  - exists []. by rewrite with_logs_nil.
Qed.

(** *** What the translation stage leaves untouched *)

Lemma keeps_bind {A B} (m : M A) (f : A → M B) :
  keeps_backlog m → (∀ a, keeps_backlog (f a)) → keeps_backlog (m ≫= f).
Proof.
  intros Hm Hf w. unfold after, mbind, M_bind. specialize (Hm w). unfold after in Hm.
  destruct (m w) as [[a|e] w1]; cbn [snd] in *; [|done].
  rewrite <-Hm. apply Hf.
Qed.

Lemma keeps_try {A} (body : M A) (handler : exn → M A) :
  keeps_backlog body → (∀ e, keeps_backlog (handler e)) →
  keeps_backlog (try_except body handler).
Proof.
  intros Hm Hh w. unfold after, try_except. specialize (Hm w). unfold after in Hm.
  destruct (body w) as [[a|e] w1]; cbn [snd] in *; [done|].
  rewrite <-Hm. apply Hh.
Qed.

Lemma keeps_ret {A} (a : A) : keeps_backlog (mret a : M A).
Proof. done. Qed.

Lemma keeps_log l m : keeps_backlog (log l m).
Proof. done. Qed.

Lemma keeps_save data p :
  (∀ date, p ≠ untranslated_file date) → keeps_backlog (_save_json data p).
Proof.
  intros Hp w. unfold after.
  destruct (_save_json_spec data p w) as (w' & -> & _ & _ & Hw). cbn [snd].
  destruct (head (disk w)) as [[]|]; destruct Hw as (-> & _);
    try done; destruct p; try done; by destruct (Hp date).
Qed.

Lemma keeps_call chunk : keeps_backlog (_call_gemini_cli gemini chunk).
Proof.
  intros w. unfold after. destruct (_call_gemini_cli_spec chunk w) as (L & ->). done.
Qed.

Lemma keeps_process_chunk n i chunk td :
  keeps_backlog (process_chunk cfg gemini n i chunk td).
Proof.
  unfold process_chunk.
  apply keeps_bind; [apply keeps_log|]. intros _.
  apply keeps_try.
  - apply keeps_bind; [apply keeps_call|]. intros t.
    apply keeps_bind; [by apply keeps_save|]. intros _.
    apply keeps_bind; [|intros _; apply keeps_ret].
    case_decide; [|apply keeps_ret].
    apply keeps_bind; [apply keeps_log | done].
  - intros e. apply keeps_bind; [apply keeps_log|]. intros _.
    apply keeps_bind; [apply keeps_log|]. intros _. apply keeps_ret.
Qed.

Lemma keeps_translate_loop chunks : ∀ n s i td,
  keeps_backlog (translate_loop cfg gemini n s i chunks td).
Proof.
  induction chunks as [|chunk rest IH]; intros n s i td; cbn [translate_loop].
  - apply keeps_ret.
  - case_decide; [apply IH|].
    apply keeps_bind; [apply keeps_process_chunk|]. intros td'. apply IH.
Qed.

Lemma _cleanup_progress_files_after w :
  untranslated_path (fs (after _cleanup_progress_files w)) = untranslated_path (fs w) ∧
  (disk w = [] → progress_path (fs (after _cleanup_progress_files w)) = ∅).
Proof.
  unfold after.
  destruct (_cleanup_progress_files_general w)
    as (w' & L & -> & _ & _ & _ & Hwp & _ & _ & _ & Hempty & Hquiet).
  cbn [snd]. split; [by injection Hwp|]. intros Hd. by apply Hempty, Hquiet.
Qed.

(** *** auto_translate *)

Lemma latest_table_Some (directory : gmap string entry) d :
  latest_table directory = Some d →
  ∃ nm m, latest directory = Some (nm, Entry m (Doc d)) ∧
          directory !! nm = Some (Entry m (Doc d)).
Proof.
  unfold latest_table. destruct (latest directory) as [[nm [m [|d']]]|] eqn:Hl; [done| |done].
  intros [= ->]. exists nm, m. split; [done|]. by apply latest_lookup in Hl.
Qed.

(** A run on a backlog that is not empty: it ends normally, with the
    chunks from the resume point on merged into the table it started
    from. *)
Lemma auto_translate_run resume w data chunks :
  latest_table (untranslated_path (fs w)) = Some data →
  data ≠ [] →
  chunks_of (translation_chunk_size cfg) data = Some chunks →
  let start := (resume_point resume (fs w)).1 in
  let start_chunk := (resume_point resume (fs w)).2 in
  let t := foldl (merge_chunk gemini) start (drop (Z.to_nat (start_chunk - 1)) chunks) in
  ∃ w' J, auto_translate cfg gemini strftime resume w = (Val (Finished t), w') ∧
    extends w w' J ∧
    (INFO, AllTranslationDone) ∈ logs w' ∧
    (disk w = [] →
       ∃ m, translated_path (fs w') !! strftime (clock w) = Some (Entry m (Doc t))) ∧
    ((start_chunk ≤ 1)%Z → ∀ j d, (progress_file j, d) ∈ J →
       ∃ m, j = (1 + Z.of_nat m)%Z ∧ m < length chunks ∧
            d = foldl (merge_chunk gemini) start (take (S m) chunks)) ∧
    untranslated_path (fs w') = untranslated_path (fs w) ∧
    (disk w = [] → progress_path (fs w') = ∅).
Proof.
  intros (nm & m0 & Hlatest & Hlook)%latest_table_Some Hne Hchunks start start_chunk t.
  unfold auto_translate. mlog.
  rewrite (bind_val _ _ _ _ _ (_get_latest_file_spec _ _ _)).
  cbn [with_logs fs]. rewrite Hlatest. cbn [fmap option_fmap option_map fst].
  destruct (_load_json_spec (untranslated_file nm) (with_logs [(INFO, Stage3Start)] w))
    as (L0 & Hload & _).
  cbn [stat with_logs fs] in Hload. rewrite Hlook in Hload.
  rewrite (bind_val _ _ _ _ _ Hload). rewrite with_logs_app.
  destruct data as [|kv data']; [done|].
  rewrite (bind_val _ _ _ _ _ (date_str_eq _)). cbn [with_logs clock]. mlog.
  unfold _create_chunks. rewrite Hchunks. mlog.
  match goal with |- ∃ _ _, (_ ≫= _) ?w0 = _ ∧ _ =>
    destruct (resume_from_spec resume w0) as [L1 Hres];
    rewrite (bind_val _ _ _ _ _ Hres); rewrite with_logs_app;
    cbn [with_logs fs] end.
  fold start start_chunk.
  destruct (resume_point resume (fs w)) as [st sc] eqn:Hrp. cbn [fst snd] in *.
  match goal with |- ∃ _ _, (_ ≫= _) ?w0 = _ ∧ _ =>
    destruct (translate_loop_spec chunks (length chunks) sc 1 st w0)
      as (w1 & J1 & Hloop & Hext1 & HJ1);
    rewrite (bind_val _ _ _ _ _ Hloop);
    pose proof (extends_nil _ _ _ _ (extends_logs _ w) Hext1) as Hext1' end.
  fold t.
  destruct (_save_json_extends t (translated_file (strftime (clock w))) w1)
    as (w2 & J2 & Hsave & Hext2 & HJ2 & Hfs2).
  rewrite (bind_val _ _ _ _ _ Hsave). mlog.
  destruct (_cleanup_progress_files_spec (with_logs [(INFO, AllTranslationDone)] w2))
    as (w3 & Hclean & Hext3 & Htp).
  rewrite (bind_val _ _ _ _ _ Hclean). rewrite mret_eq.
  exists w3, (J1 ++ J2). split; [done|].
  assert (extends w (with_logs [(INFO, AllTranslationDone)] w2) (J1 ++ J2)) as Hext.
  { eapply extends_nil_r; [|apply extends_logs]. by eapply extends_trans. }
  split; [by eapply extends_nil_r|]. split_and!.
  - destruct Hext3 as ([L3 ->] & _). cbn. rewrite elem_of_app, elem_of_app.
    left. right. apply list_elem_of_here.
  - intros Hdisk. rewrite Htp. cbn [with_logs fs].
    destruct Hext1' as (_ & Hd1 & _). rewrite Hfs2 by auto. cbn.
    rewrite lookup_insert_eq. eauto.
  - intros Hsc j d [Hin|Hin]%elem_of_app.
    + destruct (HJ1 Hsc _ _ Hin) as (m & [= ->] & Hm & ->). eauto.
    + apply HJ2 in Hin. done.
  - pose proof (_cleanup_progress_files_after
                  (with_logs [(INFO, AllTranslationDone)] w2)) as [Hu _].
    unfold after in Hu. rewrite Hclean in Hu. cbn [snd with_logs fs] in Hu.
    rewrite Hu.
    pose proof (keeps_save t (translated_file (strftime (clock w))) ltac:(done) w1) as Hs.
    unfold after in Hs. rewrite Hsave in Hs. cbn [snd] in Hs. rewrite Hs.
    match type of Hloop with translate_loop _ _ ?n ?s ?i _ ?td ?w0 = _ =>
      pose proof (keeps_translate_loop chunks n s i td w0) as Hl end.
    unfold after in Hl. rewrite Hloop in Hl. cbn [snd with_logs fs] in Hl. done.
  - intros Hdisk.
    pose proof (_cleanup_progress_files_after
                  (with_logs [(INFO, AllTranslationDone)] w2)) as [_ Hp].
    unfold after in Hp. rewrite Hclean in Hp. apply Hp.
    destruct Hext as (_ & Hd & _). by apply Hd.
Qed.

Lemma _load_json_doc p w m d :
  stat p (fs w) = Some (Entry m (Doc d)) → _load_json p w = (Val (Some d), w).
Proof. unfold _load_json. by intros ->. Qed.

Lemma raise_eq {A} e w : (raise e : M A) w = (Exc e, w).
Proof. done. Qed.

Ltac mload H :=
  match goal with
  | |- context [(_load_json ?p ≫= _) ?w0] =>
      rewrite (bind_val _ _ _ _ _ (_load_json_doc p w0 _ _ H))
  end.

(** A run on an empty backlog: two lines in the log and nothing else. *)
Lemma auto_translate_idle resume w :
  latest_table (untranslated_path (fs w)) = Some [] →
  auto_translate cfg gemini strftime resume w
  = (Val NothingToDo, with_logs [(INFO, Stage3Start); (INFO, NothingToTranslate)] w).
Proof.
  intros (nm & m0 & Hlatest & Hlook)%latest_table_Some.
  unfold auto_translate. mlog.
  rewrite (bind_val _ _ _ _ _ (_get_latest_file_spec _ _ _)).
  cbn [with_logs fs]. rewrite Hlatest. cbn [fmap option_fmap option_map fst].
  mload Hlook.
  mlog. by rewrite mret_eq.
Qed.

Lemma auto_translate_result_spec resume w :
  ∃ w' J, auto_translate cfg gemini strftime resume w
          = (auto_translate_result cfg gemini resume (fs w), w') ∧
          extends w w' J.
Proof.
  unfold auto_translate_result.
  destruct (latest (untranslated_path (fs w))) as [[nm [m0 [|data]]]|] eqn:Hlatest.
  - unfold auto_translate. mlog.
    rewrite (bind_val _ _ _ _ _ (_get_latest_file_spec _ _ _)).
    cbn [with_logs fs]. rewrite Hlatest. cbn [fmap option_fmap option_map fst].
    destruct (_load_json_spec (untranslated_file nm) (with_logs [(INFO, Stage3Start)] w))
      as (L0 & Hload & _).
    pose proof (latest_lookup _ _ Hlatest) as Hlook. cbn [fst snd] in Hlook.
    cbn [stat with_logs fs] in Hload. rewrite Hlook in Hload.
    rewrite (bind_val _ _ _ _ _ Hload). mlog. rewrite mret_eq.
    eexists _, []. split; [done | apply extends_logs].
  - assert (latest_table (untranslated_path (fs w)) = Some data) as Htable.
    { unfold latest_table. by rewrite Hlatest. }
    destruct data as [|kv data'].
    { rewrite auto_translate_idle by done. eexists _, []. split; [done | apply extends_logs]. }
    destruct (chunks_of (translation_chunk_size cfg) (kv :: data')) as [chunks|] eqn:Hchunks.
    + destruct (auto_translate_run resume w _ _ Htable ltac:(done) Hchunks)
        as (w' & J & Hrun & Hext & _).
      exists w', J. split; [|done]. rewrite Hrun.
      by destruct (resume_point resume (fs w)).
    + unfold auto_translate. mlog.
      rewrite (bind_val _ _ _ _ _ (_get_latest_file_spec _ _ _)).
      cbn [with_logs fs]. rewrite Hlatest. cbn [fmap option_fmap option_map fst].
      pose proof (latest_lookup _ _ Hlatest) as Hlook. cbn [fst snd] in Hlook.
      mload Hlook.
      rewrite (bind_val _ _ _ _ _ (date_str_eq _)). mlog.
      unfold _create_chunks. rewrite Hchunks.
      rewrite (bind_exc _ _ _ _ _ (raise_eq _ _)).
      eexists _, []. split; [done | apply extends_logs].
  - unfold auto_translate. mlog.
    rewrite (bind_val _ _ _ _ _ (_get_latest_file_spec _ _ _)).
    cbn [with_logs fs]. rewrite Hlatest. cbn [fmap option_fmap option_map].
    mlog. rewrite mret_eq. eexists _, []. split; [done | apply extends_logs].
Qed.

(** *** extract_lang_diff, find_untranslated and build_resource_pack *)

Lemma extract_lang_diff_spec all_en_us all_ja_jp w :
  ∃ w' J, extract_lang_diff strftime all_en_us all_ja_jp w
          = (Val (Finished (lang_diff all_en_us all_ja_jp)), w') ∧
    extends w w' J ∧
    (disk w = [] →
       ∃ m, lang_diff_path (fs w') !! strftime (clock w)
            = Some (Entry m (Doc (lang_diff all_en_us all_ja_jp)))).
Proof.
  unfold extract_lang_diff. mlog.
  rewrite (bind_val _ _ _ _ _ (date_str_eq _)). cbn [with_logs clock].
  match goal with |- ∃ _ _, (_save_json ?d ?p ≫= _) ?w0 = _ ∧ _ =>
    destruct (_save_json_extends d p w0) as (w1 & J & Hsave & Hext & _ & Hfs);
    rewrite (bind_val _ _ _ _ _ Hsave) end.
  mlog. rewrite mret_eq. eexists _, J. split; [done|]. split.
  - eapply extends_nil; [apply extends_logs|].
    eapply extends_nil_r; [apply Hext | apply extends_logs].
  - intros Hdisk. cbn [with_logs fs]. rewrite Hfs by done. cbn.
    rewrite lookup_insert_eq. eauto.
Qed.

Lemma find_untranslated_spec w :
  ∃ w' J, find_untranslated strftime w = (find_untranslated_result (fs w), w') ∧
    extends w w' J ∧
    (disk w = [] → ∀ t, find_untranslated_result (fs w) = Val (Finished t) →
       ∃ m, untranslated_path (fs w') !! strftime (clock w) = Some (Entry m (Doc t))).
Proof.
  unfold find_untranslated, find_untranslated_result. mlog.
  rewrite (bind_val _ _ _ _ _ (_get_latest_file_spec _ _ _)). cbn [with_logs fs].
  destruct (latest (lang_diff_path (fs w))) as [[nm [m0 c]]|] eqn:Hlatest;
    cbn [fmap option_fmap option_map fst].
  2: { mlog. rewrite mret_eq. eexists _, []. split; [done|]. split; [apply extends_logs|done]. }
  destruct (_load_json_spec (lang_diff_file nm) (with_logs [(INFO, Stage2Start)] w))
    as (L0 & Hload & _).
  pose proof (latest_lookup _ _ Hlatest) as Hlook. cbn [fst snd] in Hlook.
  cbn [stat with_logs fs] in Hload. rewrite Hlook in Hload.
  rewrite (bind_val _ _ _ _ _ Hload). rewrite with_logs_app.
  destruct c as [|all_diff].
  { rewrite mret_eq. eexists _, []. split; [done|]. split; [apply extends_logs|done]. }
  rewrite (bind_val _ _ _ _ _ (exists_eq _ _)). cbn [stat with_logs fs].
  assert (∀ (t : Dict) (L : list (level * msg)),
    ∃ w' J,
      (date_str strftime ≫= fun date =>
         _save_json t (untranslated_file date);;
         log INFO Stage2Done;; mret (Finished t)) (with_logs L w)
      = (Val (Finished t), w') ∧ extends w w' J ∧
      (disk w = [] →
         ∃ m, untranslated_path (fs w') !! strftime (clock w) = Some (Entry m (Doc t))))
    as Htail.
  { intros t L. rewrite (bind_val _ _ _ _ _ (date_str_eq _)). cbn [with_logs clock].
    destruct (_save_json_extends t (untranslated_file (strftime (clock w))) (with_logs L w))
      as (w1 & J & Hsave & Hext & _ & Hfs).
    rewrite (bind_val _ _ _ _ _ Hsave). mlog. rewrite mret_eq.
    eexists _, J. split; [done|]. split.
    - eapply extends_nil; [apply extends_logs|].
      eapply extends_nil_r; [apply Hext | apply extends_logs].
    - intros Hdisk. cbn [with_logs fs]. rewrite Hfs by done. cbn.
      rewrite lookup_insert_eq. eauto. }
  destruct (lang_file_at (fs w)) as [[m1 c1]|] eqn:Hlf.
  - rewrite bool_decide_true by eauto. cbn [negb]. mlog.
    match goal with |- ∃ _ _, (_load_json ?p ≫= _) ?w0 = _ ∧ _ =>
      destruct (_load_json_spec p w0) as (L1 & Hload1 & _);
      cbn [stat with_logs fs] in Hload1; rewrite Hlf in Hload1;
      rewrite (bind_val _ _ _ _ _ Hload1) end.
    mlog.
    destruct c1 as [|translated]; cbn [default from_option];
      match goal with |- ∃ _ _, _ (with_logs ?L w) = (Val (Finished ?t), _) ∧ _ =>
        destruct (Htail t L) as (w' & J & Hrun & Hext & Hst) end;
      exists w', J; (split; [done|]); (split; [done|]);
      intros Hdisk t' [= <-]; auto.
  - rewrite bool_decide_false by (by intros [? ?]). cbn [negb]. mlog.
    match goal with |- ∃ _ _, _ (with_logs ?L w) = (Val (Finished ?t), _) ∧ _ =>
      destruct (Htail t L) as (w' & J & Hrun & Hext & Hst) end.
    exists w', J. split; [done|]. split; [done|].
    intros Hdisk t' [= <-]; auto.
Qed.

Lemma mkdir_spec w :
  ∃ w', mkdir w = (if obstructed w then Exc OSError else Val (), w') ∧
    extends w w' [] ∧ fs w' = fs w ∧ clock w' = clock w ∧ logs w' = logs w.
Proof.
  unfold mkdir, obstructed, extends.
  destruct (disk w) as [|[] ?] eqn:Hd; cbn; eexists; (split; [reflexivity|]); cbn;
    rewrite ?app_nil_r, ?Hd; done.
Qed.

Lemma obstructed_clear w : disk w = [] → obstructed w = false.
Proof. unfold obstructed. by intros ->. Qed.

Lemma build_resource_pack_spec_gen w :
  ∃ w' J, build_resource_pack cfg w = (build_resource_pack_run w, w') ∧
    extends w w' J ∧
    (disk w = [] → ∀ t, build_resource_pack_result (fs w) = Val (Finished t) →
       ∃ m m', lang_file_at (fs w') = Some (Entry m (Doc t)) ∧
               pack_mcmeta_at (fs w') = Some (Entry m' (Doc (pack_meta cfg)))).
Proof.
  unfold build_resource_pack, build_resource_pack_run, build_resource_pack_result. mlog.
  rewrite (bind_val _ _ _ _ _ (_get_latest_file_spec _ _ _)). cbn [with_logs fs].
  destruct (latest (translated_path (fs w))) as [[nm [m0 c]]|] eqn:Hlatest;
    cbn [fmap option_fmap option_map fst].
  2: { mlog. rewrite mret_eq. eexists _, []. split; [done|]. split; [apply extends_logs|done]. }
  destruct (_load_json_spec (translated_file nm) (with_logs [(INFO, Stage4Start)] w))
    as (L0 & Hload & _).
  pose proof (latest_lookup _ _ Hlatest) as Hlook. cbn [fst snd] in Hlook.
  cbn [stat with_logs fs] in Hload. rewrite Hlook in Hload.
  rewrite (bind_val _ _ _ _ _ Hload). rewrite with_logs_app.
  destruct c as [|newly].
  { rewrite mret_eq. eexists _, []. split; [done|]. split; [apply extends_logs|done]. }
  mlog. rewrite (bind_val _ _ _ _ _ (exists_eq _ _)). cbn [stat with_logs fs].
  assert (∀ (base : Dict) (L : list (level * msg)),
    let t := dict_of_items (sorted_items (update base newly)) in
    ∃ w' J,
      (log INFO (KeysBefore (length base));;
       log INFO (KeysAfter (length (update base newly)));;
       log INFO CreatingDir;;
       mkdir;;
       _save_json (pack_meta cfg) pack_mcmeta_file;;
       _save_json t lang_file;;
       log INFO PackBuilt;;
       log INFO PackLocation;;
       log INFO Stage4Done;;
       mret (Finished t)) (with_logs L w)
      = (if obstructed w then Exc OSError else Val (Finished t), w') ∧ extends w w' J ∧
      (disk w = [] →
         ∃ m m', lang_file_at (fs w') = Some (Entry m (Doc t)) ∧
                 pack_mcmeta_at (fs w') = Some (Entry m' (Doc (pack_meta cfg)))))
    as Htail.
  { intros base L t. mlog.
    match goal with |- ∃ _ _, (mkdir ≫= _) ?w0 = _ ∧ _ =>
      destruct (mkdir_spec w0) as (w0' & Hmk & Hext0 & Hfs0 & _);
      change (obstructed w0) with (obstructed w) in Hmk;
      pose proof (extends_nil _ _ _ _ (extends_logs _ w) Hext0) as Hext0' end.
    destruct (obstructed w) eqn:Hob.
    { rewrite (bind_exc _ _ _ _ _ Hmk). eexists _, []. split; [done|].
      split; [done|]. intros Hd. by rewrite (obstructed_clear w Hd) in Hob. }
    rewrite (bind_val _ _ _ _ _ Hmk).
    destruct (_save_json_extends (pack_meta cfg) pack_mcmeta_file w0')
      as (w1 & J1 & Hsave1 & Hext1 & _ & Hfs1).
    rewrite (bind_val _ _ _ _ _ Hsave1).
    destruct (_save_json_extends t lang_file w1) as (w2 & J2 & Hsave2 & Hext2 & _ & Hfs2).
    rewrite (bind_val _ _ _ _ _ Hsave2). mlog. rewrite mret_eq.
    eexists _, (J1 ++ J2). split; [done|]. split.
    - eapply extends_nil; [apply Hext0'|].
      eapply extends_nil_r; [|apply extends_logs]. by eapply extends_trans.
    - intros Hdisk. cbn [with_logs fs].
      destruct Hext0' as (_ & Hd0 & _). destruct Hext1 as (_ & Hd1 & _).
      rewrite Hfs2 by auto. cbn.
      rewrite Hfs1 by auto. cbn. eauto. }
  destruct (lang_file_at (fs w)) as [[m1 c1]|] eqn:Hlf.
  - rewrite bool_decide_true by eauto.
    rewrite !bind_bind, (bind_val (log _ _) _ _ _ _ (log_eq _ _ _)), with_logs_app.
    rewrite bind_bind.
    match goal with |- ∃ _ _, (_load_json ?p ≫= _) ?w0 = _ ∧ _ =>
      destruct (_load_json_spec p w0) as (L1 & Hload1 & _);
      cbn [stat with_logs fs] in Hload1; rewrite Hlf in Hload1;
      rewrite (bind_val _ _ _ _ _ Hload1) end.
    rewrite with_logs_app, (bind_val (mret _) _ _ _ _ (mret_eq _ _)).
    destruct c1 as [|base]; cbn [default from_option];
      match goal with |- ∃ _ _, _ (with_logs ?L w) = _ ∧ _ =>
        first [ destruct (Htail base L) as (w' & J & Hrun & Hext & Hst)
              | destruct (Htail [] L) as (w' & J & Hrun & Hext & Hst) ] end;
      exists w', J; (split; [exact Hrun|]); (split; [done|]);
      intros Hdisk t' [= <-]; auto.
  - rewrite bool_decide_false by (by intros [? ?]).
    rewrite (bind_val (mret _) _ _ _ _ (mret_eq _ _)).
    match goal with |- ∃ _ _, _ (with_logs ?L w) = _ ∧ _ =>
      destruct (Htail [] L) as (w' & J & Hrun & Hext & Hst) end.
    exists w', J. split; [exact Hrun|]. split; [done|].
    intros Hdisk t' [= <-]; auto.
Qed.

Lemma build_resource_pack_run_clear w :
  obstructed w = false → build_resource_pack_run w = build_resource_pack_result (fs w).
Proof.
  unfold build_resource_pack_run. intros ->.
  by destruct (build_resource_pack_result (fs w)) as [[]|].
Qed.

(** The run in which the creation of the directory does not fail. *)
Lemma build_resource_pack_spec w :
  obstructed w = false →
  ∃ w' J, build_resource_pack cfg w = (build_resource_pack_result (fs w), w') ∧
    extends w w' J ∧
    (disk w = [] → ∀ t, build_resource_pack_result (fs w) = Val (Finished t) →
       ∃ m m', lang_file_at (fs w') = Some (Entry m (Doc t)) ∧
               pack_mcmeta_at (fs w') = Some (Entry m' (Doc (pack_meta cfg)))).
Proof.
  intros Hob. destruct (build_resource_pack_spec_gen w) as (w' & J & Hrun & Hrest).
  rewrite (build_resource_pack_run_clear w Hob) in Hrun. by exists w', J.
Qed.

End processor_facts.

(** * The claims *)

(** Decides a closed decidable proposition by evaluation. *)
Ltac by_eval :=
  match goal with |- ?P => apply (bool_decide_unpack P); vm_compute; exact I end.

(** ** Merge *)

(** C7: [merge(a, b)], which the publisher and the translation driver both
    compute as [a.update(b)], has every key of [a] and every key of [b], and
    on a key of both it has the value of [b]. *)
Theorem C7_merge_right_biased (a b : Dict) :
  (∀ k, k ∈ keys a ∨ k ∈ keys b → k ∈ keys (update a b)) ∧
  (dict_ok b → ∀ k, k ∈ keys a → k ∈ keys b → get k (update a b) = get k b).
Proof.
  split.
  - intros k Hk. by apply elem_keys_update.
  - intros Hb k _ Hkb. rewrite get_update by done.
    apply get_is_Some in Hkb as [v ->]. done.
Qed.

Lemma C7_witness :
  let a := [("x", JStr "1"); ("y", JStr "2")] in
  let b := [("y", JStr "3"); ("z", JStr "4")] in
  "z" ∈ keys (update a b) ∧ get "y" (update a b) = Some (JStr "3").
Proof.
  intros a b. destruct (C7_merge_right_biased a b) as [Hkeys Hright]. split.
  - apply Hkeys. right. by_eval.
  - rewrite Hright; [reflexivity | by_eval | by_eval | by_eval].
Defined.

(** ** The differences *)

(** C8, as stated, fails for the difference of find_untranslated: a key
    whose merged value is empty still counts as untranslated. *)
Lemma C8_counterexample :
  untranslated_of [("k", JStr "v")] (update [("k", JStr "v")] [("k", JStr EmptyString)])
  ≠ [].
Proof.
  assert (untranslated_of [("k", JStr "v")]
            (update [("k", JStr "v")] [("k", JStr EmptyString)])
          = [("k", JStr "v")]) as -> by (vm_compute; reflexivity).
  discriminate.
Qed.

(** C8, amended: [diff(a, merge(a, b))] is empty for the key-based
    difference of extract_lang_diff; for the difference of find_untranslated
    it is empty whenever [merge(a, b)] has a truthy value on every key of
    [a]. *)
Theorem C8_diff_of_merge (a b : Dict) :
  lang_diff a (update a b) = [] ∧
  ((∀ k v, k ∈ keys a → get k (update a b) = Some v → truthy v = true) →
   untranslated_of a (update a b) = []).
Proof.
  split; [apply lang_diff_update|].
  intros Hcov. apply untranslated_of_nil. intros k Hk.
  assert (is_Some (get k (update a b))) as [v Hv].
  { apply get_is_Some, elem_keys_update. by left. }
  exists v. split; [by apply get_Some_elem | by eapply Hcov].
Qed.

Lemma C8_witness :
  untranslated_of [("k", JStr "v")] (update [("k", JStr "v")] [("k", JStr "w")]) = [].
Proof.
  apply (C8_diff_of_merge [("k", JStr "v")] [("k", JStr "w")]).
  intros k v Hk. apply list_elem_of_singleton in Hk as ->.
  intros [= <-]. reflexivity.
Defined.

(** C3, as stated, fails for the first-stage difference: extract_lang_diff
    drops a key of the target table even when its value there is empty. *)
Lemma C3_counterexample :
  ¬ diff_contract lang_diff [("k", JStr "v")] [("k", JStr EmptyString)].
Proof.
  intros H. destruct (H "k" (JStr "v")) as [_ Hback].
  assert (get "k" (lang_diff [("k", JStr "v")] [("k", JStr EmptyString)]) = None) as Hnone
    by (vm_compute; reflexivity).
  rewrite Hback in Hnone; [done|].
  split; [reflexivity|]. right. exists (JStr EmptyString). split; reflexivity.
Qed.

(** C3, amended: the first-stage difference of extract_lang_diff holds
    exactly the entries of the source table whose key is no key of the target
    table; the second-stage difference of find_untranslated holds exactly
    the entries of the latest first-stage difference whose key is no key of
    the published table or has a falsy value there. *)
Theorem C3_two_differences (strftime : nat → string) :
  (∀ all_en_us all_ja_jp w,
     ∃ t, result (extract_lang_diff strftime all_en_us all_ja_jp) w = Val (Finished t) ∧
          ∀ k v, get k t = Some v ↔
                 get k all_en_us = Some v ∧ get k all_ja_jp = None) ∧
  (∀ w all_diff translated,
     latest_table (lang_diff_path (fs w)) = Some all_diff →
     published w = Some translated →
     dict_ok translated →
     ∃ t, result (find_untranslated strftime) w = Val (Finished t) ∧
          ∀ k v, get k t = Some v ↔
                 get k all_diff = Some v ∧
                 (get k translated = None ∨
                  ∃ v', get k translated = Some v' ∧ truthy v' = false)).
Proof.
  split.
  - intros en ja w. exists (lang_diff en ja). split.
    + unfold result.
      destruct (extract_lang_diff_spec strftime en ja w) as (w' & J & -> & _). done.
    + intros k v. apply lang_diff_contract.
  - intros w all_diff translated (nm & m & Hlatest & _)%latest_table_Some Hpub Hok.
    unfold result.
    destruct (find_untranslated_spec strftime w) as (w' & J & -> & _). cbn [fst].
    unfold find_untranslated_result. rewrite Hlatest.
    unfold published in Hpub.
    destruct (lang_file_at (fs w)) as [[m1 [|d]]|]; simplify_eq.
    + eexists. split; [done|]. by apply untranslated_of_contract.
    + eexists. split; [done|]. intros k v. cbn. naive_solver.
Qed.

Lemma C3_witness :
  ∃ t, result (find_untranslated Sample.strftime0) Sample.world_diff = Val (Finished t) ∧
       get "a.x" t = None ∧ get "a.y" t = Some (JStr "World") ∧
       get "a.z" t = Some (JStr "Bye").
Proof.
  destruct (C3_two_differences Sample.strftime0) as [_ Hsecond].
  destruct (Hsecond Sample.world_diff Sample.all_diff0 Sample.published0)
    as (t & Hrun & Ht).
  - vm_compute. reflexivity.
  - reflexivity.
  - by_eval.
  - exists t. split; [exact Hrun|]. split_and!.
    + destruct (get "a.x" t) as [v|] eqn:Hx; [|done].
      apply Ht in Hx as [_ [Hx|(v' & Hx & Hv)]]; [done|].
      injection Hx as <-. done.
    + apply Ht. split; [reflexivity|]. right. exists (JStr EmptyString). split; reflexivity.
    + apply Ht. split; [reflexivity|]. left. reflexivity.
Defined.

(** ** Chunking *)

(** C6: for a chunk size [N > 0], _create_chunks returns, whatever the
    state it runs in, the same [ceil(len / N)] chunks, the successive
    slices of [N] entries of the backlog; three entries in chunks of two
    give the chunks of the example. *)
Theorem C6_chunking :
  (∀ cfg (data : Dict),
     let N := translation_chunk_size cfg in
     (0 < N)%Z → dict_ok data →
     ∃ chunks,
       (∀ w, result (_create_chunks cfg data) w = Val chunks) ∧
       Z.of_nat (length chunks) = ((Z.of_nat (length data) + N - 1) / N)%Z ∧
       (∀ j, j < length chunks →
          chunks !! j = Some (slice data (j * Z.to_nat N) (j * Z.to_nat N + Z.to_nat N))) ∧
       concat chunks = data) ∧
  (∀ w, result (_create_chunks Sample.cfg2 Sample.backlog3) w
        = Val [[("k1", JStr "v1"); ("k2", JStr "v2")]; [("k3", JStr "v3")]]).
Proof.
  split; [|done].
  intros cfg data N HN Hok.
  destruct (chunks_of_spec (Z.to_nat N) data) as (chunks & Hchunks & Hlen & Hslice & Hcat);
    [lia | done |].
  rewrite Z2Nat.id in Hchunks, Hlen by lia.
  exists chunks. split_and!; [|done..].
  intros w. unfold result, _create_chunks. fold N. rewrite Hchunks. done.
Qed.

Lemma C6_witness :
  ∃ chunks,
    result (_create_chunks Sample.cfg2 Sample.backlog3) Sample.world_backlog = Val chunks ∧
    length chunks = 2 ∧ concat chunks = Sample.backlog3.
Proof.
  destruct C6_chunking as [Hgen _].
  destruct (Hgen Sample.cfg2 Sample.backlog3) as (chunks & Hrun & Hlen & _ & Hcat).
  - reflexivity.
  - by_eval.
  - exists chunks. split; [apply Hrun|]. split; [|exact Hcat].
    apply Nat2Z.inj. rewrite Hlen. reflexivity.
Defined.

(** ** Publishing *)

(** C5, as stated, fails in the word "strict": when the batch translates a
    key whose published translation was empty, the published table keeps
    exactly the keys it had, which are also exactly those of the batch. *)
Lemma C5_counterexample :
  ∃ final,
    result (build_resource_pack default_config) Sample.world_settle
    = Val (Finished final) ∧
    published Sample.world_settle = Some Sample.pending0 ∧
    latest_table (translated_path (fs Sample.world_settle)) = Some Sample.settled0 ∧
    ¬ strict_superset (keys final) (keys Sample.pending0) ∧
    ¬ strict_superset (keys final) (keys Sample.settled0).
Proof.
  exists Sample.settled0. split_and!; [vm_compute; reflexivity..| |];
    intros [_ Hstrict]; by apply Hstrict.
Qed.

(** C5, amended: the publisher computes [merge(P, T)], in which the values
    of [T] win on every colliding key, hands it sorted ascending by key to
    the write of the published table, and its key set includes the key sets
    of [P] and of [T] (it equals one of them when that one includes the
    other); the example of the two greetings comes out as stated.  The one
    way not to get to the write is that the creation of the directory of the
    language file fails, on which the stage raises. *)
Theorem C5_publish :
  (∀ cfg w (P T : Dict),
     latest_table (translated_path (fs w)) = Some T →
     published w = Some P →
     dict_ok P → dict_ok T →
     ∃ final,
       result (build_resource_pack cfg) w
       = (if obstructed w then Exc OSError else Val (Finished final)) ∧
       (∀ k v, get k T = Some v → get k final = Some v) ∧
       (∀ k, get k T = None → get k final = get k P) ∧
       StronglySorted String.le (keys final) ∧ dict_ok final ∧
       keys P ⊆ keys final ∧ keys T ⊆ keys final ∧
       (disk w = [] →
          ∃ m, lang_file_at (fs (after (build_resource_pack cfg) w))
               = Some (Entry m (Doc final)))) ∧
  result (build_resource_pack default_config) Sample.world_publish
  = Val (Finished [("a.x", JStr "こんにちは"); ("a.y", JStr "世界")]).
Proof.
  split; [|vm_compute; reflexivity].
  intros cfg w P T (nm & m & Hlatest & _)%latest_table_Some Hpub HP HT.
  unfold result, after.
  destruct (build_resource_pack_spec_gen cfg w) as (w' & J & Hrun & _ & Hfs).
  rewrite Hrun. cbn [fst snd].
  unfold build_resource_pack_run, build_resource_pack_result in *.
  rewrite Hlatest in *.
  assert (match lang_file_at (fs w) with
          | Some (Entry _ (Doc d)) => d
          | _ => []
          end = P) as HPeq.
  { unfold published in Hpub. by destruct (lang_file_at (fs w)) as [[? [|?]]|]; simplify_eq. }
  rewrite HPeq in *. cbn zeta in *.
  destruct (publish_sorted (update P T) (dict_ok_update P T HP))
    as (_ & Hok & Hsorted & Hget & Hkeys).
  eexists. split; [by destruct (obstructed w)|]. split_and!; [| |done|done| | |].
  - intros k v Hk. by rewrite Hget, get_update, Hk.
  - intros k Hk. by rewrite Hget, get_update, Hk.
  - intros k Hk. apply Hkeys, elem_keys_update. by left.
  - intros k Hk. apply Hkeys, elem_keys_update. by right.
  - intros Hdisk. destruct (Hfs Hdisk _ eq_refl) as (m1 & _ & Hlf & _). eauto.
Qed.

Lemma C5_witness :
  ∃ final,
    result (build_resource_pack default_config) Sample.world_publish = Val (Finished final) ∧
    get "a.y" final = Some (JStr "世界") ∧ get "a.x" final = Some (JStr "こんにちは") ∧
    ∃ m, lang_file_at (fs (after (build_resource_pack default_config) Sample.world_publish))
         = Some (Entry m (Doc final)).
Proof.
  destruct C5_publish as [Hgen _].
  destruct (Hgen default_config Sample.world_publish Sample.existing0 Sample.translated0)
    as (final & Hrun & Hwin & Hkeep & _ & _ & _ & _ & Hfile).
  - vm_compute. reflexivity.
  - reflexivity.
  - by_eval.
  - by_eval.
  - exists final. split; [exact Hrun|]. split_and!.
    + apply Hwin. reflexivity.
    + rewrite Hkeep; reflexivity.
    + apply Hfile. reflexivity.
Defined.

(** ** The idle run *)

(** C9: when the latest backlog artifact loads as an empty table,
    auto_translate returns at once: it logs its start and that there is
    nothing to translate, reports no error, calls no collaborator and writes
    no file. *)
Theorem C9_empty_backlog cfg gemini strftime resume w :
  latest_table (untranslated_path (fs w)) = Some [] →
  let run := auto_translate cfg gemini strftime resume in
  run w = (Val NothingToDo,
           with_logs [(INFO, Stage3Start); (INFO, NothingToTranslate)] w) ∧
  fs (after run w) = fs w ∧
  errors (logs (after run w)) = errors (logs w) ∧
  written_during run w = [].
Proof.
  intros Hempty run. unfold run, written_during, after.
  rewrite auto_translate_idle by done. cbn [fst snd with_logs fs logs journal].
  split_and!; [done|done| |by rewrite drop_all].
  unfold errors. rewrite filter_app. cbn. by rewrite app_nil_r.
Qed.

Lemma C9_witness :
  result (auto_translate Sample.cfg2 Sample.steady Sample.strftime0 None) Sample.world_idle
  = Val NothingToDo.
Proof.
  unfold result.
  destruct (C9_empty_backlog Sample.cfg2 Sample.steady Sample.strftime0 None
              Sample.world_idle) as [-> _].
  - vm_compute. reflexivity.
  - reflexivity.
Defined.

(** ** Failed writes *)



(** ** The translation stage *)



(** C4: take a full run on a backlog of at least two chunks and the
    checkpoint it wrote for chunk [k - 1], with [2 <= k <= numChunks]; a run
    with [resume = k] that finds this checkpoint, over the same backlog and
    with the same collaborator, ends with the same cumulative table as the
    full run.  So does a run with [resume = k] started in the state the
    completed full run left once the checkpoints are deleted, as they are on
    a disk without faults: the run then starts over from chunk 1. *)
Theorem C4_resume_agrees cfg gemini strftime :
  (∀ w wr data chunks k checkpoint m,
     latest_table (untranslated_path (fs w)) = Some data →
     latest_table (untranslated_path (fs wr)) = Some data →
     chunks_of (translation_chunk_size cfg) data = Some chunks →
     (2 ≤ k ≤ Z.of_nat (length chunks))%Z →
     (progress_file (k - 1), checkpoint)
       ∈ written_during (auto_translate cfg gemini strftime None) w →
     progress_path (fs wr) !! (k - 1)%Z = Some (Entry m (Doc checkpoint)) →
     ∃ t, result (auto_translate cfg gemini strftime None) w = Val (Finished t) ∧
          result (auto_translate cfg gemini strftime (Some k)) wr = Val (Finished t)) ∧
  (∀ w data chunks k,
     latest_table (untranslated_path (fs w)) = Some data →
     chunks_of (translation_chunk_size cfg) data = Some chunks →
     (2 ≤ k ≤ Z.of_nat (length chunks))%Z →
     let full := auto_translate cfg gemini strftime None in
     ∃ t, result full w = Val (Finished t) ∧
          (progress_path (fs (after full w)) = ∅ →
           result (auto_translate cfg gemini strftime (Some k)) (after full w)
           = Val (Finished t)) ∧
          (disk w = [] → progress_path (fs (after full w)) = ∅)).
Proof.
  assert (∀ data chunks k,
    chunks_of (translation_chunk_size cfg) data = Some chunks →
    (2 ≤ k ≤ Z.of_nat (length chunks))%Z → data ≠ []) as Hnonempty.
  { intros data chunks k Hchunks Hk ->. unfold chunks_of, py_range in Hchunks.
    repeat case_decide; simplify_eq; cbn in Hk; lia. }
  split.
  - intros w wr data chunks k checkpoint m Hdata Hdata' Hchunks Hk Hwritten Hfile.
    pose proof (Hnonempty _ _ _ Hchunks Hk) as Hne.
    destruct (auto_translate_run cfg gemini strftime None w data chunks Hdata Hne Hchunks)
      as (w1 & J & Hfull & (_ & _ & Hjournal) & _ & _ & HJ & _).
    destruct (auto_translate_run cfg gemini strftime (Some k) wr data chunks
                Hdata' Hne Hchunks) as (w2 & J' & Hres & _).
    unfold written_during, after in Hwritten. rewrite Hfull in Hwritten.
    cbn [snd] in Hwritten. rewrite Hjournal, drop_app_length in Hwritten.
    cbn [resume_point fst snd] in HJ, Hfull.
    destruct (HJ ltac:(done) _ _ Hwritten) as (n & Hn & Hlen & ->).
    unfold result. rewrite Hfull, Hres. cbn [fst]. eexists. split; [done|].
    do 2 f_equal. unfold resume_point.
    rewrite decide_True by lia. rewrite Hfile. cbn [fst snd].
    change (Z.to_nat (1 - 1)) with 0. rewrite drop_0.
    replace (Z.to_nat (k - 1)) with (S n) by lia.
    by rewrite <-foldl_app, take_drop.
  - intros w data chunks k Hdata Hchunks Hk full.
    pose proof (Hnonempty _ _ _ Hchunks Hk) as Hne.
    destruct (auto_translate_run cfg gemini strftime None w data chunks Hdata Hne Hchunks)
      as (w1 & J & Hfull & _ & _ & _ & _ & Hbacklog & Hprogress).
    unfold full, result, after. rewrite Hfull. cbn [fst snd].
    rewrite <-Hbacklog in Hdata.
    destruct (auto_translate_run cfg gemini strftime (Some k) w1 data chunks
                Hdata Hne Hchunks) as (w2 & J' & Hres & _).
    rewrite Hres. cbn [fst]. eexists. split; [done|]. split; [|done].
    intros Hgone. do 2 f_equal. unfold resume_point.
    rewrite Hgone, lookup_empty. by case_decide.
Qed.

Lemma C4_witness :
  (∃ t,
     result (auto_translate Sample.cfg2 Sample.steady Sample.strftime0 None)
       Sample.world_backlog = Val (Finished t) ∧
     result (auto_translate Sample.cfg2 Sample.steady Sample.strftime0 (Some 2%Z))
       Sample.world_interrupted = Val (Finished t)) ∧
  ∃ t,
    result (auto_translate Sample.cfg2 Sample.steady Sample.strftime0 None)
      Sample.world_backlog = Val (Finished t) ∧
    result (auto_translate Sample.cfg2 Sample.steady Sample.strftime0 (Some 2%Z))
      (after (auto_translate Sample.cfg2 Sample.steady Sample.strftime0 None)
         Sample.world_backlog) = Val (Finished t).
Proof.
  destruct (C4_resume_agrees Sample.cfg2 Sample.steady Sample.strftime0)
    as [Hresume Hagain].
  split.
  - apply (Hresume Sample.world_backlog Sample.world_interrupted Sample.backlog3
             [[("k1", JStr "v1"); ("k2", JStr "v2")]; [("k3", JStr "v3")]]
             2%Z Sample.checkpoint1 11).
    + vm_compute. reflexivity.
    + vm_compute. reflexivity.
    + reflexivity.
    + cbn. lia.
    + vm_compute. apply list_elem_of_here.
    + vm_compute. reflexivity.
  - destruct (Hagain Sample.world_backlog Sample.backlog3
                [[("k1", JStr "v1"); ("k2", JStr "v2")]; [("k3", JStr "v3")]] 2%Z)
      as (t & Hfull & Hrerun & Hclean).
    + vm_compute. reflexivity.
    + reflexivity.
    + cbn. lia.
    + exists t. split; [exact Hfull|]. apply Hrerun, Hclean. reflexivity.
Defined.

(** C2 does not hold of the code: when the collaborator call raises (here
    the command exits with code 1 on chunk 1), the handler merges the
    original entries and goes on to chunk 2 without writing checkpoint 1;
    the checkpoints written in the run are those of chunk 2 alone. *)
Theorem C2_fallback_skips_checkpoint :
  let run := auto_translate Sample.cfg2 (Sample.fails_on "k1") Sample.strftime0 None in
  result run Sample.world_backlog
  = Val (Finished [("k1", JStr "v1"); ("k2", JStr "v2"); ("k3", JStr "v3!")]) ∧
  chunks_processed (logs (after run Sample.world_backlog)) = [1; 2]%Z ∧
  checkpoints_saved (logs (after run Sample.world_backlog)) = [2]%Z ∧
  written_during run Sample.world_backlog
  = [(progress_file 2, [("k1", JStr "v1"); ("k2", JStr "v2"); ("k3", JStr "v3!")]);
     (translated_file "251104",
      [("k1", JStr "v1"); ("k2", JStr "v2"); ("k3", JStr "v3!")])].
Proof. vm_compute. done. Qed.

(** * Further properties of the code *)

(** ** Files *)

Lemma stat_store p e fs : stat p (store p e fs) = Some e.
Proof. destruct p; cbn; by rewrite ?lookup_insert_eq. Qed.

(** X1: what _save_json wrote, _load_json reads back; after a write that
    failed before touching the file the old content is read, and after one
    that failed midway nothing is. *)
Theorem X1_save_load_round_trip (data : Dict) (p : path) (w : World) :
  (head (disk w) = None ∨ head (disk w) = Some Written →
     result (_save_json data p ≫= fun _ => _load_json p) w = Val (Some data)) ∧
  (head (disk w) = Some Refused →
     result (_save_json data p ≫= fun _ => _load_json p) w = result (_load_json p) w) ∧
  (head (disk w) = Some Torn →
     result (_save_json data p ≫= fun _ => _load_json p) w = Val None).
Proof.
  unfold result.
  destruct (_save_json_spec data p w) as (w' & Hsave & _ & _ & Hw).
  rewrite (bind_val _ _ _ _ _ Hsave).
  destruct (_load_json_spec p w') as (L & -> & _).
  destruct (_load_json_spec p w) as (L0 & -> & _). cbn [fst].
  split_and!.
  - intros [Hd|Hd]; rewrite Hd in Hw; destruct Hw as (-> & _); by rewrite stat_store.
  - intros Hd. rewrite Hd in Hw. by destruct Hw as (-> & _).
  - intros Hd. rewrite Hd in Hw. destruct Hw as (-> & _). by rewrite stat_store.
Qed.

Lemma X1_witness :
  let round_trip := _save_json Sample.backlog3 (progress_file 1)
                      ≫= fun _ => _load_json (progress_file 1) in
  result round_trip Sample.world_backlog = Val (Some Sample.backlog3) ∧
  result round_trip (with_disk [Refused] Sample.world_interrupted)
  = Val (Some Sample.checkpoint1) ∧
  result round_trip (with_disk [Torn] Sample.world_interrupted) = Val None.
Proof.
  intros round_trip. split_and!.
  - apply (X1_save_load_round_trip Sample.backlog3 (progress_file 1) Sample.world_backlog).
    left. reflexivity.
  - etrans.
    + apply (proj1 (proj2 (X1_save_load_round_trip Sample.backlog3 (progress_file 1)
                             (with_disk [Refused] Sample.world_interrupted)))).
      reflexivity.
    + reflexivity.
  - apply (X1_save_load_round_trip Sample.backlog3 (progress_file 1)
             (with_disk [Torn] Sample.world_interrupted)). reflexivity.
Defined.

Lemma py_max_greatest {A} (key : A → nat) (xs : list A) :
  match py_max key xs with
  | None => xs = []
  | Some x => x ∈ xs ∧ ∀ y, y ∈ xs → key y ≤ key x
  end.
Proof.
  unfold py_max.
  assert (∀ best : option A,
    match foldl (fun best x =>
                   match best with
                   | None => Some x
                   | Some b => if decide (key b < key x) then Some x else Some b
                   end) best xs with
    | None => best = None ∧ xs = []
    | Some x => (best = Some x ∨ x ∈ xs) ∧
                (∀ y, y ∈ xs → key y ≤ key x) ∧
                (∀ b, best = Some b → key b ≤ key x)
    end) as Hgen.
  { induction xs as [|x0 xs IH]; intros best; cbn [foldl].
    - destruct best as [b|]; [|done]. split_and!; [by left| |by intros ? [= ->]].
      by intros y ?%elem_of_nil.
    - match goal with |- context [foldl _ ?b0 xs] => specialize (IH b0) end.
      destruct (foldl _ _ xs) as [x|] eqn:Hfold.
      + destruct IH as (Hx & Hle & Hb). split_and!.
        * destruct best as [b|]; [case_decide|]; destruct Hx as [?|?]; simplify_eq;
            eauto using list_elem_of_here, list_elem_of_further.
        * intros y [->|Hy]%elem_of_cons; [|by apply Hle].
          destruct best as [b|]; [case_decide|]; [by apply Hb| |by apply Hb].
          etrans; [|by apply Hb]. lia.
        * intros b ->. case_decide; [|by apply Hb].
          etrans; [|by apply Hb]. lia.
      + exfalso. destruct IH as [IH _]. by destruct best; [case_decide|]. }
  specialize (Hgen None). destruct (foldl _ None xs) as [x|].
  - destruct Hgen as ([?|?] & ? & _); done.
  - by destruct Hgen.
Qed.


Lemma _cleanup_progress_files_exact (w : World) :
  disk w = [] →
  ∃ L, _cleanup_progress_files w
       = (Val (), MkWorld (without_progress (fs w)) (clock w) (logs w ++ L)
                          [] (journal w)) ∧
       Forall (fun e => e.1 = INFO) L.
Proof.
  intros Hd.
  destruct (_cleanup_progress_files_general w)
    as (w' & L & Hrun & Hl & Hc & Hj & Hwp & _ & HL & Hd' & Hempty & Hquiet).
  specialize (Hquiet Hd). specialize (Hempty Hquiet). specialize (Hd' Hd).
  exists L. split.
  - rewrite Hrun. f_equal. destruct w' as [[] ? ? ? ?].
    unfold without_progress in *. cbn in *. by simplify_eq.
  - rewrite Forall_forall in HL |- *. intros e He.
    destruct (HL e He) as [->|[[p ->]|[x ->]]]; [done|done|].
    by destruct (Hquiet x).
Qed.

(** X3: _cleanup_progress_files never raises and changes nothing but the
    checkpoints, of which it removes some or all.  Unless the warning of its
    handler is logged, which takes a failure inside the [try], it has removed
    every checkpoint, those of earlier runs too, and has logged information
    lines only.  On a disk without faults the warning is not logged. *)
Theorem X3_cleanup_removes_all_checkpoints (w : World) :
  ∃ w' L, _cleanup_progress_files w = (Val (), w') ∧
    logs w' = logs w ++ L ∧ clock w' = clock w ∧ journal w' = journal w ∧
    without_progress (fs w') = without_progress (fs w) ∧
    progress_path (fs w') ⊆ progress_path (fs w) ∧
    ((∀ x, (WARNING, CleanupFailed x) ∉ L) →
       progress_path (fs w') = ∅ ∧ Forall (fun e => e.1 = INFO) L) ∧
    (disk w = [] → ∀ x, (WARNING, CleanupFailed x) ∉ L).
Proof.
  destruct (_cleanup_progress_files_general w)
    as (w' & L & Hrun & Hl & Hc & Hj & Hwp & Hsub & HL & _ & Hempty & Hquiet).
  exists w', L. split_and!; try done.
  intros Hno. split; [by apply Hempty|].
  rewrite Forall_forall in HL |- *. intros e He.
  destruct (HL e He) as [->|[[p ->]|[x ->]]]; [done|done|].
  by destruct (Hno x).
Qed.

Lemma X3_witness :
  progress_path (fs (after _cleanup_progress_files Sample.world_interrupted)) = ∅ ∧
  progress_path
    (fs (after _cleanup_progress_files (with_disk [Refused] Sample.world_interrupted)))
  ⊆ progress_path (fs Sample.world_interrupted).
Proof.
  split.
  - destruct (X3_cleanup_removes_all_checkpoints Sample.world_interrupted)
      as (w' & L & Hrun & _ & _ & _ & _ & _ & Hall & Hquiet).
    unfold after. rewrite Hrun. apply Hall, Hquiet. reflexivity.
  - destruct (X3_cleanup_removes_all_checkpoints
                (with_disk [Refused] Sample.world_interrupted))
      as (w' & L & Hrun & _ & _ & _ & _ & Hsub & _).
    unfold after. rewrite Hrun. exact Hsub.
Defined.

(** ** Stages without usable input *)

Lemma latest_empty : latest (∅ : gmap string entry) = None.
Proof. unfold latest. by rewrite map_to_list_empty. Qed.

(** X4: a stage that finds no artifact of its predecessor logs its start
    and one error and ends there: no file is read or written, and the
    collaborator is not called. *)
Theorem X4_missing_upstream cfg gemini strftime resume (w : World) :
  (lang_diff_path (fs w) = ∅ →
     find_untranslated strftime w
     = (Val MissingUpstream, with_logs [(INFO, Stage2Start); (ERROR, NoDiffFile)] w)) ∧
  (untranslated_path (fs w) = ∅ →
     auto_translate cfg gemini strftime resume w
     = (Val MissingUpstream,
        with_logs [(INFO, Stage3Start); (ERROR, NoUntranslatedFile)] w)) ∧
  (translated_path (fs w) = ∅ →
     build_resource_pack cfg w
     = (Val MissingUpstream,
        with_logs [(INFO, Stage4Start); (ERROR, NoTranslatedFile)] w)).
Proof.
  split_and!; intros Hempty.
  - unfold find_untranslated. mlog.
    rewrite (bind_val _ _ _ _ _ (_get_latest_file_spec _ _ _)). cbn [with_logs fs].
    rewrite Hempty, latest_empty. cbn [fmap option_fmap option_map]. mlog.
    by rewrite mret_eq.
  - unfold auto_translate. mlog.
    rewrite (bind_val _ _ _ _ _ (_get_latest_file_spec _ _ _)). cbn [with_logs fs].
    rewrite Hempty, latest_empty. cbn [fmap option_fmap option_map]. mlog.
    by rewrite mret_eq.
  - unfold build_resource_pack. mlog.
    rewrite (bind_val _ _ _ _ _ (_get_latest_file_spec _ _ _)). cbn [with_logs fs].
    rewrite Hempty, latest_empty. cbn [fmap option_fmap option_map]. mlog.
    by rewrite mret_eq.
Qed.

Lemma X4_witness :
  result (build_resource_pack default_config) Sample.world_backlog = Val MissingUpstream ∧
  result (find_untranslated Sample.strftime0) Sample.world_backlog = Val MissingUpstream ∧
  result (auto_translate Sample.cfg2 Sample.steady Sample.strftime0 None)
    Sample.world_publish = Val MissingUpstream.
Proof.
  unfold result. split_and!.
  - destruct (X4_missing_upstream default_config Sample.steady Sample.strftime0 None
                Sample.world_backlog) as (_ & _ & ->); reflexivity.
  - destruct (X4_missing_upstream default_config Sample.steady Sample.strftime0 None
                Sample.world_backlog) as (-> & _ & _); reflexivity.
  - destruct (X4_missing_upstream Sample.cfg2 Sample.steady Sample.strftime0 None
                Sample.world_publish) as (_ & -> & _); reflexivity.
Defined.

(** X5: a stage whose newest input artifact does not parse logs the parse
    error and writes nothing: find_untranslated and build_resource_pack end
    there, auto_translate goes on to report that there is nothing to
    translate. *)
Theorem X5_unreadable_upstream cfg gemini strftime resume (w : World) nm m :
  (latest (lang_diff_path (fs w)) = Some (nm, Entry m Garbage) →
     find_untranslated strftime w
     = (Val Unreadable,
        with_logs [(INFO, Stage2Start); (ERROR, JsonParseFailed (lang_diff_file nm))] w)) ∧
  (latest (untranslated_path (fs w)) = Some (nm, Entry m Garbage) →
     auto_translate cfg gemini strftime resume w
     = (Val NothingToDo,
        with_logs [(INFO, Stage3Start); (ERROR, JsonParseFailed (untranslated_file nm));
                   (INFO, NothingToTranslate)] w)) ∧
  (latest (translated_path (fs w)) = Some (nm, Entry m Garbage) →
     build_resource_pack cfg w
     = (Val Unreadable,
        with_logs [(INFO, Stage4Start); (ERROR, JsonParseFailed (translated_file nm))] w)).
Proof.
  assert (∀ p L, stat p (fs w) = Some (Entry m Garbage) →
            _load_json p (with_logs L w)
            = (Val None, with_logs (L ++ [(ERROR, JsonParseFailed p)]) w)) as Hload.
  { intros p L Hp. unfold _load_json. cbn [with_logs fs]. rewrite Hp. mlog.
    by rewrite mret_eq. }
  split_and!; intros Hlatest;
    pose proof (latest_lookup _ _ Hlatest) as Hlook; cbn [fst snd] in Hlook.
  - unfold find_untranslated. mlog.
    rewrite (bind_val _ _ _ _ _ (_get_latest_file_spec _ _ _)). cbn [with_logs fs].
    rewrite Hlatest. cbn [fmap option_fmap option_map fst].
    rewrite (bind_val _ _ _ _ _ (Hload (lang_diff_file nm) _ Hlook)).
    by rewrite mret_eq.
  - unfold auto_translate. mlog.
    rewrite (bind_val _ _ _ _ _ (_get_latest_file_spec _ _ _)). cbn [with_logs fs].
    rewrite Hlatest. cbn [fmap option_fmap option_map fst].
    rewrite (bind_val _ _ _ _ _ (Hload (untranslated_file nm) _ Hlook)).
    mlog. by rewrite mret_eq.
  - unfold build_resource_pack. mlog.
    rewrite (bind_val _ _ _ _ _ (_get_latest_file_spec _ _ _)). cbn [with_logs fs].
    rewrite Hlatest. cbn [fmap option_fmap option_map fst].
    rewrite (bind_val _ _ _ _ _ (Hload (translated_file nm) _ Hlook)).
    by rewrite mret_eq.
Qed.

Lemma X5_witness :
  result (auto_translate Sample.cfg2 Sample.steady Sample.strftime0 None)
    More.world_garbled = Val NothingToDo.
Proof.
  unfold result.
  destruct (X5_unreadable_upstream Sample.cfg2 Sample.steady Sample.strftime0 None
              More.world_garbled "251103" 7) as (_ & -> & _).
  - vm_compute. reflexivity.
  - reflexivity.
Defined.

(** ** Resuming *)

(** X6: when the checkpoint [progress_<k-1>] does not exist, a run with
    [resume = k] ends like a run without resume; its resume block logs a
    warning and starts from the empty table at chunk 1. *)
Theorem X6_resume_without_checkpoint cfg gemini strftime (w : World) (k : Z) :
  progress_path (fs w) !! (k - 1)%Z = None →
  result (auto_translate cfg gemini strftime (Some k)) w
  = result (auto_translate cfg gemini strftime None) w ∧
  ((1 < k)%Z →
   resume_from (Some k) w
   = (Val ([], 1%Z), with_logs [(WARNING, ProgressMissing (progress_file (k - 1)))] w)).
Proof.
  intros Hnone. split.
  - unfold result.
    destruct (auto_translate_result_spec cfg gemini strftime (Some k) w) as (? & ? & -> & _).
    destruct (auto_translate_result_spec cfg gemini strftime None w) as (? & ? & -> & _).
    cbn [fst]. unfold auto_translate_result, resume_point. rewrite Hnone.
    by case_decide.
  - intros Hk. unfold resume_from. rewrite decide_True by lia.
    rewrite (bind_val _ _ _ _ _ (exists_eq _ _)). cbn [stat]. rewrite Hnone.
    rewrite bool_decide_false by (by intros [? ?]). mlog. by rewrite mret_eq.
Qed.

Lemma X6_witness :
  result (auto_translate Sample.cfg2 Sample.steady Sample.strftime0 (Some 2%Z))
    Sample.world_backlog
  = result (auto_translate Sample.cfg2 Sample.steady Sample.strftime0 None)
      Sample.world_backlog.
Proof.
  apply (X6_resume_without_checkpoint Sample.cfg2 Sample.steady Sample.strftime0
           Sample.world_backlog 2%Z).
  reflexivity.
Defined.

(** X7: a run with [resume = k > 1] that finds the checkpoint
    [progress_<k-1>] merges the chunks from [k] on into the table of the
    checkpoint; past the last chunk that is the checkpoint itself; and when
    the checkpoint does not parse it merges them into the empty table, so
    the chunks before [k] are missing from the result. *)
Theorem X7_resume_start cfg gemini strftime (w : World) data chunks (k : Z) m :
  latest_table (untranslated_path (fs w)) = Some data →
  data ≠ [] →
  chunks_of (translation_chunk_size cfg) data = Some chunks →
  (1 < k)%Z →
  let run := auto_translate cfg gemini strftime (Some k) in
  (∀ checkpoint,
     progress_path (fs w) !! (k - 1)%Z = Some (Entry m (Doc checkpoint)) →
     result run w
     = Val (Finished (foldl (merge_chunk gemini) checkpoint
                            (drop (Z.to_nat (k - 1)) chunks))) ∧
     ((Z.of_nat (length chunks) < k)%Z → result run w = Val (Finished checkpoint))) ∧
  (progress_path (fs w) !! (k - 1)%Z = Some (Entry m Garbage) →
     result run w
     = Val (Finished (foldl (merge_chunk gemini) [] (drop (Z.to_nat (k - 1)) chunks)))).
Proof.
  intros Hdata Hne Hchunks Hk run. unfold run, result.
  destruct (auto_translate_run cfg gemini strftime (Some k) w data chunks Hdata Hne Hchunks)
    as (w' & J & -> & _). cbn [fst]. unfold resume_point. rewrite decide_True by lia.
  split.
  - intros checkpoint ->. cbn [fst snd]. split; [done|].
    intros Hpast. by rewrite drop_ge by lia.
  - by intros ->.
Qed.

Lemma X7_witness :
  result (auto_translate Sample.cfg2 Sample.steady Sample.strftime0 (Some 3%Z))
    More.world_all_done = Val (Finished More.checkpoint2) ∧
  result (auto_translate Sample.cfg2 Sample.steady Sample.strftime0 (Some 2%Z))
    More.world_corrupt = Val (Finished [("k3", JStr "v3!")]).
Proof.
  split.
  - destruct (X7_resume_start Sample.cfg2 Sample.steady Sample.strftime0
                More.world_all_done Sample.backlog3
                [[("k1", JStr "v1"); ("k2", JStr "v2")]; [("k3", JStr "v3")]] 3%Z 12)
      as [Hfound _].
    + vm_compute. reflexivity.
    + discriminate.
    + reflexivity.
    + lia.
    + destruct (Hfound More.checkpoint2) as [_ Hpast].
      * vm_compute. reflexivity.
      * apply Hpast. cbn. lia.
  - destruct (X7_resume_start Sample.cfg2 Sample.steady Sample.strftime0
                More.world_corrupt Sample.backlog3
                [[("k1", JStr "v1"); ("k2", JStr "v2")]; [("k3", JStr "v3")]] 2%Z 11)
      as [_ Hcorrupt].
    + vm_compute. reflexivity.
    + discriminate.
    + reflexivity.
    + lia.
    + rewrite Hcorrupt; [reflexivity|]. vm_compute. reflexivity.
Defined.

(** ** The cumulative table *)

Lemma keys_foldl_merge gemini (l : list Dict) : ∀ (td : Dict) k,
  k ∈ keys (foldl (merge_chunk gemini) td l) ↔
  k ∈ keys td ∨ ∃ chunk, chunk ∈ l ∧ k ∈ keys (merged gemini chunk).
Proof.
  induction l as [|c l IH]; intros td k; cbn [foldl].
  - split; [by left|]. intros [?|(? & ?%elem_of_nil & _)]; done.
  - rewrite IH. unfold merge_chunk at 1. rewrite elem_keys_update. split.
    + intros [[?|?]|(c' & ? & ?)]; [by left| |].
      * right. exists c. split; [apply list_elem_of_here | done].
      * right. exists c'. split; [by apply list_elem_of_further | done].
    + intros [?|(c' & [->|?]%elem_of_cons & ?)]; [by left; left|by left; right|].
      right. by exists c'.
Qed.


Lemma elem_of_concat {A} (x : A) (ls : list (list A)) :
  x ∈ concat ls ↔ ∃ l, l ∈ ls ∧ x ∈ l.
Proof.
  induction ls as [|l0 ls IH]; cbn [concat].
  - split; [by intros ?%elem_of_nil | by intros (? & ?%elem_of_nil & _)].
  - rewrite elem_of_app, IH. split.
    + intros [?|(l & ? & ?)]; [exists l0|exists l]; split; try done;
        [apply list_elem_of_here | by apply list_elem_of_further].
    + intros (l & [->|?]%elem_of_cons & ?); [by left|right; by exists l].
Qed.

(** X8: in a run without resume, every checkpoint written for a chunk [j]
    holds the cumulative table after chunks 1 to [j]; its keys are among
    those of every later checkpoint and of the final table. *)
Theorem X8_checkpoints_cumulative cfg gemini strftime (w : World) data chunks :
  latest_table (untranslated_path (fs w)) = Some data →
  data ≠ [] →
  chunks_of (translation_chunk_size cfg) data = Some chunks →
  let run := auto_translate cfg gemini strftime None in
  ∃ t, result run w = Val (Finished t) ∧
       ∀ j d, (progress_file j, d) ∈ written_during run w →
         (1 ≤ j ≤ Z.of_nat (length chunks))%Z ∧
         d = foldl (merge_chunk gemini) [] (take (Z.to_nat j) chunks) ∧
         keys d ⊆ keys t ∧
         ∀ j' d', (progress_file j', d') ∈ written_during run w →
                  (j ≤ j')%Z → keys d ⊆ keys d'.
Proof.
  intros Hdata Hne Hchunks run. unfold run, result, written_during, after.
  destruct (auto_translate_run cfg gemini strftime None w data chunks Hdata Hne Hchunks)
    as (w' & J & -> & (_ & _ & Hjournal) & _ & _ & HJ & _).
  cbn [fst snd resume_point] in *. rewrite Hjournal, drop_app_length.
  change (Z.to_nat (1 - 1)) with 0. rewrite drop_0.
  eexists. split; [done|].
  assert (∀ j d, (progress_file j, d) ∈ J →
            (1 ≤ j ≤ Z.of_nat (length chunks))%Z ∧
            d = foldl (merge_chunk gemini) [] (take (Z.to_nat j) chunks)) as Hcp.
  { intros j d Hin. destruct (HJ ltac:(done) j d Hin) as (n & -> & Hn & ->).
    split; [lia|]. do 2 f_equal. lia. }
  assert (∀ n1 n2 k, n1 ≤ n2 →
            k ∈ keys (foldl (merge_chunk gemini) [] (take n1 chunks)) →
            k ∈ keys (foldl (merge_chunk gemini) [] (take n2 chunks))) as Hmono.
  { intros n1 n2 k Hle. rewrite !keys_foldl_merge.
    intros [?|(c & Hc & Hk)]; [by left|]. right. exists c. split; [|done].
    rewrite <-(take_drop n1 (take n2 chunks)), take_take.
    replace (n1 `min` n2) with n1 by lia. apply elem_of_app. by left. }
  intros j d Hin. destruct (Hcp j d Hin) as [Hj ->].
  split; [done|]. split; [done|]. split.
  - intros k Hk. rewrite <-(take_ge chunks (length chunks)) by done.
    apply (Hmono (Z.to_nat j)); [lia | done].
  - intros j' d' Hin' Hle. destruct (Hcp j' d' Hin') as [Hj' ->].
    intros k. apply Hmono. lia.
Qed.

Lemma X8_witness :
  ∃ t, result (auto_translate Sample.cfg2 Sample.steady Sample.strftime0 None)
         Sample.world_backlog = Val (Finished t) ∧
       keys Sample.checkpoint1 ⊆ keys t.
Proof.
  destruct (X8_checkpoints_cumulative Sample.cfg2 Sample.steady Sample.strftime0
              Sample.world_backlog Sample.backlog3
              [[("k1", JStr "v1"); ("k2", JStr "v2")]; [("k3", JStr "v3")]])
    as (t & Hrun & Hcp).
  - vm_compute. reflexivity.
  - discriminate.
  - reflexivity.
  - exists t. split; [exact Hrun|].
    destruct (Hcp 1%Z Sample.checkpoint1) as (_ & _ & Hkeys & _); [|exact Hkeys].
    vm_compute. apply list_elem_of_here.
Defined.



(** ** One chunk *)

(** X10: what the body of the loop does beyond merging.  When the
    collaborator call raises, it only logs: no checkpoint is written and
    there is no wait.  When the call returns and the write succeeds, the
    checkpoint [progress_<i>] holds the updated cumulative table when the
    body ends, and the driver has waited [translation_wait_time] seconds
    unless the chunk is the last. *)
Theorem X10_checkpoint_and_wait cfg gemini n i (chunk td : Dict) (w : World) :
  (raises (gemini chunk) = true →
     ∃ L, process_chunk cfg gemini n i chunk td w
          = (Val (update td chunk), with_logs L w)) ∧
  (raises (gemini chunk) = false →
   head (disk w) = None ∨ head (disk w) = Some Written →
     ∃ w', process_chunk cfg gemini n i chunk td w
           = (Val (merge_chunk gemini td chunk), w') ∧
       progress_path (fs w') !! i
       = Some (Entry (clock w) (Doc (merge_chunk gemini td chunk))) ∧
       clock w' = clock w + 1 +
                  (if decide (i < Z.of_nat n)%Z then translation_wait_time cfg else 0)).
Proof.
  split; [apply process_chunk_raise|].
  intros Hret Hdisk. unfold process_chunk. mlog. unfold try_except.
  destruct (_call_gemini_cli_spec gemini chunk (with_logs [(INFO, ProcessingChunk i n)] w))
    as [L Hcall].
  rewrite with_logs_app in Hcall. unfold raises in Hret.
  destruct (gemini chunk) as [|rc out]; [done|].
  apply negb_false_iff in Hret. rewrite Hret in Hcall.
  rewrite (bind_val _ _ _ _ _ Hcall).
  destruct (_save_json_spec (update td (merged gemini chunk)) (progress_file i)
              (with_logs ([(INFO, ProcessingChunk i n)] ++ L) w))
    as (w1 & Hsave & Hclock & _ & Hw1).
  rewrite (bind_val _ _ _ _ _ Hsave). cbn [with_logs disk clock fs logs journal] in *.
  assert (fs w1 = store (progress_file i)
                    (Entry (clock w) (Doc (update td (merged gemini chunk)))) (fs w))
    as Hfs.
  { destruct Hdisk as [Hd|Hd]; rewrite Hd in Hw1; by destruct Hw1. }
  case_decide.
  - mlog. unfold sleep. cbn. eexists. split; [done|]. cbn.
    rewrite Hfs, Hclock. cbn. rewrite lookup_insert_eq. split; [done|lia].
  - cbn. eexists. split; [done|].
    rewrite Hfs, Hclock. cbn. rewrite lookup_insert_eq. split; [done|lia].
Qed.

Lemma X10_witness :
  (∃ L, process_chunk Sample.cfg2 (Sample.fails_on "k1") 2 1
          [("k1", JStr "v1"); ("k2", JStr "v2")] [] Sample.world_backlog
        = (Val [("k1", JStr "v1"); ("k2", JStr "v2")], with_logs L Sample.world_backlog)) ∧
  ∃ w', process_chunk Sample.cfg2 Sample.steady 2 1
          [("k1", JStr "v1"); ("k2", JStr "v2")] [] Sample.world_backlog
        = (Val Sample.checkpoint1, w') ∧
        clock w' = 3611.
Proof.
  split.
  - apply (X10_checkpoint_and_wait Sample.cfg2 (Sample.fails_on "k1") 2 1
             [("k1", JStr "v1"); ("k2", JStr "v2")] [] Sample.world_backlog).
    reflexivity.
  - destruct (X10_checkpoint_and_wait Sample.cfg2 Sample.steady 2 1
                [("k1", JStr "v1"); ("k2", JStr "v2")] [] Sample.world_backlog)
      as [_ Hret].
    destruct Hret as (w' & Hrun & _ & Hclock); [reflexivity | by left |].
    exists w'. split; [exact Hrun | exact Hclock].
Defined.

(** ** Running a stage twice *)

Section keeps_facts.
Context {X : Type} (proj : FS → X).

Lemma keeps_gen_bind {A B} (m : M A) (f : A → M B) :
  keeps proj m → (∀ a, keeps proj (f a)) → keeps proj (m ≫= f).
Proof.
  intros Hm Hf w. unfold after, mbind, M_bind. specialize (Hm w). unfold after in Hm.
  destruct (m w) as [[a|e] w1]; cbn [snd] in *; [|done].
  rewrite <-Hm. apply Hf.
Qed.

Lemma keeps_gen_ret {A} (a : A) : keeps proj (mret a : M A).
Proof. done. Qed.

Lemma keeps_gen_log l m : keeps proj (log l m).
Proof. done. Qed.

Lemma keeps_gen_date strftime : keeps proj (date_str strftime).
Proof. done. Qed.

Lemma keeps_gen_exists p : keeps proj (exists_ p).
Proof. done. Qed.

Lemma keeps_gen_mkdir : keeps proj mkdir.
Proof. intros w. unfold after, mkdir. by destruct (disk w) as [|[] ?]. Qed.

Lemma keeps_gen_latest directory name : keeps proj (_get_latest_file directory name).
Proof. intros w. unfold after. by rewrite _get_latest_file_spec. Qed.

Lemma keeps_gen_load p : keeps proj (_load_json p).
Proof.
  intros w. unfold after. destruct (_load_json_spec p w) as (L & -> & _). done.
Qed.

Lemma keeps_gen_save data p :
  (∀ e fs, proj (store p e fs) = proj fs) → keeps proj (_save_json data p).
Proof.
  intros Hp w. unfold after.
  destruct (_save_json_spec data p w) as (w' & -> & _ & _ & Hw). cbn [snd].
  destruct (head (disk w)) as [[]|]; destruct Hw as (-> & _); by rewrite ?Hp.
Qed.

End keeps_facts.

Ltac keeps_step :=
  first
    [ apply keeps_gen_ret | apply keeps_gen_log | apply keeps_gen_date
    | apply keeps_gen_exists | apply keeps_gen_latest | apply keeps_gen_load
    | apply keeps_gen_mkdir
    | apply keeps_gen_save; by intros ? []
    | apply keeps_gen_bind; [|intros ?]
    | match goal with
      | |- keeps _ (match ?x with _ => _ end) => destruct x
      | |- keeps _ (if ?b then _ else _) => destruct b
      end ].

Lemma find_untranslated_keeps strftime :
  keeps lang_diff_path (find_untranslated strftime) ∧
  keeps lang_file_at (find_untranslated strftime).
Proof. split; unfold find_untranslated; repeat keeps_step. Qed.

(** X11: find_untranslated reads the first-stage difference and the
    published table and changes neither, so a second run right after the
    first computes the same backlog. *)
Theorem X11_find_untranslated_repeatable strftime (w : World) :
  let stage := find_untranslated strftime in
  lang_diff_path (fs (after stage w)) = lang_diff_path (fs w) ∧
  lang_file_at (fs (after stage w)) = lang_file_at (fs w) ∧
  result stage (after stage w) = result stage w.
Proof.
  intros stage. destruct (find_untranslated_keeps strftime) as [Hdiff Hlang].
  pose proof (Hdiff w) as Hd. pose proof (Hlang w) as Hl. fold stage in Hd, Hl.
  split; [done|]. split; [done|]. unfold stage, result.
  destruct (find_untranslated_spec strftime (after (find_untranslated strftime) w))
    as (? & ? & -> & _).
  destruct (find_untranslated_spec strftime w) as (? & ? & -> & _).
  cbn [fst]. unfold find_untranslated_result. fold stage. by rewrite Hd, Hl.
Qed.

(** ** The shape of the differences *)

Lemma keys_restrict_acc (d : Dict) (ks : list string) : ∀ acc : Dict,
  NoDup (keys acc ++ ks) → (∀ k, k ∈ ks → k ∈ keys d) →
  keys (foldl (fun acc key =>
                 match get key d with
                 | Some v => setitem key v acc
                 | None => acc
                 end) acc ks) = keys acc ++ ks.
Proof.
  induction ks as [|k ks IH]; intros acc Hnodup Hin; cbn [foldl].
  - by rewrite app_nil_r.
  - destruct (get k d) as [v|] eqn:Hk.
    + assert (k ∉ keys acc) as Hfresh.
      { apply NoDup_app in Hnodup as (_ & Hdisj & _). intros Hacc.
        apply (Hdisj k Hacc). apply list_elem_of_here. }
      rewrite IH.
      * rewrite keys_setitem, decide_False by done. by rewrite <-app_assoc.
      * rewrite keys_setitem, decide_False by done. by rewrite <-app_assoc.
      * intros k' Hk'. apply Hin. by apply list_elem_of_further.
    + exfalso. apply get_None in Hk. apply Hk, Hin, list_elem_of_here.
Qed.

Lemma keys_restrict (d : Dict) (ks : list string) :
  NoDup ks → (∀ k, k ∈ ks → k ∈ keys d) → keys (restrict d ks) = ks.
Proof. intros Hnodup Hin. unfold restrict. by rewrite keys_restrict_acc. Qed.

Lemma keys_of_difference (d : Dict) (S : gset string) :
  S ⊆ list_to_set (keys d) →
  keys (restrict d (sorted (elements S))) = sorted (elements S) ∧
  NoDup (sorted (elements S)) ∧ StronglySorted String.le (sorted (elements S)).
Proof.
  intros Hsub. split_and!.
  - apply keys_restrict.
    + unfold sorted. rewrite merge_sort_Permutation. apply NoDup_elements.
    + intros k Hk%elem_sorted%elem_of_elements.
      by apply Hsub, elem_of_list_to_set in Hk.
  - unfold sorted. rewrite merge_sort_Permutation. apply NoDup_elements.
  - unfold sorted. apply StronglySorted_merge_sort; apply _.
Qed.

Lemma differences_sorted (a b : Dict) :
  (dict_ok (lang_diff a b) ∧ StronglySorted String.le (keys (lang_diff a b)) ∧
   keys (lang_diff a b) ⊆ keys a) ∧
  (dict_ok (untranslated_of a b) ∧ StronglySorted String.le (keys (untranslated_of a b)) ∧
   keys (untranslated_of a b) ⊆ keys a).
Proof.
  split.
  - unfold lang_diff.
    destruct (keys_of_difference a
                (list_to_set (keys a) ∖ list_to_set (keys b))) as (Hkeys & Hnd & Hs);
      [set_solver|].
    unfold dict_ok. rewrite Hkeys. split_and!; [done|done|].
    intros k Hk%elem_sorted%elem_of_elements. set_solver.
  - unfold untranslated_of.
    destruct (keys_of_difference a
                (list_to_set (keys a) ∖
                 list_to_set (filter (fun kv => truthy kv.2 = true) b).*1))
      as (Hkeys & Hnd & Hs); [set_solver|].
    unfold dict_ok. rewrite Hkeys. split_and!; [done|done|].
    intros k Hk%elem_sorted%elem_of_elements. set_solver.
Qed.

(** X12: both differences come out as dictionaries sorted ascending by
    key, with keys taken from their first argument. *)
Theorem X12_differences_sorted (a b : Dict) :
  (dict_ok (lang_diff a b) ∧ StronglySorted String.le (keys (lang_diff a b)) ∧
   keys (lang_diff a b) ⊆ keys a) ∧
  (dict_ok (untranslated_of a b) ∧ StronglySorted String.le (keys (untranslated_of a b)) ∧
   keys (untranslated_of a b) ⊆ keys a).
Proof. apply differences_sorted. Qed.

(** ** Publishing twice *)

Lemma setitem_same (d : Dict) k v : get k d = Some v → setitem k v d = d.
Proof.
  induction d as [|[k' v'] d IH]; cbn [get setitem]; [done|].
  case_decide; [by intros [= ->]; subst | intros ?; by rewrite IH].
Qed.

Lemma update_absorbed (d other : Dict) :
  (∀ k v, (k, v) ∈ other → get k d = Some v) → update d other = d.
Proof.
  induction other as [|[k v] other IH]; intros Hin; [done|].
  rewrite update_cons. cbn [fst snd]. rewrite setitem_same.
  - apply IH. intros k' v' ?. apply Hin. by apply list_elem_of_further.
  - apply Hin, list_elem_of_here.
Qed.

Lemma sorted_items_fixed (d : Dict) :
  dict_ok d → sorted_items (sorted_items d) = sorted_items d.
Proof.
  intros Hok.
  assert (dict_ok (sorted_items d)) as Hs.
  { eapply dict_ok_perm; [symmetry; apply sorted_items_perm | done]. }
  apply (StronglySorted_unique_strong item_le).
  - intros [k1 v1] [k2 v2] Hin1 Hin2 H12 H21.
    rewrite sorted_items_perm in Hin1.
    unfold item_le in H12, H21. cbn in H12, H21.
    assert (k1 = k2) as -> by (by apply (anti_symm String.le)).
    f_equal. apply (elem_get_Some _ _ _ Hs) in Hin1, Hin2. congruence.
  - apply StronglySorted_merge_sort; apply _.
  - apply StronglySorted_merge_sort; apply _.
  - apply sorted_items_perm.
Qed.

Lemma publish_twice (P T : Dict) :
  dict_ok P → dict_ok T →
  let final := dict_of_items (sorted_items (update P T)) in
  dict_of_items (sorted_items (update final T)) = final.
Proof.
  intros HP HT final.
  destruct (publish_sorted (update P T) (dict_ok_update P T HP))
    as (Heq & Hok & _ & Hget & _).
  fold final in Heq, Hok, Hget.
  rewrite update_absorbed.
  - rewrite Heq, sorted_items_fixed by by apply dict_ok_update.
    rewrite <-Heq. by apply dict_of_items_id.
  - intros k v Hin. rewrite Hget, get_update by done.
    by rewrite (elem_get_Some _ _ _ HT Hin).
Qed.

Lemma build_resource_pack_keeps cfg : keeps translated_path (build_resource_pack cfg).
Proof. unfold build_resource_pack. repeat keeps_step. Qed.

(** X13: on a disk without faults, publishing the same translated artifact
    a second time computes the table the first publish wrote, so the
    published table does not change. *)
Theorem X13_publish_twice cfg (w : World) (P T : Dict) :
  disk w = [] →
  latest_table (translated_path (fs w)) = Some T →
  published w = Some P →
  dict_ok P → dict_ok T →
  let stage := build_resource_pack cfg in
  ∃ final,
    result stage w = Val (Finished final) ∧
    published (after stage w) = Some final ∧
    result stage (after stage w) = Val (Finished final) ∧
    published (after stage (after stage w)) = Some final.
Proof.
  intros Hdisk Hlatest Hpub HP HT stage.
  assert (∀ w0 P0,
    disk w0 = [] → latest_table (translated_path (fs w0)) = Some T →
    published w0 = Some P0 →
    result stage w0 = Val (Finished (dict_of_items (sorted_items (update P0 T)))) ∧
    published (after stage w0) = Some (dict_of_items (sorted_items (update P0 T))) ∧
    disk (after stage w0) = [] ∧
    latest_table (translated_path (fs (after stage w0))) = Some T) as Hone.
  { intros w0 P0 Hd0 Hl0 Hp0. unfold stage, result.
    pose proof (build_resource_pack_keeps cfg w0) as Hkeep. unfold after in *.
    destruct (build_resource_pack_spec cfg w0 (obstructed_clear w0 Hd0))
      as (w1 & J & Hrun & (_ & Hd1 & _) & Hfs).
    rewrite Hrun in *. cbn [fst snd] in *.
    apply latest_table_Some in Hl0 as Hl0'. destruct Hl0' as (nm & m & Hl0' & _).
    assert (build_resource_pack_result (fs w0)
            = Val (Finished (dict_of_items (sorted_items (update P0 T))))) as Hres.
    { unfold build_resource_pack_result. rewrite Hl0'. unfold published in Hp0.
      by destruct (lang_file_at (fs w0)) as [[? [|?]]|]; simplify_eq. }
    rewrite Hres. split; [done|].
    destruct (Hfs Hd0 _ Hres) as (m1 & m2 & Hlf & _).
    split_and!; [by unfold published; rewrite Hlf | auto | by rewrite Hkeep]. }
  destruct (Hone w P Hdisk Hlatest Hpub) as (Hr1 & Hp1 & Hd1 & Hl1).
  destruct (Hone (after stage w) _ Hd1 Hl1 Hp1) as (Hr2 & Hp2 & _ & _).
  rewrite publish_twice in Hr2, Hp2 by done.
  eexists. split_and!; done.
Qed.

Lemma X13_witness :
  ∃ final,
    result (build_resource_pack default_config) Sample.world_publish = Val (Finished final) ∧
    result (build_resource_pack default_config)
      (after (build_resource_pack default_config) Sample.world_publish)
    = Val (Finished final).
Proof.
  destruct (X13_publish_twice default_config Sample.world_publish
              Sample.existing0 Sample.translated0)
    as (final & H1 & _ & H2 & _).
  - reflexivity.
  - vm_compute. reflexivity.
  - reflexivity.
  - by_eval.
  - by_eval.
  - exists final. split; [exact H1 | exact H2].
Defined.

(** ** The size of the chunks *)

(** X14: for a chunk size [N > 0], no chunk is empty or has more than [N]
    entries, every chunk but the last has exactly [N], and no key is in two
    chunks. *)
Theorem X14_chunk_sizes (N : nat) (data : Dict) chunks :
  0 < N → dict_ok data →
  chunks_of (Z.of_nat N) data = Some chunks →
  (∀ chunk, chunk ∈ chunks → 0 < length chunk ≤ N) ∧
  (∀ j chunk, chunks !! j = Some chunk → S j < length chunks → length chunk = N) ∧
  (∀ i j ci cj k, chunks !! i = Some ci → chunks !! j = Some cj →
     k ∈ keys ci → k ∈ keys cj → i = j).
Proof.
  intros HN Hok Hchunks.
  destruct (chunks_of_spec N data HN Hok) as (chunks' & Hchunks' & Hlen & Hslice & _).
  rewrite Hchunks in Hchunks'. injection Hchunks' as <-.
  assert ((length chunks - 1) * N < length data ∨ length chunks = 0) as Hlast.
  { destruct (length chunks) as [|c] eqn:Hc; [by right|left].
    pose proof (Z.mul_div_le (Z.of_nat (length data) + Z.of_nat N - 1) (Z.of_nat N)
                  ltac:(lia)) as Hdiv.
    rewrite <-Hlen in Hdiv. nia. }
  assert (∀ j chunk, chunks !! j = Some chunk →
            chunk = take N (drop (j * N) data) ∧ j * N < length data ∧
            j < length chunks) as Hshape.
  { intros j chunk Hj. pose proof (lookup_lt_Some _ _ _ Hj) as Hlt.
    rewrite Hslice in Hj by done. injection Hj as <-. unfold slice.
    replace (j * N + N - j * N) with N by lia. split; [done|]. split; [nia|done]. }
  split_and!.
  - intros chunk (j & Hj)%list_elem_of_lookup.
    destruct (Hshape j chunk Hj) as (-> & Hpos & _).
    rewrite length_take, length_drop. lia.
  - intros j chunk Hj Hnext. destruct (Hshape j chunk Hj) as (-> & _ & _).
    rewrite length_take, length_drop. nia.
  - intros i j ci cj k Hi Hj Hki Hkj.
    destruct (Hshape i ci Hi) as (-> & _ & _).
    destruct (Hshape j cj Hj) as (-> & _ & _).
    unfold keys in Hki, Hkj. rewrite fmap_take, fmap_drop in Hki, Hkj.
    apply list_elem_of_lookup in Hki as (x & Hx).
    apply list_elem_of_lookup in Hkj as (y & Hy).
    apply lookup_take_Some in Hx as [Hx Hxn]. apply lookup_take_Some in Hy as [Hy Hyn].
    rewrite lookup_drop in Hx, Hy.
    pose proof (NoDup_lookup _ _ _ _ Hok Hx Hy) as Heq. nia.
Qed.

Lemma X14_witness :
  Forall (fun chunk : Dict => 0 < length chunk ≤ 2)
         [[("k1", JStr "v1"); ("k2", JStr "v2")]; [("k3", JStr "v3")]].
Proof.
  apply Forall_forall.
  apply (X14_chunk_sizes 2 Sample.backlog3).
  - lia.
  - by_eval.
  - reflexivity.
Defined.

(** ** Escaping *)

(** X15: doubling the apostrophes loses nothing: different values stay
    different, the result has twice the apostrophes and is longer by their
    number, and a value without apostrophes is left as it is. *)
Theorem X15_escape :
  (∀ s1 s2, escape s1 = escape s2 → s1 = s2) ∧
  (∀ s, apostrophes (escape s) = 2 * apostrophes s ∧
        String.length (escape s) = String.length s + apostrophes s) ∧
  (∀ s, apostrophes s = 0 → escape s = s).
Proof.
  split_and!.
  - induction s1 as [|c1 s1 IH]; intros [|c2 s2]; cbn [escape]; try done.
    + by case_match.
    + by case_match.
    + destruct (Ascii.eqb c1 apostrophe) eqn:H1, (Ascii.eqb c2 apostrophe) eqn:H2.
      * apply Ascii.eqb_eq in H1, H2. intros [= Heq]. subst. f_equal. by apply IH.
      * intros [= <- Heq]. by rewrite Ascii.eqb_refl in H2.
      * intros [= -> Heq]. by rewrite Ascii.eqb_refl in H1.
      * intros [= -> Heq]. f_equal. by apply IH.
  - induction s as [|c s [IH1 IH2]]; [done|]. cbn [escape apostrophes String.length].
    destruct (Ascii.eqb c apostrophe) eqn:Hc; cbn [apostrophes String.length].
    + rewrite Ascii.eqb_refl, IH1, IH2. lia.
    + rewrite Hc, IH1, IH2. lia.
  - induction s as [|c s IH]; [done|]. cbn [escape apostrophes].
    destruct (Ascii.eqb c apostrophe); [done|]. intros Hs. by rewrite IH.
Qed.

Lemma X15_witness : escape "Pokeball" = "Pokeball" ∧ escape "It's here" = "It''s here".
Proof.
  destruct X15_escape as (_ & _ & Hplain). split; [|reflexivity].
  apply Hplain. reflexivity.
Defined.

(** ** The archive scan *)

Lemma get_fold_strings (data : Dict) : ∀ (target : Dict) k,
  dict_ok data →
  get k (fold_strings data target)
  = match get k data with
    | Some (JStr value) => Some (JStr (escape value))
    | _ => get k target
    end.
Proof.
  unfold fold_strings, dict_ok, keys.
  induction data as [|[k0 v0] data IH]; intros target k Hok; [done|].
  cbn [fmap list_fmap fst] in Hok. apply NoDup_cons in Hok as [Hk0 Hok].
  cbn [foldl get fst snd]. rewrite IH by done.
  destruct (decide (k = k0)) as [->|Hne].
  - apply get_None in Hk0. rewrite Hk0.
    destruct v0; try done. by rewrite get_setitem, decide_True.
  - destruct (get k data) as [[]|]; try done;
      destruct v0; try done; by rewrite get_setitem, decide_False.
Qed.

Lemma dict_ok_dict_of_items (items : list (string * json)) : dict_ok (dict_of_items items).
Proof. unfold dict_of_items. apply dict_ok_update. unfold dict_ok, keys. cbn. constructor. Qed.

Lemma wanted_filters filename :
  wanted filename = true ↔
  negb (endswith filename "en_us.json" || endswith filename "ja_jp.json") = false ∧
  negb (contains "assets" filename) || negb (contains "lang" filename) = false.
Proof.
  unfold wanted.
  destruct (endswith filename "en_us.json" || endswith filename "ja_jp.json"),
    (contains "assets" filename), (contains "lang" filename); cbn; naive_solver.
Qed.

Lemma read_members_skip zip_name filename content rest t :
  wanted filename = false →
  read_members zip_name ((filename, content) :: rest) t = read_members zip_name rest t.
Proof.
  intros Hw. cbn [read_members]. unfold wanted in Hw.
  destruct (endswith filename "en_us.json" || endswith filename "ja_jp.json"); [|done].
  destruct (contains "assets" filename), (contains "lang" filename); done.
Qed.

Lemma read_members_wanted zip_name filename content rest t :
  wanted filename = true →
  read_members zip_name ((filename, content) :: rest) t
  = match content with
    | Undecodable =>
        read_members zip_name rest (note WARNING (MemberUnreadable zip_name filename) t)
    | Corrupt => (RaisedBadZipFile, t)
    | Broken => (Aborted, t)
    | Parsed (JObj fields) =>
        if endswith filename "en_us.json" then
          read_members zip_name rest
            (Tables (fold_strings (dict_of_items fields) (all_en_us t)) (all_ja_jp t)
                    (notes t))
        else
          read_members zip_name rest
            (Tables (all_en_us t) (fold_strings (dict_of_items fields) (all_ja_jp t))
                    (notes t))
    | Parsed _ => (Aborted, t)
    end.
Proof.
  intros [H1 H2]%wanted_filters. cbn [read_members]. by rewrite H1, H2.
Qed.

Lemma scan_archives_app files1 files2 t :
  scan_archives (files1 ++ files2) t = scan_archives files2 (scan_archives files1 t).
Proof. unfold scan_archives. apply foldl_app. Qed.

Lemma scan_one_member zip_name filename (fields : list (string * json)) (t : tables) :
  wanted filename = true →
  scan_archives [(zip_name, Zip [(filename, Parsed (JObj fields))])] t
  = let t' := note INFO (ProcessingArchive zip_name) t in
    if endswith filename "en_us.json" then
      Tables (fold_strings (dict_of_items fields) (all_en_us t)) (all_ja_jp t) (notes t')
    else
      Tables (all_en_us t) (fold_strings (dict_of_items fields) (all_ja_jp t)) (notes t').
Proof.
  intros Hw. unfold scan_archives. cbn [foldl fst snd]. unfold _extract_lang_from_zip.
  rewrite read_members_wanted by done.
  by destruct (endswith filename "en_us.json").
Qed.

(** X16: the effect of one language file.  Scanning an archive whose only
    member is a wanted source-language file holding a JSON object sets, for
    every key the object gives a string, the source table to the escaped
    string, whatever earlier archives gave for the key; keys the object
    gives another kind of value keep what they had; the target table is not
    touched.  A target-language file does the same to the target table. *)
Theorem X16_last_archive_wins zip_name filename (fields : list (string * json))
    files (t : tables) :
  wanted filename = true →
  let before := scan_archives files t in
  let after_ :=
    scan_archives (files ++ [(zip_name, Zip [(filename, Parsed (JObj fields))])]) t in
  let hit (k : string) (old : option json) : option json :=
    match get k (dict_of_items fields) with
    | Some (JStr value) => Some (JStr (escape value))
    | _ => old
    end in
  if endswith filename "en_us.json" then
    (∀ k, get k (all_en_us after_) = hit k (get k (all_en_us before))) ∧
    all_ja_jp after_ = all_ja_jp before
  else
    (∀ k, get k (all_ja_jp after_) = hit k (get k (all_ja_jp before))) ∧
    all_en_us after_ = all_en_us before.
Proof.
  intros Hw before after_ hit. unfold after_, hit.
  rewrite scan_archives_app. fold before. generalize before. clear -Hw. intros before.
  rewrite (scan_one_member zip_name filename fields before Hw). cbv zeta.
  destruct (endswith filename "en_us.json"); cbn [all_en_us all_ja_jp];
    (split; [|done]); intros k; apply get_fold_strings, dict_ok_dict_of_items.
Qed.

Lemma X16_witness :
  let files := [("a.jar", Zip [("assets/a/lang/en_us.json",
                                Parsed (JObj [("a.x", JStr "old"); ("a.y", JStr "kept")]))])] in
  let last := ("b.jar", Zip [("assets/b/lang/en_us.json",
                              Parsed (JObj [("a.x", JStr "it's"); ("a.y", JNum 1)]))]) in
  let t := scan_archives (files ++ [last]) (Tables [] [] []) in
  get "a.x" (all_en_us t) = Some (JStr "it''s") ∧
  get "a.y" (all_en_us t) = Some (JStr "kept").
Proof.
  intros files last t.
  pose proof (X16_last_archive_wins "b.jar" "assets/b/lang/en_us.json"
                [("a.x", JStr "it's"); ("a.y", JNum 1)] files (Tables [] [] [])
                ltac:(reflexivity)) as H.
  cbn zeta in H. change (endswith "assets/b/lang/en_us.json" "en_us.json") with true in H.
  destruct H as [H _]. unfold t, last. split; rewrite H; reflexivity.
Defined.

Lemma collected_eq t1 t2 :
  collected t1 = collected t2 ↔ all_en_us t1 = all_en_us t2 ∧ all_ja_jp t1 = all_ja_jp t2.
Proof.
  unfold collected. split; [intros [= -> ->]|intros [-> ->]]; done.
Qed.

Lemma collected_note l m t : collected (note l m t) = collected t.
Proof. done. Qed.

Lemma read_members_collected zip_name members : ∀ t1 t2,
  collected t1 = collected t2 →
  (read_members zip_name members t1).1 = (read_members zip_name members t2).1 ∧
  collected (read_members zip_name members t1).2
  = collected (read_members zip_name members t2).2.
Proof.
  induction members as [|[filename content] rest IH]; intros t1 t2 Heq; [done|].
  destruct (wanted filename) eqn:Hw.
  - rewrite !read_members_wanted by done.
    pose proof Heq as [Hen Hja]%collected_eq.
    destruct content as [| | |[]]; try done.
    + apply IH. by rewrite !collected_note.
    + rewrite Hen, Hja. destruct (endswith filename "en_us.json"); by apply IH.
  - rewrite !read_members_skip by done. by apply IH.
Qed.

Lemma _extract_lang_from_zip_collected zip_name zip t1 t2 :
  collected t1 = collected t2 →
  collected (_extract_lang_from_zip zip_name zip t1)
  = collected (_extract_lang_from_zip zip_name zip t2).
Proof.
  intros Heq. destruct zip as [| |members]; try done.
  unfold _extract_lang_from_zip.
  destruct (read_members_collected zip_name members t1 t2 Heq) as [Hend Hcol].
  destruct (read_members zip_name members t1) as [e1 r1],
    (read_members zip_name members t2) as [e2 r2].
  cbn [fst snd] in *. subst e2. by destruct e1.
Qed.

Lemma scan_archives_collected files : ∀ t1 t2,
  collected t1 = collected t2 →
  collected (scan_archives files t1) = collected (scan_archives files t2).
Proof.
  unfold scan_archives.
  induction files as [|f files IH]; intros t1 t2 Heq; [done|].
  cbn [foldl]. apply IH, _extract_lang_from_zip_collected. by rewrite !collected_note.
Qed.

Lemma read_members_effective zip_name members : ∀ t,
  (read_members zip_name members t).1
  = (read_members zip_name (List.filter effective members) t).1 ∧
  collected (read_members zip_name members t).2
  = collected (read_members zip_name (List.filter effective members) t).2.
Proof.
  induction members as [|[filename content] rest IH]; intros t; [done|].
  assert (Heff : effective (filename, content)
                 = wanted filename && match content with Undecodable => false | _ => true end)
    by done.
  cbn [List.filter]. rewrite Heff. clear Heff.
  destruct (wanted filename) eqn:Hw; cbn [andb].
  - destruct content as [| | |data].
    + rewrite read_members_wanted by done.
      destruct (IH t) as [<- <-]. by apply read_members_collected.
    + by rewrite !read_members_wanted.
    + by rewrite !read_members_wanted.
    + rewrite !read_members_wanted by done.
      destruct data; try done. destruct (endswith filename "en_us.json"); apply IH.
  - rewrite read_members_skip by done. apply IH.
Qed.

Lemma scan_archives_cons f files t :
  scan_archives (f :: files) t
  = scan_archives files
      (_extract_lang_from_zip (basename f.1) f.2 (note INFO (ProcessingArchive f.1) t)).
Proof. done. Qed.

Lemma cleaned_cons zip_name zip files :
  cleaned ((zip_name, zip) :: files)
  = match zip with
    | Zip members => (zip_name, Zip (List.filter effective members)) :: cleaned files
    | _ => cleaned files
    end.
Proof. by destruct zip. Qed.

Lemma scan_archives_cleaned files : ∀ t1 t2,
  collected t1 = collected t2 →
  collected (scan_archives files t1) = collected (scan_archives (cleaned files) t2).
Proof.
  induction files as [|[zip_name zip] files IH]; intros t1 t2 Heq.
  - by apply scan_archives_collected.
  - rewrite cleaned_cons, scan_archives_cons. cbn [fst snd].
    destruct zip as [| |members]; [by apply IH..|].
    rewrite scan_archives_cons. cbn [fst snd]. apply IH.
    unfold _extract_lang_from_zip.
    destruct (read_members_effective (basename zip_name) members
                (note INFO (ProcessingArchive zip_name) t1)) as [Hend Hcol].
    destruct (read_members_collected (basename zip_name) (List.filter effective members)
                (note INFO (ProcessingArchive zip_name) t1)
                (note INFO (ProcessingArchive zip_name) t2)) as [Hend' Hcol'];
      [by rewrite !collected_note|].
    destruct (read_members (basename zip_name) members _) as [e1 r1],
      (read_members (basename zip_name) (List.filter effective members)
         (note INFO (ProcessingArchive zip_name) t1)) as [e2 r2],
      (read_members (basename zip_name) (List.filter effective members)
         (note INFO (ProcessingArchive zip_name) t2)) as [e3 r3].
    cbn [fst snd] in *. subst e2 e3. destruct e1; rewrite ?collected_note; congruence.
Qed.

(** X17: what the scan collects does not depend on the files it cannot
    use.  Archives that are no zip files or cannot be opened, members whose
    name is not that of a language file under assets and lang, and members
    that are not valid JSON text can be taken away without changing the two
    tables (they change the log only). *)
Theorem X17_unusable_files_ignored (files : list (string * archive)) (t : tables) :
  collected (scan_archives files t) = collected (scan_archives (cleaned files) t).
Proof. by apply scan_archives_cleaned. Qed.





Lemma escaped_table_nil : escaped_table [].
Proof. split; [apply NoDup_nil_2 | done]. Qed.

Lemma escaped_table_fold_strings (data : Dict) : ∀ target,
  escaped_table target → escaped_table (fold_strings data target).
Proof.
  unfold fold_strings.
  induction data as [|[k0 v0] data IH]; intros target Ht; [done|].
  cbn [foldl fst snd]. apply IH. destruct v0; try done.
  destruct Ht as [Hok Hval]. split; [by apply dict_ok_setitem|].
  intros k v. rewrite get_setitem. case_decide; [|apply Hval].
  intros [= <-]. eauto.
Qed.

Lemma escaped_read_members zip_name members : ∀ t,
  escaped_table (all_en_us t) → escaped_table (all_ja_jp t) →
  escaped_table (all_en_us (read_members zip_name members t).2) ∧
  escaped_table (all_ja_jp (read_members zip_name members t).2).
Proof.
  induction members as [|[filename content] rest IH]; intros t Hen Hja; [done|].
  destruct (wanted filename) eqn:Hw.
  - rewrite read_members_wanted by done.
    destruct content as [| | |[]]; try done.
    + by apply IH.
    + destruct (endswith filename "en_us.json"); apply IH; cbn [all_en_us all_ja_jp];
        try done; by apply escaped_table_fold_strings.
  - rewrite read_members_skip by done. by apply IH.
Qed.

Lemma escaped_scan_archives files : ∀ t,
  escaped_table (all_en_us t) → escaped_table (all_ja_jp t) →
  escaped_table (all_en_us (scan_archives files t)) ∧
  escaped_table (all_ja_jp (scan_archives files t)).
Proof.
  induction files as [|[zip_name zip] files IH]; intros t Hen Hja; [done|].
  rewrite scan_archives_cons. cbn [fst snd].
  destruct zip as [| |members]; [by apply IH..|].
  unfold _extract_lang_from_zip.
  destruct (escaped_read_members (basename zip_name) members
              (note INFO (ProcessingArchive zip_name) t) Hen Hja) as [Hen' Hja'].
  destruct (read_members (basename zip_name) members _) as [[] r]; by apply IH.
Qed.

Lemma escaped_scan_folders mods datapacks :
  escaped_table (all_en_us (scan_folders mods datapacks)) ∧
  escaped_table (all_ja_jp (scan_folders mods datapacks)).
Proof.
  unfold scan_folders.
  assert (∀ t, escaped_table (all_en_us t) → escaped_table (all_ja_jp t) →
    escaped_table (all_en_us match datapacks with
                             | Some files => scan_archives files (note INFO DatapacksFolder t)
                             | None => note WARNING DatapacksMissing t
                             end) ∧
    escaped_table (all_ja_jp match datapacks with
                             | Some files => scan_archives files (note INFO DatapacksFolder t)
                             | None => note WARNING DatapacksMissing t
                             end)) as Hsecond.
  { intros t Hen Hja. destruct datapacks; [by apply escaped_scan_archives | done]. }
  destruct mods as [files|]; apply Hsecond; cbn [note all_en_us all_ja_jp];
    try apply escaped_table_nil; by apply escaped_scan_archives; apply escaped_table_nil.
Qed.

(** X19: the scan collects escaped strings only.  Whatever the folders
    hold, the two tables the scan builds have no repeated key and every
    value in them is a string in which the apostrophes of the archive's
    string were doubled; values of another JSON type never get in.  So,
    when the write goes through, the difference file of the first stage
    holds such strings only. *)
Theorem X19_only_escaped_strings strftime mods datapacks (w : World) :
  disk w = [] →
  let t := scan_folders mods datapacks in
  escaped_table (all_en_us t) ∧ escaped_table (all_ja_jp t) ∧
  ∃ m d,
    lang_diff_path (fs (after (extract_lang_diff_of strftime mods datapacks) w))
      !! strftime (clock w) = Some (Entry m (Doc d)) ∧
    ∀ k v, get k d = Some v → ∃ s, v = JStr (escape s).
Proof.
  intros Hdisk t. destruct (escaped_scan_folders mods datapacks) as [Hen Hja].
  split; [done|]. split; [done|].
  unfold extract_lang_diff_of. fold t. unfold after.
  destruct (extract_lang_diff_spec strftime (all_en_us t) (all_ja_jp t) w)
    as (w' & J & -> & _ & Hfile).
  destruct (Hfile Hdisk) as [m Hm]. exists m, (lang_diff (all_en_us t) (all_ja_jp t)).
  split; [done|]. intros k v [Hget _]%lang_diff_contract. by apply Hen in Hget.
Qed.

Lemma X19_witness :
  ∃ m d,
    lang_diff_path
      (fs (after (extract_lang_diff_of Sample.strftime0
                    (Some [("a.jar", Zip [("assets/a/lang/en_us.json",
                                           Parsed (JObj [("a.x", JStr "Don't");
                                                         ("a.n", JNum 3)]))])])
                    None)
                 Sample.world_idle))
      !! "251104" = Some (Entry m (Doc d)) ∧
    ∀ k v, get k d = Some v → ∃ s, v = JStr (escape s).
Proof.
  exact (proj2 (proj2 (X19_only_escaped_strings Sample.strftime0
           (Some [("a.jar", Zip [("assets/a/lang/en_us.json",
                                  Parsed (JObj [("a.x", JStr "Don't"); ("a.n", JNum 3)]))])])
           None Sample.world_idle eq_refl))).
Defined.

(** ** The stages one after another *)

Lemma _save_json_ok data p w :
  disk w = [] →
  _save_json data p w
  = (Val (), MkWorld (store p (Entry (clock w) (Doc data)) (fs w)) (S (clock w))
                     (logs w ++ [(INFO, Saved p)]) [] (journal w ++ [(p, data)])).
Proof.
  intros Hd. unfold _save_json, try_except, write_json, mbind, M_bind, log.
  rewrite Hd. done.
Qed.

Lemma latest_insert_newest (directory : gmap string entry) nm c x :
  older_than c directory →
  latest (<[nm := Entry c x]> directory) = Some (nm, Entry c x).
Proof.
  intros Hold. unfold latest.
  pose proof (py_max_greatest (fun f : string * entry => mtime f.2)
                (map_to_list (<[nm := Entry c x]> directory))) as H.
  destruct (py_max _ _) as [[nm' e']|].
  - destruct H as [Hin Hge]. apply elem_of_map_to_list in Hin.
    specialize (Hge (nm, Entry c x)).
    rewrite elem_of_map_to_list, lookup_insert_eq in Hge. specialize (Hge eq_refl).
    cbn in Hge. destruct (decide (nm' = nm)) as [->|Hne].
    + rewrite lookup_insert_eq in Hin. by simplify_eq.
    + rewrite lookup_insert_ne in Hin by done. apply Hold in Hin. cbn in Hin. lia.
  - apply map_to_list_empty_iff in H. by apply insert_non_empty in H.
Qed.

Lemma older_than_mono c c' (directory : gmap string entry) :
  c ≤ c' → older_than c directory → older_than c' directory.
Proof. intros Hc Hold nm e He. apply Hold in He. cbn in *. lia. Qed.

Section frame_facts.
Context {X : Type} (proj : FS → X).

Lemma keeps_gen_try {A} (body : M A) (handler : exn → M A) :
  keeps proj body → (∀ e, keeps proj (handler e)) → keeps proj (try_except body handler).
Proof.
  intros Hm Hh w. unfold after, try_except. specialize (Hm w). unfold after in Hm.
  destruct (body w) as [[a|e] w1]; cbn [snd] in *; [done|].
  rewrite <-Hm. apply Hh.
Qed.

Lemma keeps_gen_sleep seconds : keeps proj (sleep seconds).
Proof. done. Qed.

Lemma keeps_gen_call gemini chunk : keeps proj (_call_gemini_cli gemini chunk).
Proof.
  intros w. unfold after. destruct (_call_gemini_cli_spec gemini chunk w) as (L & ->). done.
Qed.

Hypothesis proj_progress : ∀ i e fs, proj (store (progress_file i) e fs) = proj fs.

Lemma keeps_gen_process_chunk cfg gemini n i chunk td :
  keeps proj (process_chunk cfg gemini n i chunk td).
Proof.
  unfold process_chunk.
  apply keeps_gen_bind; [apply keeps_gen_log|]. intros _.
  apply keeps_gen_try.
  - apply keeps_gen_bind; [apply keeps_gen_call|]. intros t.
    apply keeps_gen_bind; [apply keeps_gen_save; intros; apply proj_progress|]. intros _.
    apply keeps_gen_bind; [|intros _; apply keeps_gen_ret].
    case_decide; [|apply keeps_gen_ret].
    apply keeps_gen_bind; [apply keeps_gen_log | intros _; apply keeps_gen_sleep].
  - intros e. apply keeps_gen_bind; [apply keeps_gen_log|]. intros _.
    apply keeps_gen_bind; [apply keeps_gen_log|]. intros _. apply keeps_gen_ret.
Qed.

Lemma keeps_gen_translate_loop cfg gemini chunks : ∀ n s i td,
  keeps proj (translate_loop cfg gemini n s i chunks td).
Proof.
  induction chunks as [|chunk rest IH]; intros n s i td; cbn [translate_loop].
  - apply keeps_gen_ret.
  - case_decide; [apply IH|].
    apply keeps_gen_bind; [apply keeps_gen_process_chunk|]. intros td'. apply IH.
Qed.

End frame_facts.

Lemma advances_bind {A B} (m : M A) (f : A → M B) :
  advances m → (∀ a, advances (f a)) → advances (m ≫= f).
Proof.
  intros Hm Hf w. unfold after, mbind, M_bind. specialize (Hm w). unfold after in Hm.
  destruct (m w) as [[a|e] w1]; cbn [snd] in *; [|done].
  etrans; [exact Hm | apply Hf].
Qed.

Lemma advances_try {A} (body : M A) (handler : exn → M A) :
  advances body → (∀ e, advances (handler e)) → advances (try_except body handler).
Proof.
  intros Hm Hh w. unfold after, try_except. specialize (Hm w). unfold after in Hm.
  destruct (body w) as [[a|e] w1]; cbn [snd] in *; [done|].
  etrans; [exact Hm | apply Hh].
Qed.

Lemma advances_ret {A} (a : A) : advances (mret a : M A).
Proof. intros w. done. Qed.

Lemma advances_log l m : advances (log l m).
Proof. intros w. done. Qed.

Lemma advances_sleep seconds : advances (sleep seconds).
Proof. intros w. unfold after, sleep. cbn. lia. Qed.

Lemma advances_call gemini chunk : advances (_call_gemini_cli gemini chunk).
Proof.
  intros w. unfold after. destruct (_call_gemini_cli_spec gemini chunk w) as (L & ->). done.
Qed.

Lemma advances_save data p : advances (_save_json data p).
Proof.
  intros w. unfold after.
  destruct (_save_json_spec data p w) as (w' & -> & Hc & _). cbn [snd]. lia.
Qed.

Lemma advances_process_chunk cfg gemini n i chunk td :
  advances (process_chunk cfg gemini n i chunk td).
Proof.
  unfold process_chunk.
  apply advances_bind; [apply advances_log|]. intros _.
  apply advances_try.
  - apply advances_bind; [apply advances_call|]. intros t.
    apply advances_bind; [apply advances_save|]. intros _.
    apply advances_bind; [|intros _; apply advances_ret].
    case_decide; [|apply advances_ret].
    apply advances_bind; [apply advances_log | intros _; apply advances_sleep].
  - intros e. apply advances_bind; [apply advances_log|]. intros _.
    apply advances_bind; [apply advances_log|]. intros _. apply advances_ret.
Qed.

Lemma advances_translate_loop cfg gemini chunks : ∀ n s i td,
  advances (translate_loop cfg gemini n s i chunks td).
Proof.
  induction chunks as [|chunk rest IH]; intros n s i td; cbn [translate_loop].
  - apply advances_ret.
  - case_decide; [apply IH|].
    apply advances_bind; [apply advances_process_chunk|]. intros td'. apply IH.
Qed.


(** Steps through the load of a file known to hold a table. *)
Ltac mread H :=
  match goal with
  | |- context [(_load_json ?p ≫= _) ?w0] =>
      rewrite (bind_val _ _ _ _ _ (_load_json_doc p w0 _ _ H))
  end.

Lemma extract_lang_diff_handover strftime en ja w :
  disk w = [] →
  ∃ w', extract_lang_diff strftime en ja w = (Val (Finished (lang_diff en ja)), w') ∧
    fs w' = store (lang_diff_file (strftime (clock w)))
                  (Entry (clock w) (Doc (lang_diff en ja))) (fs w) ∧
    clock w' = S (clock w) ∧ disk w' = [].
Proof.
  intros Hd. unfold extract_lang_diff. mlog.
  rewrite (bind_val _ _ _ _ _ (date_str_eq _ _)). cbn [with_logs clock].
  match goal with |- ∃ _, (_save_json ?d ?p ≫= _) ?w0 = _ ∧ _ =>
    rewrite (bind_val _ _ _ _ _ (_save_json_ok d p w0 Hd)) end.
  mlog. rewrite mret_eq. eexists. split; [done|]. done.
Qed.

Lemma find_untranslated_handover strftime w all_diff :
  disk w = [] →
  latest_table (lang_diff_path (fs w)) = Some all_diff →
  let backlog := match lang_file_at (fs w) with
                 | None => all_diff
                 | Some _ => untranslated_of all_diff (existing w)
                 end in
  ∃ w', find_untranslated strftime w = (Val (Finished backlog), w') ∧
    fs w' = store (untranslated_file (strftime (clock w)))
                  (Entry (clock w) (Doc backlog)) (fs w) ∧
    clock w' = S (clock w) ∧ disk w' = [].
Proof.
  intros Hd (nm & m0 & Hlatest & Hlook)%latest_table_Some backlog.
  unfold find_untranslated. mlog.
  rewrite (bind_val _ _ _ _ _ (_get_latest_file_spec _ _ _)). cbn [with_logs fs].
  rewrite Hlatest. cbn [fmap option_fmap option_map fst].
  mread Hlook.
  rewrite (bind_val _ _ _ _ _ (exists_eq _ _)). cbn [stat with_logs fs].
  assert (∀ (t : Dict) (L : list (level * msg)),
    ∃ w',
      (date_str strftime ≫= fun date =>
         _save_json t (untranslated_file date);;
         log INFO Stage2Done;; mret (Finished t)) (with_logs L w)
      = (Val (Finished t), w') ∧
      fs w' = store (untranslated_file (strftime (clock w))) (Entry (clock w) (Doc t)) (fs w) ∧
      clock w' = S (clock w) ∧ disk w' = []) as Htail.
  { intros t L. rewrite (bind_val _ _ _ _ _ (date_str_eq _ _)). cbn [with_logs clock].
    match goal with |- ∃ _, (_save_json ?d ?p ≫= _) ?w0 = _ ∧ _ =>
      rewrite (bind_val _ _ _ _ _ (_save_json_ok d p w0 Hd)) end.
    mlog. rewrite mret_eq. eexists. split; [done|]. done. }
  unfold backlog, existing.
  destruct (lang_file_at (fs w)) as [[m1 c1]|] eqn:Hlf.
  - rewrite bool_decide_true by eauto. cbn [negb]. mlog.
    match goal with |- ∃ _, (_load_json ?p ≫= _) ?w0 = _ ∧ _ =>
      destruct (_load_json_spec p w0) as (L1 & Hload1 & _);
      cbn [stat with_logs fs] in Hload1; rewrite Hlf in Hload1;
      rewrite (bind_val _ _ _ _ _ Hload1) end.
    mlog.
    destruct c1 as [|translated]; cbn [default from_option]; apply Htail.
  - rewrite bool_decide_false by (by intros [? ?]). cbn [negb]. mlog. apply Htail.
Qed.

Lemma auto_translate_handover cfg gemini strftime resume w data chunks :
  disk w = [] →
  latest_table (untranslated_path (fs w)) = Some data →
  data ≠ [] →
  chunks_of (translation_chunk_size cfg) data = Some chunks →
  let start := (resume_point resume (fs w)).1 in
  let start_chunk := (resume_point resume (fs w)).2 in
  let t := foldl (merge_chunk gemini) start (drop (Z.to_nat (start_chunk - 1)) chunks) in
  ∃ w' c, auto_translate cfg gemini strftime resume w = (Val (Finished t), w') ∧
    clock w ≤ c ∧ c < clock w' ∧ disk w' = [] ∧
    translated_path (fs w')
    = <[strftime (clock w) := Entry c (Doc t)]> (translated_path (fs w)) ∧
    lang_file_at (fs w') = lang_file_at (fs w) ∧
    progress_path (fs w') = ∅ ∧
    lang_diff_path (fs w') = lang_diff_path (fs w) ∧
    untranslated_path (fs w') = untranslated_path (fs w).
Proof.
  intros Hd (nm & m0 & Hlatest & Hlook)%latest_table_Some Hne Hchunks start start_chunk t.
  unfold auto_translate. mlog.
  rewrite (bind_val _ _ _ _ _ (_get_latest_file_spec _ _ _)).
  cbn [with_logs fs]. rewrite Hlatest. cbn [fmap option_fmap option_map fst].
  mread Hlook.
  destruct data as [|kv data']; [done|].
  rewrite (bind_val _ _ _ _ _ (date_str_eq _ _)). cbn [with_logs clock]. mlog.
  unfold _create_chunks. rewrite Hchunks. mlog.
  match goal with |- ∃ _ _, (_ ≫= _) ?w0 = _ ∧ _ =>
    destruct (resume_from_spec resume w0) as [L1 Hres];
    rewrite (bind_val _ _ _ _ _ Hres); rewrite with_logs_app;
    cbn [with_logs fs] end.
  fold start start_chunk.
  destruct (resume_point resume (fs w)) as [st sc] eqn:Hrp. cbn [fst snd] in *.
  match goal with |- ∃ _ _, (_ ≫= _) ?w0 = _ ∧ _ =>
    destruct (translate_loop_spec cfg gemini chunks (length chunks) sc 1 st w0)
      as (w1 & J1 & Hloop & (_ & Hd1 & _) & _);
    pose proof (keeps_gen_translate_loop translated_path ltac:(done)
                  cfg gemini chunks (length chunks) sc 1 st w0) as Htp;
    pose proof (keeps_gen_translate_loop lang_file_at ltac:(done)
                  cfg gemini chunks (length chunks) sc 1 st w0) as Hlf;
    pose proof (keeps_gen_translate_loop lang_diff_path ltac:(done)
                  cfg gemini chunks (length chunks) sc 1 st w0) as Hld;
    pose proof (keeps_gen_translate_loop untranslated_path ltac:(done)
                  cfg gemini chunks (length chunks) sc 1 st w0) as Hup;
    pose proof (advances_translate_loop cfg gemini chunks (length chunks) sc 1 st w0) as Hc;
    unfold after in Htp, Hlf, Hld, Hup, Hc; rewrite Hloop in Htp, Hlf, Hld, Hup, Hc;
    cbn [snd with_logs fs clock disk] in Htp, Hlf, Hld, Hup, Hc, Hd1;
    rewrite (bind_val _ _ _ _ _ Hloop) end.
  fold t. specialize (Hd1 Hd).
  rewrite (bind_val _ _ _ _ _ (_save_json_ok t _ w1 Hd1)). mlog.
  match goal with |- ∃ _ _, (_cleanup_progress_files ≫= _) ?w2 = _ ∧ _ =>
    destruct (_cleanup_progress_files_exact w2 eq_refl) as (L3 & Hclean & _);
    rewrite (bind_val _ _ _ _ _ Hclean) end.
  rewrite mret_eq. eexists _, (clock w1). split; [done|].
  cbn. rewrite Htp, Hlf, Hld, Hup. split_and!; try done; lia.
Qed.

Lemma build_resource_pack_frame cfg :
  keeps (fun fs => (lang_diff_path fs, untranslated_path fs, translated_path fs,
                    progress_path fs))
        (build_resource_pack cfg).
Proof. unfold build_resource_pack. repeat keeps_step. Qed.

Lemma main_dispatch_all_handover cfg gemini strftime mods datapacks resume
    (w : World) (chunks : list Dict) :
  disk w = [] →
  timely w →
  let t := scan_folders mods datapacks in
  let all_diff := lang_diff (all_en_us t) (all_ja_jp t) in
  let backlog := match lang_file_at (fs w) with
                 | None => all_diff
                 | Some _ => untranslated_of all_diff (existing w)
                 end in
  backlog ≠ [] →
  chunks_of (translation_chunk_size cfg) backlog = Some chunks →
  let start := (resume_point resume (fs w)).1 in
  let start_chunk := (resume_point resume (fs w)).2 in
  let translated :=
    foldl (merge_chunk gemini) start (drop (Z.to_nat (start_chunk - 1)) chunks) in
  let run := main_dispatch cfg gemini strftime mods datapacks All resume in
  result run w = Val () ∧
  (∃ m, lang_file_at (fs (after run w))
        = Some (Entry m (Doc (dict_of_items
                                (sorted_items (update (existing w) translated)))))) ∧
  latest_table (lang_diff_path (fs (after run w))) = Some all_diff ∧
  latest_table (untranslated_path (fs (after run w))) = Some backlog ∧
  latest_table (translated_path (fs (after run w))) = Some translated ∧
  progress_path (fs (after run w)) = ∅.
Proof.
  intros Hd (Ht1 & Ht2 & Ht3) t all_diff backlog Hne Hchunks start start_chunk
    translated run.
  unfold run, main_dispatch, extract_lang_diff_of, result, after. fold t.
  (* stage 1 *)
  destruct (extract_lang_diff_handover strftime (all_en_us t) (all_ja_jp t) w Hd)
    as (w1 & H1 & Hfs1 & Hc1 & Hd1).
  fold all_diff in H1, Hfs1. rewrite (bind_val _ _ _ _ _ H1).
  assert (latest_table (lang_diff_path (fs w1)) = Some all_diff) as Hl1.
  { rewrite Hfs1. cbn [store lang_diff_path]. unfold latest_table.
    by rewrite latest_insert_newest. }
  (* stage 2 *)
  pose proof (find_untranslated_handover strftime w1 all_diff Hd1 Hl1) as H2.
  cbv zeta in H2.
  assert (match lang_file_at (fs w1) with
          | None => all_diff
          | Some _ => untranslated_of all_diff (existing w1)
          end = backlog) as Hb.
  { unfold backlog, existing. by rewrite Hfs1. }
  rewrite Hb in H2. destruct H2 as (w2 & H2 & Hfs2 & Hc2 & Hd2).
  rewrite (bind_val _ _ _ _ _ H2).
  assert (latest_table (untranslated_path (fs w2)) = Some backlog) as Hl2.
  { rewrite Hfs2. cbn [store untranslated_path]. unfold latest_table.
    rewrite latest_insert_newest; [done|].
    rewrite Hfs1. cbn [store untranslated_path].
    eapply older_than_mono; [|exact Ht2]. lia. }
  (* stage 3 *)
  pose proof (auto_translate_handover cfg gemini strftime resume w2 backlog chunks
                Hd2 Hl2 Hne Hchunks) as H3.
  cbv zeta in H3.
  assert (resume_point resume (fs w2) = resume_point resume (fs w)) as Hrp.
  { unfold resume_point. by rewrite Hfs2, Hfs1. }
  rewrite Hrp in H3. fold start start_chunk in H3. fold translated in H3.
  destruct H3 as (w3 & c & H3 & Hc3 & Hc3' & Hd3 & Htp3 & Hlf3 & Hpp3 & Hld3 & Hup3).
  rewrite (bind_val _ _ _ _ _ H3).
  assert (latest (translated_path (fs w3))
          = Some (strftime (clock w2), Entry c (Doc translated))) as Hl3.
  { rewrite Htp3. apply latest_insert_newest.
    rewrite Hfs2, Hfs1. cbn [store translated_path].
    eapply older_than_mono; [|exact Ht3]. lia. }
  (* stage 4 *)
  destruct (build_resource_pack_spec cfg w3 (obstructed_clear w3 Hd3))
    as (w4 & J4 & H4 & _ & Hpub).
  assert (build_resource_pack_result (fs w3)
          = Val (Finished (dict_of_items (sorted_items (update (existing w) translated)))))
    as Hres.
  { unfold build_resource_pack_result. rewrite Hl3, Hlf3, Hfs2, Hfs1.
    cbn [store lang_file_at]. unfold existing.
    by destruct (lang_file_at (fs w)) as [[? [|?]]|]. }
  rewrite Hres in H4. rewrite (bind_val _ _ _ _ _ H4). rewrite mret_eq. cbn [fst snd].
  destruct (Hpub Hd3 _ Hres) as (m & m' & Hlang & _).
  pose proof (build_resource_pack_frame cfg w3) as Hframe.
  unfold after in Hframe. rewrite H4 in Hframe. cbn [snd] in Hframe.
  injection Hframe as Hf1 Hf2 Hf3 Hf4.
  split; [done|]. split; [by exists m|].
  rewrite Hf1, Hf2, Hf3, Hf4, Hld3, Hup3. split_and!.
  - by rewrite Hfs2.
  - done.
  - unfold latest_table. by rewrite Hl3.
  - done.
Qed.

(** X20: the action [all] on a disk without faults and a working directory
    without files dated in the future, when the backlog, the difference of
    the scanned tables against the published table, is not empty.  Each
    stage then finds the artifact its predecessor has just written, whatever
    older artifacts the directories hold, and what gets published is the
    published table updated with the table the translation stage ends with
    on that backlog, sorted by key.  No exception reaches the handlers of
    main and no checkpoint is left. *)
Theorem X20_all_stages_hand_over cfg gemini strftime mods datapacks resume
    (w : World) (chunks : list Dict) :
  disk w = [] →
  timely w →
  let t := scan_folders mods datapacks in
  let all_diff := lang_diff (all_en_us t) (all_ja_jp t) in
  let backlog := match lang_file_at (fs w) with
                 | None => all_diff
                 | Some _ => untranslated_of all_diff (existing w)
                 end in
  backlog ≠ [] →
  chunks_of (translation_chunk_size cfg) backlog = Some chunks →
  let start := (resume_point resume (fs w)).1 in
  let start_chunk := (resume_point resume (fs w)).2 in
  let translated :=
    foldl (merge_chunk gemini) start (drop (Z.to_nat (start_chunk - 1)) chunks) in
  let run := main_dispatch cfg gemini strftime mods datapacks All resume in
  result run w = Val () ∧
  published (after run w)
  = Some (dict_of_items (sorted_items (update (existing w) translated))) ∧
  latest_table (lang_diff_path (fs (after run w))) = Some all_diff ∧
  latest_table (untranslated_path (fs (after run w))) = Some backlog ∧
  latest_table (translated_path (fs (after run w))) = Some translated ∧
  progress_path (fs (after run w)) = ∅.
Proof.
  intros Hd Ht t all_diff backlog Hne Hchunks start start_chunk translated run.
  destruct (main_dispatch_all_handover cfg gemini strftime mods datapacks resume w chunks
              Hd Ht Hne Hchunks) as (Hres & [m Hlang] & Hrest).
  split; [exact Hres|]. split; [|exact Hrest].
  unfold published, run. by rewrite Hlang.
Qed.

Lemma X20_witness :
  published
    (after (main_dispatch Sample.cfg2 Sample.steady Sample.strftime0
              (Some [("a.jar", Zip [("assets/a/lang/en_us.json",
                                     Parsed (JObj [("a.x", JStr "Hello");
                                                   ("a.y", JStr "World");
                                                   ("a.z", JStr "Bye")]))])])
              None All None)
           Sample.world_diff)
  = Some [("a.x", JStr "こんにちは"); ("a.y", JStr "World!"); ("a.z", JStr "Bye!")].
Proof.
  etrans.
  - refine (proj1 (proj2 (X20_all_stages_hand_over Sample.cfg2 Sample.steady
              Sample.strftime0
              (Some [("a.jar", Zip [("assets/a/lang/en_us.json",
                                     Parsed (JObj [("a.x", JStr "Hello");
                                                   ("a.y", JStr "World");
                                                   ("a.z", JStr "Bye")]))])])
              None None Sample.world_diff
              [[("a.y", JStr "World"); ("a.z", JStr "Bye")]] eq_refl _ _ _))).
    + by_eval.
    + vm_compute. discriminate.
    + vm_compute. reflexivity.
  - vm_compute. reflexivity.
Defined.

Lemma chunks_of_None chunk_size data :
  chunks_of chunk_size data = None ↔ chunk_size = 0%Z.
Proof.
  unfold chunks_of, py_range. repeat case_decide; naive_solver.
Qed.

Lemma build_resource_pack_obstructed cfg w (batch : Dict) :
  latest_table (translated_path (fs w)) = Some batch →
  obstructed w = true →
  ∃ w', build_resource_pack cfg w = (Exc OSError, w') ∧
        fs w' = fs w ∧ journal w' = journal w.
Proof.
  intros (nm & m0 & Hlatest & Hlook)%latest_table_Some Hob.
  unfold build_resource_pack. mlog.
  rewrite (bind_val _ _ _ _ _ (_get_latest_file_spec _ _ _)). cbn [with_logs fs].
  rewrite Hlatest. cbn [fmap option_fmap option_map fst].
  mread Hlook. mlog.
  rewrite (bind_val _ _ _ _ _ (exists_eq _ _)). cbn [stat with_logs fs].
  assert (∀ (base : Dict) (L : list (level * msg)),
    let t := dict_of_items (sorted_items (update base batch)) in
    ∃ w',
      (log INFO (KeysBefore (length base));;
       log INFO (KeysAfter (length (update base batch)));;
       log INFO CreatingDir;;
       mkdir;;
       _save_json (pack_meta cfg) pack_mcmeta_file;;
       _save_json t lang_file;;
       log INFO PackBuilt;;
       log INFO PackLocation;;
       log INFO Stage4Done;;
       mret (Finished t)) (with_logs L w)
      = (Exc OSError, w') ∧ fs w' = fs w ∧ journal w' = journal w) as Htail.
  { intros base L t. mlog.
    match goal with |- ∃ _, (mkdir ≫= _) ?w0 = _ ∧ _ =>
      destruct (mkdir_spec w0) as (w0' & Hmk & (_ & _ & Hj) & Hfs0 & _);
      change (obstructed w0) with (obstructed w) in Hmk end.
    rewrite Hob in Hmk. rewrite (bind_exc _ _ _ _ _ Hmk).
    exists w0'. split; [done|]. split; [done|]. by rewrite Hj, app_nil_r. }
  destruct (lang_file_at (fs w)) as [[m1 c1]|] eqn:Hlf.
  - rewrite bool_decide_true by eauto.
    rewrite !bind_bind, (bind_val (log _ _) _ _ _ _ (log_eq _ _ _)), with_logs_app.
    rewrite bind_bind.
    match goal with |- ∃ _, (_load_json ?p ≫= _) ?w0 = _ ∧ _ =>
      destruct (_load_json_spec p w0) as (L1 & Hload1 & _);
      rewrite (bind_val _ _ _ _ _ Hload1) end.
    rewrite with_logs_app, (bind_val (mret _) _ _ _ _ (mret_eq _ _)).
    apply Htail.
  - rewrite bool_decide_false by (by intros [? ?]).
    rewrite (bind_val (mret _) _ _ _ _ (mret_eq _ _)). apply Htail.
Qed.

(** X21: two failures that no handler of the stages catches, so that they
    reach the handlers of main.  With chunk size zero the translation of a
    backlog that is not empty ends in the ValueError of [range].  And when
    build_resource_pack has read its translated artifact and the creation of
    the directory of the language file fails, the stage raises the error of
    that creation; nothing has been written then. *)
Theorem X21_exceptions_reaching_main cfg gemini strftime mods datapacks
    resume (w : World) :
  (translation_chunk_size cfg = 0%Z →
   ∀ data, latest_table (untranslated_path (fs w)) = Some data → data ≠ [] →
   result (main_dispatch cfg gemini strftime mods datapacks Translate resume) w
   = Exc ValueError) ∧
  (obstructed w = true →
   ∀ batch, latest_table (translated_path (fs w)) = Some batch →
   let run := main_dispatch cfg gemini strftime mods datapacks Build resume in
   result run w = Exc OSError ∧
   fs (after run w) = fs w ∧ journal (after run w) = journal w).
Proof.
  split.
  - intros Hsize data (nm & m & Hlatest & _)%latest_table_Some Hne.
    unfold result, main_dispatch.
    destruct (auto_translate_result_spec cfg gemini strftime resume w) as (w' & J & H & _).
    unfold auto_translate_result in H. rewrite Hlatest in H.
    destruct data as [|kv data]; [done|].
    rewrite (proj2 (chunks_of_None _ _) Hsize) in H.
    by rewrite (bind_exc _ _ _ _ _ H).
  - intros Hob batch Hlatest run.
    destruct (build_resource_pack_obstructed cfg w batch Hlatest Hob)
      as (w' & H & Hfs & Hj).
    unfold run, result, after, main_dispatch.
    by rewrite (bind_exc _ _ _ _ _ H).
Qed.

Lemma X21_witness :
  result (main_dispatch (MkConfig 0 3600 48 "sample pack") Sample.steady Sample.strftime0
            None None Translate None)
         Sample.world_backlog = Exc ValueError ∧
  result (main_dispatch Sample.cfg2 Sample.steady Sample.strftime0 None None Build None)
         (with_disk [Refused; Refused] Sample.world_publish) = Exc OSError.
Proof.
  split.
  - apply (proj1 (X21_exceptions_reaching_main (MkConfig 0 3600 48 "sample pack")
                    Sample.steady Sample.strftime0 None None None Sample.world_backlog)
             eq_refl Sample.backlog3).
    + reflexivity.
    + discriminate.
  - apply (proj2 (X21_exceptions_reaching_main Sample.cfg2 Sample.steady Sample.strftime0
                    None None None (with_disk [Refused; Refused] Sample.world_publish))
             eq_refl Sample.translated0).
    vm_compute. reflexivity.
Defined.



(** ** The log of a run *)














(** ** What the action [all] does to the published table *)

Lemma published_get (P T : Dict) k :
  dict_ok P → dict_ok T →
  get k (dict_of_items (sorted_items (update P T)))
  = match get k T with Some v => Some v | None => get k P end.
Proof.
  intros HP HT.
  destruct (publish_sorted (update P T) (dict_ok_update P T HP)) as (_ & _ & _ & Hget & _).
  by rewrite Hget, get_update.
Qed.

Lemma dict_ok_foldl_merge gemini (l : list Dict) : ∀ td : Dict,
  dict_ok td → dict_ok (foldl (merge_chunk gemini) td l).
Proof.
  induction l as [|c l IH]; intros td Hok; [done|].
  cbn [foldl]. apply IH. by apply dict_ok_update.
Qed.

Lemma get_update_Some k v (a b : Dict) :
  get k (update a b) = Some v → get k a = Some v ∨ (k, v) ∈ b.
Proof.
  revert a. induction b as [|[k' v'] b IH]; intros a; [by left|].
  rewrite update_cons. cbn [fst snd]. intros [Hget|Hin]%IH.
  - rewrite get_setitem in Hget. case_decide; simplify_eq; [right|by left].
    apply list_elem_of_here.
  - right. by apply list_elem_of_further.
Qed.

Lemma get_foldl_merge gemini (l : list Dict) : ∀ (td : Dict) k v,
  get k (foldl (merge_chunk gemini) td l) = Some v →
  get k td = Some v ∨ ∃ chunk, chunk ∈ l ∧ (k, v) ∈ merged gemini chunk.
Proof.
  induction l as [|c l IH]; intros td k v; cbn [foldl]; [by left|].
  intros [Hget|(chunk & Hin & Hkv)]%IH.
  - unfold merge_chunk in Hget. apply get_update_Some in Hget as [?|?]; [by left|].
    right. exists c. split; [apply list_elem_of_here | done].
  - right. exists chunk. split; [by apply list_elem_of_further | done].
Qed.

Lemma keys_dict_of_items (items : list (string * json)) k :
  k ∈ keys (dict_of_items items) ↔ k ∈ keys items.
Proof.
  unfold dict_of_items. rewrite elem_keys_update. split; [|by right].
  by intros [?%elem_of_nil|?].
Qed.

Lemma chunks_of_keys chunk_size (data : Dict) chunks chunk :
  chunks_of chunk_size data = Some chunks → chunk ∈ chunks → keys chunk ⊆ keys data.
Proof.
  unfold chunks_of. destruct (py_range _ _) as [starts|]; [|done].
  intros [= <-] (i & -> & _)%list_elem_of_fmap k Hk.
  apply (proj1 (keys_dict_of_items _ _)) in Hk.
  unfold slice, keys in *. apply list_elem_of_fmap in Hk as (kv & -> & Hin).
  apply list_elem_of_fmap_2. by apply subseteq_take, subseteq_drop in Hin.
Qed.

Lemma backlog_settled (all_diff P : Dict) k v :
  dict_ok P → get k P = Some v → truthy v = true →
  k ∉ keys (untranslated_of all_diff P).
Proof.
  intros HP Hget Hv. apply get_None. by rewrite untranslated_of_get, Hget, Hv.
Qed.

(** X23: the action [all] on a backlog that is not empty keeps the settled
    translations.  When every answer of the collaborator has keys of its
    chunk only, a key that the published table maps to a value that is not
    empty is published with the same value again. *)
Theorem X23_settled_translations_kept cfg gemini strftime mods datapacks
    (w : World) (chunks : list Dict) (P : Dict) :
  disk w = [] →
  timely w →
  published w = Some P →
  dict_ok P →
  let t := scan_folders mods datapacks in
  let all_diff := lang_diff (all_en_us t) (all_ja_jp t) in
  let backlog := match lang_file_at (fs w) with
                 | None => all_diff
                 | Some _ => untranslated_of all_diff (existing w)
                 end in
  backlog ≠ [] →
  chunks_of (translation_chunk_size cfg) backlog = Some chunks →
  (∀ chunk, chunk ∈ chunks → keys (merged gemini chunk) ⊆ keys chunk) →
  let run := main_dispatch cfg gemini strftime mods datapacks All None in
  ∃ final, published (after run w) = Some final ∧
    ∀ k v, get k P = Some v → truthy v = true → get k final = Some v.
Proof.
  intros Hd Ht HP Hok t all_diff backlog Hne Hchunks Hkeys run.
  destruct (main_dispatch_all_handover cfg gemini strftime mods datapacks None w chunks
              Hd Ht Hne Hchunks) as (_ & [m Hlang] & _).
  fold run in Hlang. cbn [resume_point fst snd] in Hlang.
  eexists. split; [unfold published; by rewrite Hlang|].
  assert (existing w = P) as HeP.
  { unfold existing, published in *. by destruct (lang_file_at (fs w)) as [[? [|?]]|];
      simplify_eq. }
  intros k v Hget Hv. rewrite HeP, published_get;
    [|done|by apply dict_ok_foldl_merge, NoDup_nil_2].
  rewrite Hget.
  destruct (get k (foldl _ _ _)) as [v'|] eqn:Hnew; [|done].
  exfalso.
  assert (k ∈ keys (foldl (merge_chunk gemini) [] (drop (Z.to_nat (1 - 1)) chunks))) as Hin.
  { apply get_is_Some. eauto. }
  apply keys_foldl_merge in Hin as [Hin%elem_of_nil|(chunk & Hc & Hin)]; [done|].
  apply Hkeys in Hin; [|done]. apply (chunks_of_keys _ _ _ _ Hchunks Hc) in Hin.
  unfold backlog in Hin. destruct (lang_file_at (fs w)) as [e|] eqn:Hlf.
  - rewrite HeP in Hin. exact (backlog_settled all_diff P k v Hok Hget Hv Hin).
  - unfold published in HP. rewrite Hlf in HP. injection HP as HP.
    rewrite <-HP in Hget. discriminate Hget.
Qed.

Lemma X23_witness :
  ∃ final,
    published
      (after (main_dispatch Sample.cfg2 Sample.steady Sample.strftime0
                (Some [("a.jar", Zip [("assets/a/lang/en_us.json",
                                       Parsed (JObj [("a.x", JStr "Hello");
                                                     ("a.y", JStr "World");
                                                     ("a.z", JStr "Bye")]))])])
                None All None)
             Sample.world_diff) = Some final ∧
    ∀ k v, get k Sample.published0 = Some v → truthy v = true → get k final = Some v.
Proof.
  refine (X23_settled_translations_kept Sample.cfg2 Sample.steady Sample.strftime0
            (Some [("a.jar", Zip [("assets/a/lang/en_us.json",
                                   Parsed (JObj [("a.x", JStr "Hello");
                                                 ("a.y", JStr "World");
                                                 ("a.z", JStr "Bye")]))])])
            None Sample.world_diff
            [[("a.y", JStr "World"); ("a.z", JStr "Bye")]] Sample.published0
            eq_refl _ eq_refl _ _ _ _).
  - by_eval.
  - by_eval.
  - vm_compute. discriminate.
  - vm_compute. reflexivity.
  - intros chunk ->%list_elem_of_singleton. by_eval.
Defined.

(** X24: after the action [all] on a backlog that is not empty nothing of
    the difference is left to translate.  When what is merged for every
    chunk has at least the keys of the chunk and no empty value, a
    find_untranslated that follows the run computes the empty backlog.  What
    is merged for a chunk on which the collaborator failed is the chunk
    itself, so such a chunk is published in the source language and is not
    taken up again. *)
Theorem X24_next_backlog_empty cfg gemini strftime mods datapacks
    (w : World) (chunks : list Dict) (P : Dict) :
  disk w = [] →
  timely w →
  published w = Some P →
  dict_ok P →
  (0 < translation_chunk_size cfg)%Z →
  let t := scan_folders mods datapacks in
  let all_diff := lang_diff (all_en_us t) (all_ja_jp t) in
  let backlog := match lang_file_at (fs w) with
                 | None => all_diff
                 | Some _ => untranslated_of all_diff (existing w)
                 end in
  backlog ≠ [] →
  chunks_of (translation_chunk_size cfg) backlog = Some chunks →
  (∀ chunk, chunk ∈ chunks → keys chunk ⊆ keys (merged gemini chunk)) →
  (∀ chunk, chunk ∈ chunks →
     Forall (fun kv => truthy kv.2 = true) (merged gemini chunk)) →
  let run := main_dispatch cfg gemini strftime mods datapacks All None in
  result (find_untranslated strftime) (after run w) = Val (Finished []).
Proof.
  intros Hd Ht HP Hok Hsize t all_diff backlog Hne Hchunks Hcover Htruthy run.
  destruct (main_dispatch_all_handover cfg gemini strftime mods datapacks None w chunks
              Hd Ht Hne Hchunks) as (_ & [m Hlang] & Hl1 & _).
  fold run in Hlang, Hl1. cbn [resume_point fst snd] in Hlang.
  change (drop (Z.to_nat (1 - 1)) chunks) with chunks in Hlang.
  assert (existing w = P) as HeP.
  { unfold existing, published in *. by destruct (lang_file_at (fs w)) as [[? [|?]]|];
      simplify_eq. }
  rewrite HeP in Hlang.
  set (translated := foldl (merge_chunk gemini) [] chunks) in *.
  assert (dict_ok translated) as Hokt by apply dict_ok_foldl_merge, NoDup_nil_2.
  destruct (find_untranslated_spec strftime (after run w)) as (w' & J & Hrun & _).
  unfold result. rewrite Hrun. cbn [fst]. unfold find_untranslated_result.
  fold t all_diff in Hl1.
  apply latest_table_Some in Hl1 as (nm & m1 & Hl1 & _). rewrite Hl1, Hlang.
  do 2 f_equal. apply untranslated_of_nil. intros k Hk.
  pose proof (published_get P translated k Hok Hokt) as Hfinal.
  destruct (get k translated) as [v|] eqn:Hnew.
  - exists v. split; [by apply get_Some_elem|].
    apply get_foldl_merge in Hnew as [Hnil|(chunk & Hc & Hkv)]; [discriminate Hnil|].
    specialize (Htruthy chunk Hc). rewrite Forall_forall in Htruthy.
    by apply Htruthy in Hkv.
  - assert (k ∉ keys backlog) as Hnb.
    { intros Hb.
      assert (dict_ok backlog) as Hokb.
      { unfold backlog. destruct (lang_file_at (fs w)); apply differences_sorted. }
      destruct (chunks_of_spec (Z.to_nat (translation_chunk_size cfg)) backlog
                  ltac:(lia) Hokb) as (chunks' & Hchunks' & _ & _ & Hcat).
      rewrite Z2Nat.id in Hchunks' by lia. rewrite Hchunks in Hchunks'.
      injection Hchunks' as <-.
      unfold keys in Hb. rewrite <-Hcat in Hb.
      apply list_elem_of_fmap in Hb as ([k' v'] & -> & Hin).
      apply elem_of_concat in Hin as (chunk & Hc & Hin).
      assert (k' ∈ keys translated) as Hkt.
      { apply keys_foldl_merge. right. exists chunk. split; [done|].
        apply (Hcover chunk Hc). unfold keys.
        by apply (list_elem_of_fmap_2 fst) in Hin. }
      by apply get_None in Hnew. }
    apply get_is_Some in Hk as [va Hva].
    unfold backlog in Hnb. destruct (lang_file_at (fs w)) as [e|] eqn:Hlf.
    + rewrite HeP in Hnb. apply get_None in Hnb.
      rewrite untranslated_of_get, Hva in Hnb by done.
      destruct (get k P) as [v'|] eqn:HgP; [|done].
      destruct (truthy v') eqn:Hv'; [|congruence].
      exists v'. split; [by apply get_Some_elem|done].
    + exfalso. apply Hnb, get_is_Some. eauto.
Qed.

Lemma X24_witness :
  result (find_untranslated Sample.strftime0)
    (after (main_dispatch Sample.cfg2 More.down Sample.strftime0
              (Some [("a.jar", Zip [("assets/a/lang/en_us.json",
                                     Parsed (JObj [("a.x", JStr "Hello");
                                                   ("a.y", JStr "World");
                                                   ("a.z", JStr "Bye")]))])])
              None All None)
           Sample.world_diff)
  = Val (Finished []).
Proof.
  refine (X24_next_backlog_empty Sample.cfg2 More.down Sample.strftime0
            (Some [("a.jar", Zip [("assets/a/lang/en_us.json",
                                   Parsed (JObj [("a.x", JStr "Hello");
                                                 ("a.y", JStr "World");
                                                 ("a.z", JStr "Bye")]))])])
            None Sample.world_diff
            [[("a.y", JStr "World"); ("a.z", JStr "Bye")]] Sample.published0
            eq_refl _ eq_refl _ _ _ _ _ _).
  - by_eval.
  - by_eval.
  - reflexivity.
  - vm_compute. discriminate.
  - vm_compute. reflexivity.
  - intros chunk ->%list_elem_of_singleton. by_eval.
  - intros chunk ->%list_elem_of_singleton. by_eval.
Defined.

(** X25: a published language file that does not parse counts as empty.
    find_untranslated then takes the whole difference as the backlog, and
    build_resource_pack replaces the file by the translated batch alone:
    what the file held is not carried over. *)
Theorem X25_unreadable_published_table cfg strftime (w : World) m :
  lang_file_at (fs w) = Some (Entry m Garbage) →
  (∀ all_diff, latest_table (lang_diff_path (fs w)) = Some all_diff →
     ∃ backlog, result (find_untranslated strftime) w = Val (Finished backlog) ∧
                ∀ k, get k backlog = get k all_diff) ∧
  (∀ batch, latest_table (translated_path (fs w)) = Some batch →
     dict_ok batch → disk w = [] →
     ∃ final, result (build_resource_pack cfg) w = Val (Finished final) ∧
              published (after (build_resource_pack cfg) w) = Some final ∧
              ∀ k, get k final = get k batch).
Proof.
  intros Hlf. split.
  - intros all_diff (nm & m0 & Hlatest & _)%latest_table_Some.
    destruct (find_untranslated_spec strftime w) as (w' & J & Hrun & _).
    unfold result. rewrite Hrun. cbn [fst].
    unfold find_untranslated_result. rewrite Hlatest, Hlf.
    eexists. split; [done|]. intros k.
    by rewrite untranslated_of_get by apply NoDup_nil_2.
  - intros batch (nm & m0 & Hlatest & _)%latest_table_Some Hok Hd.
    destruct (build_resource_pack_spec cfg w (obstructed_clear w Hd))
      as (w' & J & Hrun & _ & Hpub).
    unfold result, after. rewrite Hrun. cbn [fst snd].
    unfold build_resource_pack_result in *. rewrite Hlatest, Hlf in *.
    destruct (Hpub Hd _ eq_refl) as (m1 & _ & Hlang & _).
    eexists. split; [done|]. split; [unfold published; by rewrite Hlang|].
    intros k. rewrite published_get by (done || apply NoDup_nil_2).
    by destruct (get k batch).
Qed.

Lemma X25_witness :
  (∃ backlog, result (find_untranslated Sample.strftime0) world_broken_pack
              = Val (Finished backlog) ∧
              ∀ k, get k backlog = get k Sample.all_diff0) ∧
  (∃ final, result (build_resource_pack Sample.cfg2) world_broken_pack
            = Val (Finished final) ∧
            published (after (build_resource_pack Sample.cfg2) world_broken_pack)
            = Some final ∧
            ∀ k, get k final = get k Sample.translated0).
Proof.
  destruct (X25_unreadable_published_table Sample.cfg2 Sample.strftime0
              world_broken_pack 3 eq_refl) as [Hfind Hbuild].
  split.
  - apply Hfind. reflexivity.
  - apply Hbuild; [reflexivity | by_eval | reflexivity].
Defined.


(** ** The action [all] on an empty backlog *)

Lemma build_resource_pack_missing cfg w :
  translated_path (fs w) = ∅ →
  build_resource_pack cfg w
  = (Val MissingUpstream, with_logs [(INFO, Stage4Start); (ERROR, NoTranslatedFile)] w).
Proof.
  intros Hempty. unfold build_resource_pack. mlog.
  rewrite (bind_val _ _ _ _ _ (_get_latest_file_spec _ _ _)). cbn [with_logs fs].
  rewrite Hempty, latest_empty. cbn [fmap option_fmap option_map]. mlog.
  by rewrite mret_eq.
Qed.

(** X26: the action [all] when nothing is left to translate, on a disk
    without faults and a working directory without files dated in the
    future.  The translation stage then writes nothing, and the publisher
    takes the newest translated artifact of an earlier run: with no such
    artifact the published file stays as it is; otherwise the values of that
    artifact are merged over the published table once more, so a value
    edited in the published table since then is replaced by the one of the
    artifact.  The checkpoints are left as they are. *)
Theorem X26_all_on_empty_backlog cfg gemini strftime mods datapacks resume (w : World) :
  disk w = [] →
  timely w →
  let t := scan_folders mods datapacks in
  let all_diff := lang_diff (all_en_us t) (all_ja_jp t) in
  let backlog := match lang_file_at (fs w) with
                 | None => all_diff
                 | Some _ => untranslated_of all_diff (existing w)
                 end in
  backlog = [] →
  let run := main_dispatch cfg gemini strftime mods datapacks All resume in
  result run w = Val () ∧
  translated_path (fs (after run w)) = translated_path (fs w) ∧
  progress_path (fs (after run w)) = progress_path (fs w) ∧
  (translated_path (fs w) = ∅ →
     lang_file_at (fs (after run w)) = lang_file_at (fs w)) ∧
  (∀ earlier, latest_table (translated_path (fs w)) = Some earlier →
     published (after run w)
     = Some (dict_of_items (sorted_items (update (existing w) earlier)))).
Proof.
  intros Hd (Ht1 & Ht2 & Ht3) t all_diff backlog Hempty run.
  unfold run, main_dispatch, extract_lang_diff_of, result, after. fold t.
  destruct (extract_lang_diff_handover strftime (all_en_us t) (all_ja_jp t) w Hd)
    as (w1 & H1 & Hfs1 & Hc1 & Hd1).
  fold all_diff in H1, Hfs1. rewrite (bind_val _ _ _ _ _ H1).
  assert (latest_table (lang_diff_path (fs w1)) = Some all_diff) as Hl1.
  { rewrite Hfs1. cbn [store lang_diff_path]. unfold latest_table.
    by rewrite latest_insert_newest. }
  pose proof (find_untranslated_handover strftime w1 all_diff Hd1 Hl1) as H2.
  cbv zeta in H2.
  assert (match lang_file_at (fs w1) with
          | None => all_diff
          | Some _ => untranslated_of all_diff (existing w1)
          end = []) as Hb.
  { rewrite <-Hempty. unfold backlog, existing. by rewrite Hfs1. }
  rewrite Hb in H2. destruct H2 as (w2 & H2 & Hfs2 & Hc2 & Hd2).
  rewrite (bind_val _ _ _ _ _ H2).
  assert (latest_table (untranslated_path (fs w2)) = Some []) as Hl2.
  { rewrite Hfs2. cbn [store untranslated_path]. unfold latest_table.
    rewrite latest_insert_newest; [done|].
    rewrite Hfs1. cbn [store untranslated_path].
    eapply older_than_mono; [|exact Ht2]. lia. }
  rewrite (bind_val _ _ _ _ _ (auto_translate_idle cfg gemini strftime resume w2 Hl2)).
  set (w3 := with_logs [(INFO, Stage3Start); (INFO, NothingToTranslate)] w2).
  assert (fs w3 = store (untranslated_file (strftime (clock w1)))
                        (Entry (clock w1) (Doc []))
                        (store (lang_diff_file (strftime (clock w)))
                               (Entry (clock w) (Doc all_diff)) (fs w))) as Hfs3.
  { unfold w3. cbn [with_logs fs]. by rewrite Hfs2, Hfs1. }
  assert (disk w3 = []) as Hd3 by done.
  pose proof (build_resource_pack_frame cfg w3) as Hframe. unfold after in Hframe.
  destruct (build_resource_pack_spec cfg w3 (obstructed_clear w3 Hd3))
    as (w4 & J4 & H4 & _ & Hpub).
  rewrite H4 in Hframe. cbn [snd] in Hframe. injection Hframe as _ _ Hf3 Hf4.
  assert (∃ o, build_resource_pack_result (fs w3) = Val o) as [o Ho].
  { unfold build_resource_pack_result. destruct (latest _) as [[? [? [|?]]]|]; eauto. }
  rewrite Ho in H4. rewrite (bind_val _ _ _ _ _ H4).
  rewrite mret_eq. cbn [fst snd]. rewrite Hf3, Hf4, Hfs2, Hfs1.
  cbn [store translated_path progress_path].
  split; [done|]. split; [done|]. split; [done|]. split.
  - intros Hnone.
    rewrite (build_resource_pack_missing cfg w3) in H4
      by (rewrite Hfs3; exact Hnone).
    injection H4 as _ <-. cbn [with_logs fs]. by rewrite Hfs3.
  - intros earlier (nm & m & Hlatest & _)%latest_table_Some.
    assert (build_resource_pack_result (fs w3)
            = Val (Finished (dict_of_items (sorted_items (update (existing w) earlier)))))
      as Hres.
    { unfold build_resource_pack_result. rewrite Hfs3. cbn [store translated_path lang_file_at].
      rewrite Hlatest. unfold existing.
      by destruct (lang_file_at (fs w)) as [[? [|?]]|]. }
    destruct (Hpub Hd3 _ Hres) as (m1 & _ & Hlang & _).
    unfold published. by rewrite Hlang.
Qed.

Lemma X26_witness :
  published
    (after (main_dispatch Sample.cfg2 Sample.steady Sample.strftime0
              (Some [("a.jar", Zip [("assets/a/lang/en_us.json",
                                     Parsed (JObj [("a.x", JStr "Hello")]))])])
              None All None)
           world_edited)
  = Some [("a.x", JStr "old machine text")].
Proof.
  etrans.
  - refine (proj2 (proj2 (proj2 (proj2
              (X26_all_on_empty_backlog Sample.cfg2 Sample.steady Sample.strftime0
                 (Some [("a.jar", Zip [("assets/a/lang/en_us.json",
                                        Parsed (JObj [("a.x", JStr "Hello")]))])])
                 None None world_edited eq_refl _ _))))
              [("a.x", JStr "old machine text")] _).
    + by_eval.
    + vm_compute. reflexivity.
    + vm_compute. reflexivity.
  - vm_compute. reflexivity.
Defined.
